(** * Synkuru (Ju1-js/animeo): a shallow embedding of the AniList client core

    The development follows the JavaScript sources:
    - [src/lib/anilist.js]    query cache, request gateway, logo selection
                              and lookup, release texts, catalogs, progress
                              reconciliation and the watched-episode flow;
    - [src/lib/sqlite.js]     the durable id-mapping table, both directions;
    - [src/lib/id-mapping.js] tiered resolution of external ids, both
                              directions;
    - [src/addon.js]          the subtitles (watch-event) handler and the
                              catalog handler.

    JavaScript values are modelled by small inductive types, promises by
    settlement events on a store of promise cells, and rejected promises or
    thrown exceptions by a state-and-error monad.  Part I holds the model,
    Part II the properties the specification claims, Part III further
    properties of the code. *)

From Stdlib Require Import ZArith String Ascii List Bool Lia DecimalString.
From Stdlib Require DecimalPos.
From stdpp Require Import base tactics option list sorting strings gmap.

Local Open Scope string_scope.
Local Open Scope Z_scope.
Set Warnings "-register-all".

(** * Part I: the model *)

(** ** JavaScript values and host functions *)

Module Js.

(** A JavaScript number as far as this program computes with one: an
    integer, or NaN (what [parseInt] and [Number] give for malformed text).
    A number is a double, so [Int z] is a number when [round53 z = z]
    (below). *)
Inductive num :=
| NaN
| Int (z : Z).

(** The double nearest to an integer, ties to even: the integer itself when
    53 bits hold it. *)
Definition round53 (z : Z) : Z :=
  let a := Z.abs z in
  let extra := Z.log2 a - 52 in
  if extra <=? 0 then z
  else
    let q := Z.shiftr a extra in
    let r := a - Z.shiftl q extra in
    let half := Z.shiftl 1 (extra - 1) in
    let q := if (half <? r) || ((r =? half) && Z.odd q) then q + 1 else q in
    Z.sgn z * Z.shiftl q extra.

Definition num_truthy (n : num) : bool :=
  match n with
  | NaN => false
  | Int z => negb (z =? 0)%Z
  end.

(** [a > b]: every comparison with NaN is false. *)
Definition num_gt (a b : num) : bool :=
  match a, b with
  | Int x, Int y => (y <? x)%Z
  | _, _ => false
  end.

(** Truthiness of a number-or-nullish value. *)
Definition onum_truthy (n : option num) : bool :=
  match n with
  | None => false
  | Some n => num_truthy n
  end.

(** Truthiness of a string-or-nullish value: [null], [undefined] and the
    empty string are falsy. *)
Definition str_truthy (s : option string) : bool :=
  match s with
  | None => false
  | Some s => negb (String.eqb s "")
  end.

(** [s || d] for a string-or-nullish [s]. *)
Definition str_or (s : option string) (d : string) : string :=
  match s with
  | Some s => if String.eqb s "" then d else s
  | None => d
  end.

Definition string_of_Z (z : Z) : string :=
  NilZero.string_of_int (Z.to_int z).

Definition string_of_nat (n : nat) : string :=
  string_of_Z (Z.of_nat n).

Definition string_of_num (n : num) : string :=
  match n with
  | NaN => "NaN"
  | Int z => string_of_Z z
  end.

(** *** [Number::toString] of an integer

    Below 10^21 the digits of the number; from there on the exponent form of
    the shortest decimal that reads back as the number (the nearer one when
    two are as short, the even one when they are as near). *)

Definition digit_count (a : Z) : Z := Z.of_nat (String.length (string_of_Z a)).

Fixpoint shortest_decimal (fuel : nat) (k : Z) (a : Z) : Z :=
  match fuel with
  | O => a
  | S fuel =>
      let scale := 10 ^ (digit_count a - k) in
      let lo := a / scale * scale in
      let hi := lo + scale in
      match round53 lo =? a, round53 hi =? a with
      | true, true =>
          if a - lo <? hi - a then lo
          else if hi - a <? a - lo then hi
          else if Z.even (lo / scale) then lo else hi
      | true, false => lo
      | false, true => hi
      | false, false => shortest_decimal fuel (k + 1) a
      end
  end.

Fixpoint strip_zeros (rev_digits : string) : string :=
  match rev_digits with
  | String "0" rest => strip_zeros rest
  | _ => rev_digits
  end.

(** [d.ddd] for the significant digits of [v]. *)
Definition significand (v : Z) : string :=
  match String.rev (strip_zeros (String.rev (string_of_Z v))) with
  | String d EmptyString => String d EmptyString
  | String d rest => String d ("." ++ rest)
  | EmptyString => "0"
  end.

Definition exponent_text (a : Z) : string :=
  let v := shortest_decimal 17 1 a in
  significand v ++ "e+" ++ string_of_Z (digit_count v - 1).

Definition number_text (z : Z) : string :=
  if Z.abs z <? 10 ^ 21 then string_of_Z z
  else (if z <? 0 then "-" else "") ++ exponent_text (Z.abs z).

(** [Array.prototype.join] *)
Fixpoint join (sep : string) (l : list string) : string :=
  match l with
  | [] => ""
  | [x] => x
  | x :: rest => x ++ sep ++ join sep rest
  end.

(** [String.prototype.startsWith] *)
Definition startsWith (s p : string) : bool := String.prefix p s.

(** [String.prototype.includes] *)
Definition includes (s sub : string) : bool :=
  match String.index 0 sub s with
  | Some _ => true
  | None => false
  end.

Fixpoint drop_chars (n : nat) (s : string) : string :=
  match n, s with
  | S n', String _ rest => drop_chars n' rest
  | _, _ => s
  end.

(** *** Doubles that are no integers

    [Frac m e] is [m / 2^e] with [m] odd.  Read from a table a number can
    be any double, so these stand beside the integers of [num]. *)
Inductive real :=
| Frac (m : Z) (e : positive)
| Infinity (negative : bool).

#[global] Instance real_eq_dec : EqDecision real.
Proof. solve_decision. Defined.

(** [2^k], and 1 for a negative [k]. *)
Definition pow2 (k : Z) : Z := 2 ^ Z.max 0 k.

Definition pow10 (k : Z) : Z := 10 ^ Z.max 0 k.

(** The double nearest to [p / q] (for [0 <= p] and [0 < q]), ties to
    even, as [n * 2^u]: 53 bits, or fewer at the smallest exponent. *)
Definition nearest_parts (p q : Z) : Z * Z :=
  let e0 := Z.log2 p - Z.log2 q in
  let e := if p * pow2 (- e0) <? q * pow2 e0 then e0 - 1 else e0 in
  let u := Z.max (e - 52) (-1074) in
  let num := p * pow2 (- u) in
  let den := q * pow2 u in
  let n := num / den in
  let r := num mod den in
  (if (den <? 2 * r) || ((2 * r =? den) && Z.odd n) then n + 1 else n, u).

Definition nearest (negative : bool) (p q : Z) : Z + real :=
  let '(n, u) := nearest_parts p q in
  let signed (z : Z) := if negative then - z else z in
  if 0 <=? u then
    if 2 ^ 1024 <=? n * 2 ^ u then inr (Infinity negative)
    else inl (signed (n * 2 ^ u))
  else
    let g := Z.gcd n (2 ^ (- u)) in
    if g =? 2 ^ (- u) then inl (signed (n / g))
    else inr (Frac (signed (n / g)) (Z.to_pos (Z.log2 (2 ^ (- u) / g)))).

(** [n] with [10^(n-1) <= p / q < 10^n]. *)
Definition decimal_exponent (p q : Z) : Z :=
  if q <=? p then digit_count (p / q)
  else
    let d := digit_count (q / p) in
    if q =? p * 10 ^ (d - 1) then 2 - d else 1 - d.

(** The shortest decimal [s * 10^j] that reads back as the double [p / q],
    tried with [k], [k + 1], ... digits. *)
Fixpoint shortest_fraction (fuel : nat) (k : Z) (p q : Z) : Z * Z :=
  match fuel with
  | O => (p, 0)
  | S fuel =>
      let j := decimal_exponent p q - k in
      let x := p * pow10 (- j) in
      let unit := q * pow10 j in
      let lo := x / unit in
      let hi := lo + 1 in
      let reads (s : Z) :=
        bool_decide (nearest false (s * pow10 j) (pow10 (- j)) = nearest false p q) in
      match reads lo, reads hi with
      | true, true =>
          if x - lo * unit <? hi * unit - x then (lo, j)
          else if hi * unit - x <? x - lo * unit then (hi, j)
          else if Z.even lo then (lo, j) else (hi, j)
      | true, false => (lo, j)
      | false, true => (hi, j)
      | false, false => shortest_fraction fuel (k + 1) p q
      end
  end.

Fixpoint zeros (n : nat) : string :=
  match n with
  | O => ""
  | S n => String "0" (zeros n)
  end.

Fixpoint take_chars (n : nat) (s : string) : string :=
  match n, s with
  | S n', String c rest => String c (take_chars n' rest)
  | _, _ => ""
  end.

(** The digits [ds] of a decimal with its point after the first [n] of
    them, as [Number::toString] lays them out. *)
Definition layout (ds : string) (n : Z) : string :=
  let k := Z.of_nat (String.length ds) in
  if (0 <? n) && (n <=? 21) then
    if k <=? n then ds ++ zeros (Z.to_nat (n - k))
    else take_chars (Z.to_nat n) ds ++ "." ++ drop_chars (Z.to_nat n) ds
  else if (-6 <? n) && (n <=? 0) then "0." ++ zeros (Z.to_nat (- n)) ++ ds
  else
    take_chars 1 ds
    ++ (if k =? 1 then "" else "." ++ drop_chars 1 ds)
    ++ "e" ++ (if n - 1 <? 0 then "-" else "+") ++ string_of_Z (Z.abs (n - 1)).

(** [String(x)] *)
Definition real_text (x : real) : string :=
  match x with
  | Infinity negative => if negative then "-Infinity" else "Infinity"
  | Frac m e =>
      let '(s, j) := shortest_fraction 17 1 (Z.abs m) (Z.pos (2 ^ e)) in
      let ds := String.rev (strip_zeros (String.rev (string_of_Z s))) in
      (if m <? 0 then "-" else "")
      ++ layout ds (digit_count s + j)
  end.

(** [String.prototype.split] with a one-character separator. *)
Fixpoint split_go (sep : ascii) (cur : string) (s : string) : list string :=
  match s with
  | EmptyString => [String.rev cur]
  | String c rest =>
      if Ascii.eqb c sep then String.rev cur :: split_go sep "" rest
      else split_go sep (String c cur) rest
  end.

Definition split (sep : ascii) (s : string) : list string := split_go sep "" s.

(** *** [parseInt] without a radix argument

    The digits are read exactly and the value is rounded to a double.  A
    numeral beyond the range of the doubles (from 2^1024 on), which
    JavaScript reads as [Infinity], keeps its rounded value here. *)

Definition is_space (c : ascii) : bool :=
  let n := N_of_ascii c in
  ((n =? 32) || ((9 <=? n) && (n <=? 13)))%N.

Fixpoint trim_start (s : string) : string :=
  match s with
  | String c rest => if is_space c then trim_start rest else s
  | EmptyString => s
  end.

Definition digit_value (c : ascii) : option Z :=
  let n := Z.of_N (N_of_ascii c) in
  if (48 <=? n) && (n <=? 57) then Some (n - 48)
  else if (97 <=? n) && (n <=? 122) then Some (n - 87)
  else if (65 <=? n) && (n <=? 90) then Some (n - 55)
  else None.

(** The value of the longest prefix of digits of the radix; [acc] is
    [None] until a digit has been read. *)
Fixpoint read_digits (radix : Z) (acc : option Z) (s : string) : option Z :=
  match s with
  | String c rest =>
      match digit_value c with
      | Some d =>
          if d <? radix
          then read_digits radix (Some (default 0 acc * radix + d)) rest
          else acc
      | None => acc
      end
  | EmptyString => acc
  end.

Definition parseInt (s : string) : num :=
  let s := trim_start s in
  let '(neg, s) :=
    match s with
    | String "-" rest => (true, rest)
    | String "+" rest => (false, rest)
    | _ => (false, s)
    end in
  let '(radix, s) :=
    if String.prefix "0x" s || String.prefix "0X" s
    then (16, drop_chars 2 s) else (10, s) in
  match read_digits radix None s with
  | None => NaN
  | Some v => Int (round53 (if neg : bool then - v else v))
  end.

(** *** JSON values and [JSON.stringify] *)

(** Numbers are the integers GraphQL variables carry.  [JObj] lists the own
    enumerable properties in insertion order; a JavaScript object has no
    repeated key, so a well-formed object satisfies [NoDup fields.*1]. *)
Inductive json :=
| JUndef
| JNull
| JBool (b : bool)
| JNum (n : Z)
| JStr (s : string)
| JArr (xs : list json)
| JObj (fields : list (string * json)).

Definition truthy (v : json) : bool :=
  match v with
  | JUndef | JNull => false
  | JBool b => b
  | JNum n => negb (n =? 0)%Z
  | JStr s => negb (String.eqb s "")
  | JArr _ | JObj _ => true
  end.

Definition hex_digit (n : N) : ascii :=
  match n with
  | 0 => "0" | 1 => "1" | 2 => "2" | 3 => "3" | 4 => "4" | 5 => "5"
  | 6 => "6" | 7 => "7" | 8 => "8" | 9 => "9" | 10 => "a" | 11 => "b"
  | 12 => "c" | 13 => "d" | 14 => "e" | _ => "f"
  end%N%char.

Definition dquote : string := String (ascii_of_N 34) EmptyString.

Definition bslash : string := String (ascii_of_N 92) EmptyString.

(** One code unit of [QuoteJSONString]. *)
Definition quote_char (c : ascii) : string :=
  let n := N_of_ascii c in
  if (n =? 34)%N then bslash ++ dquote
  else if (n =? 92)%N then bslash ++ bslash
  else if (n =? 8)%N then "\b"
  else if (n =? 12)%N then "\f"
  else if (n =? 10)%N then "\n"
  else if (n =? 13)%N then "\r"
  else if (n =? 9)%N then "\t"
  else if (n <? 32)%N then
    "\u00" ++ String (hex_digit (n / 16)) (String (hex_digit (n mod 16)) EmptyString)
  else String c EmptyString.

Fixpoint quote_body (s : string) : string :=
  match s with
  | EmptyString => EmptyString
  | String c rest => quote_char c ++ quote_body rest
  end.

Definition quote (s : string) : string := dquote ++ quote_body s ++ dquote.

Definition member (k v : string) : string := quote k ++ ":" ++ v.

(** [Get(obj, k)] on the property list of an object, then the member text
    [ser] gives the value; [None] when the object has no such property or the
    value is left out. *)
Fixpoint own_property (ser : json -> option string) (k : string)
    (fields : list (string * json)) : option string :=
  match fields with
  | [] => None
  | (k', x) :: rest =>
      if String.eqb k' k then member k <$> ser x else own_property ser k rest
  end.

(** [SerializeJSONProperty] with an optional property list (the array form
    of the [replacer] argument).  [None] stands for [undefined]: such a value
    is left out of an object and printed as [null] inside an array.  With a
    property list, every object at every depth prints exactly the listed
    properties it owns, in the order of the list. *)
Fixpoint serialize (K : option (list string)) (v : json) {struct v} : option string :=
  match v with
  | JUndef => None
  | JNull => Some "null"
  | JBool b => Some (if b then "true" else "false")
  | JNum n => Some (number_text n)
  | JStr s => Some (quote s)
  | JArr xs =>
      Some ("[" ++ join "," (List.map (fun x => default "null" (serialize K x)) xs) ++ "]")
  | JObj fields =>
      let members :=
        match K with
        | Some ks => omap (fun k => own_property (serialize K) k fields) ks
        | None =>
            omap (fun kx : string * json => member kx.1 <$> serialize K kx.2) fields
        end in
      Some ("{" ++ join "," members ++ "}")
  end.

(** [Object.keys]: the indices of an array or of a string, the own keys of
    an object, nothing for the other primitives. *)
Definition object_keys (v : json) : list string :=
  match v with
  | JObj fields => fields.*1
  | JArr xs => string_of_nat <$> seq 0 (length xs)
  | JStr s => string_of_nat <$> seq 0 (String.length s)
  | _ => []
  end.

(** [Array.prototype.sort()] without a comparator orders strings by their
    code units. *)
Definition sort (l : list string) : list string := merge_sort String.le l.

End Js.

(** ** Settled promises and the state-and-error monad *)

Module Async.

(** What an HTTP response carries as far as the program looks at it. *)
Record response := {
  status : Z;
  statusText : string;
  retry_after : option string;  (* headers.get("retry-after") *)
  body : string
}.

(** [response.ok] *)
Definition ok (r : response) : bool := (200 <=? status r) && (status r <=? 299).

(** A JavaScript [Error], with the [response] property that
    [makeGraphQLRequest] and axios attach to HTTP failures. *)
Record error := {
  message : string;
  err_response : option response
}.

Definition Error (msg : string) : error :=
  {| message := msg; err_response := None |}.

Inductive settled (A : Type) :=
| Resolved (a : A)
| Rejected (e : error).

Arguments Resolved {A} a.
Arguments Rejected {A} e.

(** An [async] function over a world [W]: it returns or throws, and leaves
    a world behind either way. *)
Definition M (W A : Type) : Type := W -> settled A * W.

Definition ret {W A} (a : A) : M W A := fun w => (Resolved a, w).

Definition throw {W A} (e : error) : M W A := fun w => (Rejected e, w).

Definition bind {W A B} (m : M W A) (k : A -> M W B) : M W B :=
  fun w =>
    match m w with
    | (Resolved a, w') => k a w'
    | (Rejected e, w') => (Rejected e, w')
    end.

(** [try { m } catch (e) { h e }] *)
Definition try_catch {W A} (m : M W A) (h : error -> M W A) : M W A :=
  fun w =>
    match m w with
    | (Resolved a, w') => (Resolved a, w')
    | (Rejected e, w') => h e w'
    end.

Definition gets {W A} (f : W -> A) : M W A := fun w => (Resolved (f w), w).

Definition modify {W} (f : W -> W) : M W unit := fun w => (Resolved tt, f w).

End Async.

(** stdpp's [x ← m; k] and [m;; k] are the sequencing of [Async.M]. *)
#[global] Instance async_bind {W} : MBind (Async.M W) :=
  fun A B k m => Async.bind m k.

#[global] Instance async_ret {W} : MRet (Async.M W) :=
  fun A a => Async.ret a.

(** ** The query-cache key ([getCacheKey], anilist.js) *)

Module CacheKey.
Import Js.

Definition getCacheKey (query : string) (variables : json) : string :=
  let sortedVars :=
    if truthy variables
    then serialize (Some (sort (object_keys variables))) variables
    else Some "" in
  default "" (serialize None (JObj [("query", JStr query);
                                    ("variables", from_option JStr JUndef sortedVars)])).

End CacheKey.

(** ** The [lru-cache] package

    The package is a dependency, not part of the repository; the model
    follows its documented behaviour for the two options the program sets,
    [max] and [ttl].  Every operation reads the clock ([now], milliseconds).
    [items] is kept most recently used first. *)

Module Lru.
Section WithValue.
Context {V : Type}.

Record entry := {
  e_key : string;
  e_val : V;
  e_start : Z
}.

Record t := {
  max : N;
  ttl : Z;
  items : list entry
}.

Definition create (max : N) (ttl : Z) : t :=
  {| max := max; ttl := ttl; items := [] |}.

Definition with_items (c : t) (l : list entry) : t :=
  {| max := max c; ttl := ttl c; items := l |}.

Definition find (k : string) (l : list entry) : option entry :=
  List.find (fun e => String.eqb (e_key e) k) l.

Definition remove (k : string) (l : list entry) : list entry :=
  List.filter (fun e => negb (String.eqb (e_key e) k)) l.

(** An entry is stale once more than [ttl] has passed since it was set;
    [ttl = 0] disables expiry. *)
Definition is_stale (c : t) (now : Z) (e : entry) : bool :=
  negb (ttl c =? 0) && (ttl c <? now - e_start e).

(** [has] reports a live entry and leaves recency alone. *)
Definition has (c : t) (now : Z) (k : string) : bool :=
  match find k (items c) with
  | Some e => negb (is_stale c now e)
  | None => false
  end.

Definition delete (c : t) (k : string) : t := with_items c (remove k (items c)).

(** [get] drops a stale entry and answers [undefined]; a live entry becomes
    the most recently used and keeps its age. *)
Definition get (c : t) (now : Z) (k : string) : option V * t :=
  match find k (items c) with
  | Some e =>
      if is_stale c now e then (None, delete c k)
      else (Some (e_val e), with_items c (e :: remove k (items c)))
  | None => (None, c)
  end.

(** A full cache gives up its least recently used entry to a new key;
    [max = 0] is unbounded. *)
Definition evict (c : t) (l : list entry) : list entry :=
  if ((0 <? max c) && (max c <=? N.of_nat (length l)))%N then removelast l else l.

Definition set (c : t) (now : Z) (k : string) (v : V) : t :=
  let e := {| e_key := k; e_val := v; e_start := now |} in
  match find k (items c) with
  | Some _ => with_items c (e :: remove k (items c))
  | None => with_items c (e :: evict c (items c))
  end.

Definition clear (c : t) : t := with_items c [].

(** What an operation on another key keeps of the cache: the entry of [k],
    the options, and room for new entries but one. *)
Definition keeps (k : string) (budget : nat) (c c' : t) : Prop :=
  find k (items c') = find k (items c)
  /\ ttl c' = ttl c /\ max c' = max c
  /\ (max c = 0%N \/ (N.of_nat (length (items c) + S budget) <= max c)%N ->
      max c = 0%N \/ (N.of_nat (length (items c') + budget) <= max c)%N).

End WithValue.
Arguments entry V : clear implicits.
Arguments t V : clear implicits.
End Lru.

(** ** The query cache ([getCachedResult], anilist.js)

    [getCachedResult] has no [await]: a call runs to its [return] without
    yielding, so a call is one step.  The promise [fetchFn()] returns is
    settled later by the environment; the [then] and [catch] callbacks
    chained on it run as one step each. *)

Module QueryCache.
Import Js Async CacheKey.

Inductive pstate :=
| Pending
| Fulfilled (data : json)
| Failed (e : error).

Record state := {
  cache : Lru.t nat;            (* key to promise *)
  promises : gmap nat pstate;   (* the promise cells *)
  inflight : gmap nat string;   (* chained promise to the key its callbacks close over *)
  fetches : list string         (* keys fetchFn was invoked for, oldest first *)
}.

(** [const cache = new LRU({ max: 500, ttl: 10 * 60 * 1000 })] *)
Definition init : state :=
  {| cache := Lru.create 500%N (10 * 60 * 1000);
     promises := ∅; inflight := ∅; fetches := [] |}.

Definition new_promise (st : state) : nat := fresh (dom (promises st)).

(** The synchronous body of [getCachedResult]: the promise handed to the
    caller, and the state left behind. *)
Definition getCachedResult (now : Z) (query : string) (variables : json)
    (st : state) : option nat * state :=
  let key := getCacheKey query variables in
  if Lru.has (cache st) now key then
    let '(p, c) := Lru.get (cache st) now key in
    (p, {| cache := c; promises := promises st;
           inflight := inflight st; fetches := fetches st |})
  else
    let p := new_promise st in
    (Some p, {| cache := Lru.set (cache st) now key p;
                promises := <[p := Pending]> (promises st);
                inflight := <[p := key]> (inflight st);
                fetches := fetches st ++ [key] |}).

(** The [then] callback: [cache.set(key, Promise.resolve(data))]. *)
Definition on_fulfilled (now : Z) (p : nat) (data : json) (st : state) : state :=
  match inflight st !! p with
  | Some key =>
      let settled := <[p := Fulfilled data]> (promises st) in
      let r := fresh (dom settled) in
      {| cache := Lru.set (cache st) now key r;
         promises := <[r := Fulfilled data]> settled;
         inflight := base.delete p (inflight st);
         fetches := fetches st |}
  | None => st
  end.

(** The [catch] callback: [cache.delete(key)], then rethrow. *)
Definition on_rejected (p : nat) (e : error) (st : state) : state :=
  match inflight st !! p with
  | Some key =>
      {| cache := Lru.delete (cache st) key;
         promises := <[p := Failed e]> (promises st);
         inflight := base.delete p (inflight st);
         fetches := fetches st |}
  | None => st
  end.

(** [cache.clear()], issued by [updateAnilistProgress]. *)
Definition clear (st : state) : state :=
  {| cache := Lru.clear (cache st); promises := promises st;
     inflight := inflight st; fetches := fetches st |}.

(** A burst of calls for one query: one call per clock reading, nothing
    else in between.  Returns what each caller was handed. *)
Fixpoint burst (times : list Z) (query : string) (variables : json)
    (st : state) : list (option nat) * state :=
  match times with
  | [] => ([], st)
  | now :: rest =>
      let '(p, st1) := getCachedResult now query variables st in
      let '(ps, st2) := burst rest query variables st1 in
      (p :: ps, st2)
  end.

(** What can happen to the cache, one step each. *)
Inductive event :=
| Call (now : Z) (query : string) (variables : json)
| Fulfil (now : Z) (p : nat) (data : json)   (* the [then] callback of [p] runs *)
| Reject (p : nat) (e : error)               (* the [catch] callback of [p] runs *)
| Invalidate.                                (* [cache.clear()] *)

Definition step (ev : event) (st : state) : option nat * state :=
  match ev with
  | Call now query variables => getCachedResult now query variables st
  | Fulfil now p data => (None, on_fulfilled now p data st)
  | Reject p e => (None, on_rejected p e st)
  | Invalidate => (None, clear st)
  end.

(** A schedule of events; a call's slot in the answer holds the promise the
    caller was handed. *)
Fixpoint run (evs : list event) (st : state) : list (option nat) * state :=
  match evs with
  | [] => ([], st)
  | ev :: rest =>
      let '(r, st1) := step ev st in
      let '(rs, st2) := run rest st1 in
      (r :: rs, st2)
  end.



(** How often [fetchFn] ran for a key. *)
Definition invocations (key : string) (st : state) : nat :=
  length (List.filter (String.eqb key) (fetches st)).




End QueryCache.

(** ** The request gateway ([limiter], [makeGraphQLRequest], anilist.js) *)

Module Gateway.
Import Js Async.

(** The body of a GraphQL reply: [data], and [errors] when the API reports
    any (an array, so truthy whenever it is there). *)
Record gql_body := {
  data : json;
  errors : option (list string)   (* the message of each entry *)
}.

(** What one dispatch of the request meets. *)
Inductive exchange :=
| NetworkFailure (msg : string)                (* fetch rejects: reset, timeout *)
| Reply (r : response) (payload : string + gql_body).
                                               (* inl: response.json() rejects *)

(** The job [makeGraphQLRequest] hands to [limiter.schedule], from the
    [fetch] on. *)
Definition attempt (x : exchange) : settled gql_body :=
  match x with
  | NetworkFailure msg => Rejected (Error msg)
  | Reply r payload =>
      if negb (ok r) then
        Rejected {| message := "GraphQL request failed: " ++ string_of_Z (status r)
                               ++ " " ++ statusText r ++ " - " ++ body r;
                    err_response := Some r |}
      else
        match payload with
        | inl msg => Rejected (Error msg)
        | inr b =>
            match errors b with
            | Some msgs =>
                Rejected (Error ("GraphQL API returned errors: " ++ join "; " msgs))
            | None => Resolved b
            end
        end
  end.

Record jobInfo := { retryCount : nat }.

Definition times1000 (n : num) : num :=
  match n with
  | NaN => NaN
  | Int z => Int (z * 1000)
  end.

Section Host.
(** [Number(text)], the host's conversion of the header text. *)
Variable Number : string -> num.

(** The [failed] listener.  The state is [rateLimitPromise]: the pause in
    force, if any, by its length in milliseconds.  The listener answers the
    delay before a retry, or [null] for no retry. *)
Definition onFailed (rateLimitPromise : option num) (e : error) (info : jobInfo)
    : option num * option num :=
  match err_response e with
  | Some r =>
      if status r =? 429 then
        let retryAfter := Number (str_or (retry_after r) "60") in
        (* one shared pause is awaited, then cleared *)
        (if (retryCount info <? 3)%nat then Some (times1000 retryAfter) else None,
         None)
      else (None, rateLimitPromise)
  | None => (None, rateLimitPromise)
  end.

(** Bottleneck's retry contract ([limiter.schedule] with a [failed]
    listener; the package is a dependency): a failed job is run again when
    the listener answers a number, with [retryCount] one higher, and fails
    with its error when the listener answers [null].  [xs i] is what the
    [i]-th dispatch meets.  The answer carries the number of retries. *)
Fixpoint schedule (fuel : nat) (xs : nat -> exchange) (retries : nat)
    (rateLimitPromise : option num) : option (settled gql_body * nat * option num) :=
  match fuel with
  | O => None
  | S fuel' =>
      match attempt (xs retries) with
      | Resolved b => Some (Resolved b, retries, rateLimitPromise)
      | Rejected e =>
          match onFailed rateLimitPromise e {| retryCount := retries |} with
          | (Some _, rl) => schedule fuel' xs (S retries) rl
          | (None, rl) => Some (Rejected e, retries, rl)
          end
      end
  end.

(** [makeGraphQLRequest]: the job scheduled afresh. *)
Definition makeGraphQLRequest (fuel : nat) (xs : nat -> exchange)
    (rateLimitPromise : option num) : option (settled gql_body * nat * option num) :=
  schedule fuel xs 0 rateLimitPromise.

End Host.

(** A dispatch that was throttled: HTTP 429. *)
Definition throttled (x : exchange) : bool :=
  match x with
  | Reply r _ => status r =? 429
  | NetworkFailure _ => false
  end.

End Gateway.

(** ** Logo selection ([logoUrl], anilist.js) *)

Module Logo.
Import Js.

Record logo := {
  url : option string;
  lang : option string
}.

(** [(e) => !e?.lang || ["en", "und"].includes(e.lang)]; [None] is a
    [null] or [undefined] element. *)
Definition preferred (e : option logo) : bool :=
  match e with
  | None => true
  | Some l =>
      negb (str_truthy (lang l))
      || String.eqb (str_or (lang l) "") "en"
      || String.eqb (str_or (lang l) "") "und"
  end.

(** [s.replace(/^http:/, "https:")] *)
Definition to_https (s : string) : string :=
  if String.prefix "http:" s then "https:" ++ drop_chars 5 s else s.

(** [hd] and [normal] are arrays or nullish. *)
Definition logoUrl (hd normal : option (list (option logo))) : option string :=
  let merged := (default [] hd ++ default [] normal)%list in
  match merged with
  | [] => None
  | first :: _ =>
      let preferredLogo := List.find preferred merged in
      let chosen :=
        match preferredLogo with
        | Some (Some l) => Some l     (* a truthy element *)
        | _ => first                  (* preferredLogo || merged[0] *)
        end in
      match chosen with
      | Some l => if str_truthy (url l) then to_https <$> url l else None
      | None => None
      end
  end.



End Logo.

(** ** Progress reconciliation ([updateAnilistProgress],
       [handleWatchedEpisode], anilist.js) *)

Module Progress.
Import Js Async.

(** What [getAnilistMediaListEntry] hands over. *)
Record entryData := {
  currentProgress : Z;             (* mediaListEntry?.progress ?? 0 *)
  currentStatus : option string;   (* mediaListEntry?.status *)
  totalEpisodes : option Z;        (* media.episodes *)
  isMovie : bool                   (* media.format === "MOVIE" *)
}.

Inductive fetched :=
| Unavailable                      (* null *)
| NotFound                         (* { notFound: true } *)
| Entry (d : entryData).

(** What a call does to the remote list: nothing, or one
    [SaveMediaListEntry] mutation (after [cache.clear()]). *)
Inductive decision :=
| NoWrite
| Write (progress : Z) (status : string).

Definition ReferenceError : error := Error "newStatus is not defined".

(** The world of [updateAnilistProgress] is the variable [newStatus]: the
    function assigns it without declaring it, so it is a property of the
    global object, unset ([None]) until the first assignment and kept from
    one call to the next.  Reading it while unset throws a ReferenceError. *)
Definition assign (s : string) : M (option string) unit :=
  modify (fun _ => Some s).

Definition read : M (option string) string :=
  fun newStatus =>
    match newStatus with
    | Some s => (Resolved s, newStatus)
    | None => (Rejected ReferenceError, newStatus)
    end.

Definition updateAnilistProgress (targetEpisode : Z) (currentEntryData : fetched)
    : M (option string) decision :=
  match currentEntryData with
  | Unavailable | NotFound => ret NoWrite
  | Entry d =>
      let newProgress := if isMovie d then 1 else targetEpisode in
      if newProgress <=? currentProgress d then ret NoWrite
      else if negb (isMovie d)
              && from_option (fun total => total <? newProgress) false (totalEpisodes d)
      then ret NoWrite
      else
        (if isMovie d
            || from_option (fun total => total <=? newProgress) false (totalEpisodes d)
         then assign "COMPLETED"
         else match currentStatus d with
              | Some s =>
                  if str_truthy (Some s) && negb (String.eqb s "CURRENT")
                  then assign s else ret tt
              | None => ret tt
              end) ;;
        (if from_option (String.eqb "COMPLETED") false (currentStatus d)
         then s ← read;
              if negb (String.eqb s "COMPLETED") then assign "CURRENT" else ret tt
         else ret tt) ;;
        s ← read;
        ret (Write newProgress s)
  end.

(** [handleWatchedEpisode], with what its two remote reads answered:
    [entry] is the result of [getAnilistMediaListEntry]. *)
Definition handleWatchedEpisode (entry : fetched) (currentEpisode : Z)
    (preAddedOnly : bool) : M (option string) decision :=
  let isOnList :=
    match entry with
    | Entry d => match currentStatus d with Some _ => true | None => false end
    | _ => false
    end in
  if preAddedOnly && negb isOnList then ret NoWrite
  else updateAnilistProgress currentEpisode entry.

(** The policy of the specification, in its words: completed for a
    single-unit work or once the target reaches the total; otherwise the
    current status, a completed one demoted to current. *)
Definition status_policy (d : entryData) (newProgress : Z) : option string :=
  if isMovie d || from_option (fun total => total <=? newProgress) false (totalEpisodes d)
  then Some "COMPLETED"
  else if from_option (String.eqb "COMPLETED") false (currentStatus d)
  then Some "CURRENT"
  else currentStatus d.

Definition completes (d : entryData) (newProgress : Z) : bool :=
  isMovie d || from_option (fun total => total <=? newProgress) false (totalEpisodes d).

(** The status a writing call sends, read off the code: [None] when the
    read of [newStatus] throws. *)
Definition sent_status (d : entryData) (newProgress : Z) (newStatus : option string)
    : option string :=
  if completes d newProgress then Some "COMPLETED"
  else match currentStatus d with
       | Some s => if String.eqb s "" || String.eqb s "CURRENT" then newStatus else Some s
       | None => newStatus
       end.

(** The guards of the two early returns. *)
Definition skips (d : entryData) (newProgress : Z) : bool :=
  (newProgress <=? currentProgress d)
  || negb (isMovie d)
     && from_option (fun total => total <? newProgress) false (totalEpisodes d).

(** Calls in sequence, each with the entry fetched for it. *)
Fixpoint run_updates (calls : list (Z * fetched)) (newStatus : option string)
    : list (settled decision) * option string :=
  match calls with
  | [] => ([], newStatus)
  | (targetEpisode, entry) :: rest =>
      let '(r, g) := updateAnilistProgress targetEpisode entry newStatus in
      let '(rs, g') := run_updates rest g in
      (r :: rs, g')
  end.

End Progress.

(** ** The durable mapping table ([sqlite.js])

    [CREATE TABLE ids (anilist INTEGER PRIMARY KEY NOT NULL, kitsu INTEGER
    UNIQUE, imdb TEXT UNIQUE, thetvdb INTEGER UNIQUE, themoviedb INTEGER
    UNIQUE)]: a map from the canonical id to a row of nullable
    alternate-scheme values, each as the column stores it.  SQLite and the
    [sqlite3] package are dependencies; the model follows their documented
    behaviour: the type affinity of a column, the comparison of stored
    values, and the parameters the package binds for a string and for a
    number. *)

Module Sqlite.
Import Js Async.

Inductive column := kitsu | imdb | thetvdb | themoviedb.

#[global] Instance column_eq_dec : EqDecision column.
Proof. solve_decision. Defined.

Definition column_name (c : column) : string :=
  match c with
  | kitsu => "kitsu"
  | imdb => "imdb"
  | thetvdb => "thetvdb"
  | themoviedb => "themoviedb"
  end.

(** [validSources.includes(source)], and the column the SQL text then
    names. *)
Definition column_of (source : string) : option column :=
  if String.eqb source "kitsu" then Some kitsu
  else if String.eqb source "imdb" then Some imdb
  else if String.eqb source "thetvdb" then Some thetvdb
  else if String.eqb source "themoviedb" then Some themoviedb
  else None.

(** *** Stored values

    What a cell holds: a number or text.  [VInt] is an integer: an INTEGER of
    64 bits, or beyond them a REAL that is a whole number; SQLite compares
    the two storage classes by value, and a row hands either to JavaScript
    as a double.  [VReal] is a REAL that is no integer. *)
Inductive value :=
| VInt (z : Z)
| VReal (x : real)
| VText (s : string).

#[global] Instance value_eq_dec : EqDecision value.
Proof. solve_decision. Defined.

Definition of_number (x : Z + real) : value :=
  match x with
  | inl z => VInt z
  | inr x => VReal x
  end.

(** A parameter as the [sqlite3] package binds it: text for a string,
    [sqlite3_bind_int] for a number that is a 32-bit integer,
    [sqlite3_bind_double] for any other number. *)
Inductive bound :=
| BText (s : string)
| BInteger (z : Z)
| BFloat (x : Z + real).

(** *** Text read as a number ([sqlite3AtoF])

    Optional white space, an optional sign, digits with an optional point,
    an optional exponent, optional white space.  The value is the double
    nearest to the decimal. *)

Definition is_digit (c : ascii) : bool :=
  let n := N_of_ascii c in ((48 <=? n) && (n <=? 57))%N.

(** The decimal digits at the front of [s]: their value on top of [acc],
    how many there are, and the rest of [s]. *)
Fixpoint read_decimal (s : string) (acc : Z) (count : Z) : Z * Z * string :=
  match s with
  | String c rest =>
      if is_digit c
      then read_decimal rest (acc * 10 + (Z.of_N (N_of_ascii c) - 48)) (count + 1)
      else (acc, count, s)
  | EmptyString => (acc, count, s)
  end.

(** The digits of an exponent; the value stops growing at 10000. *)
Fixpoint read_exponent (s : string) (acc : Z) (count : Z) : Z * Z * string :=
  match s with
  | String c rest =>
      if is_digit c
      then read_exponent rest
             (if acc <? 10000 then acc * 10 + (Z.of_N (N_of_ascii c) - 48) else 10000)
             (count + 1)
      else (acc, count, s)
  | EmptyString => (acc, count, s)
  end.

Definition read_sign (s : string) : bool * string :=
  match s with
  | String "-" rest => (true, rest)
  | String "+" rest => (false, rest)
  | _ => (false, s)
  end.

(** The number a well-formed integer or real literal stands for; [None]
    for any other text.  An integer literal of 64 bits is that integer. *)
Definition numeric_text (s : string) : option (Z + real) :=
  let '(negative, s) := read_sign (trim_start s) in
  let '(whole, n1, s) := read_decimal s 0 0 in
  let '(mantissa, n2, s, point) :=
    match s with
    | String "." rest =>
        let '(m, n2, s) := read_decimal rest whole 0 in (m, n2, s, true)
    | _ => (whole, 0, s, false)
    end in
  let '(exponent, valid, s, scaled) :=
    match s with
    | String c rest =>
        if Ascii.eqb c "e" || Ascii.eqb c "E" then
          let '(down, rest) := read_sign rest in
          let '(e, n3, s) := read_exponent rest 0 0 in
          (if down : bool then - e else e, 0 <? n3, s, true)
        else (0, true, s, false)
    | EmptyString => (0, true, s, false)
    end in
  if String.eqb (trim_start s) "" && (0 <? n1 + n2) && valid then
    let signed := if negative : bool then - whole else whole in
    if negb point && negb scaled && (- 2 ^ 63 <=? signed) && (signed <? 2 ^ 63)
    then Some (inl signed)
    else
      let d := exponent - n2 in
      Some (nearest negative (mantissa * pow10 d) (pow10 (- d)))
  else None.

(** *** A number as text ([%!.15g])

    What a column of TEXT affinity stores for a REAL: fifteen significant
    digits of [n / 10^k], in exponent form below 10^-4 and from 10^15 on,
    with a digit after the point in either form. *)

Definition pad2 (s : string) : string :=
  if (String.length s <? 2)%nat then "0" ++ s else s.

Definition real_digits (negative : bool) (n k : Z) : string :=
  let len := digit_count n in
  let '(p, point) :=
    if len <=? 15 then (n, len - k)
    else
      let cut := 10 ^ (len - 15) in
      let p := (n + cut / 2) / cut in
      if p =? 10 ^ 15 then (1, len - k + 1) else (p, len - k) in
  let ds := String.rev (strip_zeros (String.rev (string_of_Z p))) in
  let exp := point - 1 in
  let rest (s : string) := if String.eqb s "" then "0" else s in
  (if negative then "-" else "")
  ++ (if (exp <? -4) || (14 <? exp) then
        take_chars 1 ds ++ "." ++ rest (drop_chars 1 ds)
        ++ "e" ++ (if exp <? 0 then "-" else "+") ++ pad2 (string_of_Z (Z.abs exp))
      else if 0 <=? exp then
        take_chars (Z.to_nat point) (ds ++ zeros (Z.to_nat point))
        ++ "." ++ rest (drop_chars (Z.to_nat point) ds)
      else "0." ++ zeros (Z.to_nat (- point)) ++ ds).

Definition float_text (x : Z + real) : string :=
  match x with
  | inl z => real_digits (z <? 0) (Z.abs z) 0
  | inr (Frac m e) =>
      real_digits (m <? 0) (Z.abs m * 5 ^ Z.pos e) (Z.pos e)
  | inr (Infinity negative) => if negative then "-Inf" else "Inf"
  end.

(** *** Type affinity

    What a column makes of a bound value, in a row it stores and in a
    comparison with one.  The imdb column has TEXT affinity: a number
    becomes its text.  The others have INTEGER affinity: text that reads as
    a number becomes that number, any other text stays text. *)
Definition affinity (c : column) (b : bound) : value :=
  match c with
  | imdb =>
      VText match b with
            | BText s => s
            | BInteger z => string_of_Z z
            | BFloat x => float_text x
            end
  | _ =>
      match b with
      | BText s => from_option of_number (VText s) (numeric_text s)
      | BInteger z => VInt z
      | BFloat x => of_number x
      end
  end.

(** The rowid of a new row is an integer between -2^63 and 2^63; a number
    elsewhere is refused. *)
Definition rowid (a : Z) : bool := (- 2 ^ 63 <? a) && (a <? 2 ^ 63).

(** *** The table *)

Record row := {
  r_kitsu : option value;
  r_imdb : option value;
  r_thetvdb : option value;
  r_themoviedb : option value
}.

Definition empty_row : row :=
  {| r_kitsu := None; r_imdb := None; r_thetvdb := None; r_themoviedb := None |}.

Definition col (c : column) (r : row) : option value :=
  match c with
  | kitsu => r_kitsu r
  | imdb => r_imdb r
  | thetvdb => r_thetvdb r
  | themoviedb => r_themoviedb r
  end.

Definition set_col (c : column) (v : option value) (r : row) : row :=
  match c with
  | kitsu => {| r_kitsu := v; r_imdb := r_imdb r;
                r_thetvdb := r_thetvdb r; r_themoviedb := r_themoviedb r |}
  | imdb => {| r_kitsu := r_kitsu r; r_imdb := v;
               r_thetvdb := r_thetvdb r; r_themoviedb := r_themoviedb r |}
  | thetvdb => {| r_kitsu := r_kitsu r; r_imdb := r_imdb r;
                  r_thetvdb := v; r_themoviedb := r_themoviedb r |}
  | themoviedb => {| r_kitsu := r_kitsu r; r_imdb := r_imdb r;
                     r_thetvdb := r_thetvdb r; r_themoviedb := v |}
  end.

(** The rows by canonical id, a JavaScript number wherever the program
    writes or reads one. *)
Abbreviation table := (gmap Z row).

(** The canonical ids whose row holds [v] in column [c]. *)
Definition holders (db : table) (c : column) (v : value) : list Z :=
  (filter (fun kr : Z * row => col c kr.2 = Some v) (map_to_list db)).*1.

(** Would [v] in column [c] of row [a] break the column's UNIQUE index? *)
Definition taken_elsewhere (db : table) (c : column) (v : option value) (a : Z) : bool :=
  match v with
  | Some v => existsb (fun a' => negb (a' =? a)) (holders db c v)
  | None => false
  end.

Inductive sql_result :=
| SqlOk (db : table)
| SqlError (msg : string).

Definition unique_failed (c : column) : string :=
  "SQLITE_CONSTRAINT: UNIQUE constraint failed: ids." ++ column_name c.

Definition datatype_mismatch : string := "SQLITE_MISMATCH: datatype mismatch".

(** [c IS NULL OR c != excluded.c], in SQL's three-valued logic. *)
Definition needs_update (old new : option value) : bool :=
  match old, new with
  | None, _ => true
  | Some x, Some y => negb (bool_decide (x = y))
  | Some _, None => false
  end.

(** The statement of [cacheToDatabase] and [cacheExternalIdToDb] as SQLite
    runs it:
    [INSERT INTO ids (anilist, c) VALUES (a, v)
     ON CONFLICT(anilist) DO UPDATE SET c = excluded.c
     WHERE c IS NULL OR c != excluded.c],
    for a canonical id that is a number and a value that is bound or NULL.
    A canonical id that is no rowid, and a row that breaks the UNIQUE index
    of [c], abort the statement and leave the table as it was. *)
Definition run_upsert (db : table) (c : column) (a : Z) (b : option bound) : sql_result :=
  let v := affinity c <$> b in
  if negb (rowid a) then SqlError datatype_mismatch
  else
    match db !! a with
    | None =>
        if taken_elsewhere db c v a then SqlError (unique_failed c)
        else SqlOk (<[a := set_col c v empty_row]> db)
    | Some r =>
        if needs_update (col c r) v then
          if taken_elsewhere db c v a then SqlError (unique_failed c)
          else SqlOk (<[a := set_col c v r]> db)
        else SqlOk db
    end.

(** The callback of [db.run] in both upserts: a UNIQUE failure is logged
    and resolves, any other error rejects. *)
Definition settle (db : table) (r : sql_result) : settled unit * table :=
  match r with
  | SqlError msg =>
      if includes msg "UNIQUE constraint failed"
      then (Resolved tt, db)
      else (Rejected (Error msg), db)
  | SqlOk db' => (Resolved tt, db')
  end.

(** [SELECT anilist FROM ids WHERE c = ?], first row; [id] is a string, and
    the row hands the canonical id over as a double. *)
Definition getFromDatabase (id : string) (source : string) : M table (option Z) :=
  match column_of source with
  | None => throw (Error "Invalid source column")
  | Some c => gets (fun db => round53 <$> head (holders db c (affinity c (BText id))))
  end.

(** [anilistId] is a number, [externalId] a string or [null]. *)
Definition cacheToDatabase (anilistId : Z) (externalId : option string)
    (source : string) : M table unit :=
  match column_of source with
  | None => throw (Error "Invalid source column")
  | Some c =>
      fun db => settle db (run_upsert db c anilistId (BText <$> externalId))
  end.

(** The table's invariant: in each alternate-scheme column a value stands
    in at most one row. *)
Definition unique_columns (db : table) : Prop :=
  forall (c : column) (a1 a2 : Z) (r1 r2 : row) (v : value),
    db !! a1 = Some r1 -> db !! a2 = Some r2 ->
    col c r1 = Some v -> col c r2 = Some v -> a1 = a2.

End Sqlite.

(** ** Tiered id resolution ([getAnilistId], id-mapping.js) *)

Module IdMapping.
Import Js Async Sqlite.

(** What an axios GET comes to: an error (no response, or a status
    outside 2xx) or the parsed [response.data]. *)
Inductive axios (A : Type) :=
| AxiosError (e : error)
| AxiosOk (data : A).

Arguments AxiosError {A} e.
Arguments AxiosOk {A} data.

(** [x.attributes] of one Kitsu mapping. *)
Record attributes := {
  externalSite : string;
  externalId : option string
}.

(** The two lookup services, by what each would answer. *)
Record remote := {
  (* response.data?.data of /anime/:id/mappings; an element is its
     [attributes], or [None] when it has none *)
  kitsu_reply : axios (option (list (option attributes)));
  (* response.data?.anilist of the ARM service, a number *)
  arm_reply : axios (option Z)
}.

Inductive effect :=
| DbRead
| KitsuRequest
| ArmRequest
| CacheSet (key : string) (value : num)
| DbWrite (anilistId : Z) (id : string) (source : string).

Record world := {
  anilistIdCache : Lru.t num;     (* new LRU({ max: 10000, ttl: one day }) *)
  ids : table;
  log : list effect               (* oldest first *)
}.

Definition emit (e : effect) : M world unit :=
  modify (fun w => {| anilistIdCache := anilistIdCache w; ids := ids w;
                      log := (log w ++ [e])%list |}).

(** Run a table operation on the world's table. *)
Definition on_db {A} (m : M table A) : M world A :=
  fun w =>
    let '(r, db) := m (ids w) in
    (r, {| anilistIdCache := anilistIdCache w; ids := db; log := log w |}).

Definition cache_set (now : Z) (key : string) (v : num) : M world unit :=
  modify (fun w => {| anilistIdCache := Lru.set (anilistIdCache w) now key v;
                      ids := ids w; log := log w |}) ;;
  emit (CacheSet key v).

Definition cache_get (now : Z) (key : string) : M world (option num) :=
  fun w =>
    let '(v, c) := Lru.get (anilistIdCache w) now key in
    (Resolved v, {| anilistIdCache := c; ids := ids w; log := log w |}).

(** [response.data?.data?.find((x) => x.attributes.externalSite ===
    "anilist/anime")]: an element without [attributes] makes the callback
    throw a TypeError. *)
Fixpoint find_mapping (ms : list (option attributes)) : settled (option attributes) :=
  match ms with
  | [] => Resolved None
  | None :: _ => Rejected (Error "Cannot read properties of undefined")
  | Some a :: rest =>
      if String.eqb (externalSite a) "anilist/anime" then Resolved (Some a)
      else find_mapping rest
  end.

(** [anilistId ? parseInt(anilistId) : null] *)
Definition parse_id (anilistId : option string) : option num :=
  if str_truthy anilistId then parseInt <$> anilistId else None.

(** Every failure is caught inside and answered with [null]. *)
Definition fetchAnilistIdFromKitsu (env : remote) : M world (option num) :=
  emit KitsuRequest ;;
  ret match kitsu_reply env with
      | AxiosError _ => None
      | AxiosOk None => None
      | AxiosOk (Some ms) =>
          match find_mapping ms with
          | Resolved (Some a) => parse_id (externalId a)
          | Resolved None => None
          | Rejected _ => None
          end
      end.

(** [parseInt] reads the text of the number: [String(anilistId)]. *)
Definition fetchAnilistIdFromArm (env : remote) : M world (option num) :=
  emit ArmRequest ;;
  ret match arm_reply env with
      | AxiosError _ => None
      | AxiosOk None => None
      | AxiosOk (Some n) =>
          if n =? 0 then None else Some (parseInt (number_text n))
      end.

Definition getAnilistId (now : Z) (env : remote) (id source : string)
    : M world (option num) :=
  let cacheKey := source ++ ":" ++ id in
  hit ← gets (fun w => Lru.has (anilistIdCache w) now cacheKey);
  if hit : bool then cache_get now cacheKey
  else
    (* try { ... return cachedId } catch (dbError) { log } *)
    fromDb ← try_catch
               (emit DbRead ;;
                cachedId ← on_db (getFromDatabase id source);
                match cachedId with
                | Some n =>
                    if n =? 0 then ret None
                    else cache_set now cacheKey (Int n) ;; ret (Some (Int n))
                | None => ret None
                end)
               (fun _ => ret None);
    match fromDb with
    | Some n => ret (Some n)
    | None =>
        fromKitsu ← (if String.eqb source "kitsu"
                     then fetchAnilistIdFromKitsu env else ret None);
        anilistId ← (if negb (onum_truthy fromKitsu)
                     then fetchAnilistIdFromArm env else ret fromKitsu);
        match anilistId with
        | Some (Int n) =>
            if n =? 0 then ret anilistId
            else
              cache_set now cacheKey (Int n) ;;
              try_catch
                (emit (DbWrite n id source) ;;
                 on_db (cacheToDatabase n (Some id) source))
                (fun _ => ret tt) ;;
              ret anilistId
        | _ => ret anilistId
        end
    end.

(** What each tier would answer. *)
Definition db_tier (w : world) (id source : string) : option Z :=
  match Sqlite.column_of source with
  | Some c =>
      match round53 <$> head (Sqlite.holders (ids w) c (Sqlite.affinity c (Sqlite.BText id))) with
      | Some n => if n =? 0 then None else Some n
      | None => None
      end
  | None => None
  end.

Definition kitsu_tier (env : remote) : option num :=
  match kitsu_reply env with
  | AxiosOk (Some ms) =>
      match find_mapping ms with
      | Resolved (Some a) => parse_id (externalId a)
      | _ => None
      end
  | _ => None
  end.

Definition arm_tier (env : remote) : option num :=
  match arm_reply env with
  | AxiosOk (Some n) => if n =? 0 then None else Some (parseInt (number_text n))
  | _ => None
  end.

(** The remote tier: the Kitsu mapping service first when the scheme is
    kitsu, the ARM service when that gave nothing or the scheme is another. *)
Definition asks_kitsu (source : string) : bool := String.eqb source "kitsu".

Definition asks_arm (env : remote) (source : string) : bool :=
  negb (asks_kitsu source && onum_truthy (kitsu_tier env)).

Definition remote_tier (env : remote) (source : string) : option num :=
  if asks_arm env source then arm_tier env else kitsu_tier env.

Definition remote_requests (env : remote) (source : string)
    : list effect :=
  ((if asks_kitsu source then [KitsuRequest] else [])
   ++ (if asks_arm env source then [ArmRequest] else []))%list.

(** The world a miss of both the cache and the table leaves behind. *)
Definition after_remote (now : Z) (env : remote) (id source : string) (w : world)
    : world :=
  let asked := (log w ++ DbRead :: remote_requests env source)%list in
  match remote_tier env source with
  | Some (Int n) =>
      if n =? 0 then {| anilistIdCache := anilistIdCache w; ids := ids w; log := asked |}
      else
        {| anilistIdCache := Lru.set (anilistIdCache w) now (source ++ ":" ++ id) (Int n);
           ids := (Sqlite.cacheToDatabase n (Some id) source (ids w)).2;
           log := (asked ++ [CacheSet (source ++ ":" ++ id) (Int n);
                             DbWrite n id source])%list |}
  | _ => {| anilistIdCache := anilistIdCache w; ids := ids w; log := asked |}
  end.

(** The effects of one call: what it added to the log. *)
Definition effects_of (w w' : world) : list effect :=
  drop (length (log w)) (log w').

(** The specification in its words: a non-empty result is returned after it was
    written to the cache and to the durable store. *)
Definition returns_after_write_back (now : Z) (env : remote)
    (id source : string) (w : world) : Prop :=
  forall result w',
    getAnilistId now env id source w = (Resolved result, w') ->
    onum_truthy result = true ->
    exists n, result = Some (Int n)
              /\ CacheSet (source ++ ":" ++ id) (Int n) ∈ effects_of w w'
              /\ DbWrite n id source ∈ effects_of w w'.

(** A fresh process, and a Kitsu service that maps every id to AniList 42. *)
Definition fresh_world : world :=
  {| anilistIdCache := Lru.create 10000%N (24 * 60 * 60 * 1000);
     ids := ∅;
     log := [] |}.

Definition kitsu_says_42 : remote :=
  {| kitsu_reply :=
       AxiosOk
         (Some [Some {| externalSite := "myanimelist/anime";
                        externalId := Some "5" |};
                Some {| externalSite := "anilist/anime";
                        externalId := Some "42" |}]);
     arm_reply := AxiosError (Error "timeout of 5000ms exceeded") |}.

(** Kitsu ids 1 and 2 resolved in turn, both to AniList 42. *)
Definition after_two_lookups : world :=
  (getAnilistId 1 kitsu_says_42 "2" "kitsu"
     (getAnilistId 0 kitsu_says_42 "1" "kitsu" fresh_world).2).2.

End IdMapping.

(** ** The subtitles handler ([defineSubtitlesHandler], addon.js)

    Stremio asks for subtitles when playback starts; the handler uses the
    request as a watched-episode signal. *)

Module Addon.
Import Js Async.

Record config := {
  token : option string;
  enableSearch : bool;
  preAddedOnly : bool
}.

Record args := {
  id : string;
  type : string;
  cfg : config
}.

Record response := { subtitles : list string }.

(** What the handler calls.  Each may do anything to the world and may
    throw; [getNameFromCinemetaId] lives in [lib/cinemeta], outside the
    modelled files. *)
Record services (W : Type) := {
  getAnilistId : string -> string -> M W (option num);
  getNameFromCinemetaId : string -> string -> M W (option string);
  handleWatchedEpisode :
    option string -> option num -> num -> bool -> string -> M W unit
}.

Arguments getAnilistId {W} _ _ _.
Arguments getNameFromCinemetaId {W} _ _ _.
Arguments handleWatchedEpisode {W} _ _ _ _ _ _.

(** [args.type === "movie" ? 1 : parseInt(currEp || "1")] *)
Definition episode_of (type : string) (currEp : option string) : num :=
  if String.eqb type "movie" then Int 1 else parseInt (str_or currEp "1").

(** The three names a handler branch resolves: [anilistId], [animeName],
    [episode]. *)
Definition resolve {W} (svc : services W) (a : args)
    : M W (option num * option string * num) :=
  let parts := split ":" (id a) in
  if startsWith (id a) "kitsu:" then
    (* const [_, id, currEp] = args.id.split(":") *)
    anilistId ← getAnilistId svc (default "" (parts !! 1%nat)) "kitsu";
    ret (anilistId, None, episode_of (type a) (parts !! 2%nat))
  else if startsWith (id a) "tt" then
    (* let [id, seasonName, currEp] = args.id.split(":") *)
    let imdbId := default "" (parts !! 0%nat) in
    anilistId ← getAnilistId svc imdbId "imdb";
    let episode := episode_of (type a) (parts !! 2%nat) in
    if negb (onum_truthy anilistId) && enableSearch (cfg a)
       && String.eqb (type a) "series" then
      let season := parseInt (str_or (parts !! 1%nat) "1") in
      name ← getNameFromCinemetaId svc imdbId (type a);
      let animeName :=
        if str_truthy name && num_gt season (Int 1)
        then Some (str_or name "" ++ " season " ++ string_of_num season)
        else name in
      ret (anilistId, animeName, episode)
    else if negb (onum_truthy anilistId) && String.eqb (type a) "movie" then
      name ← getNameFromCinemetaId svc imdbId (type a);
      ret (anilistId, name, episode)
    else ret (anilistId, None, episode)
  else if startsWith (id a) "anilist:" then
    (* const [_, id, currEp] = args.id.split(":") *)
    ret (Some (parseInt (default "undefined" (parts !! 1%nat))), None,
         episode_of (type a) (parts !! 2%nat))
  else ret (None, None, Int 0).

Definition subtitlesHandler {W} (svc : services W) (a : args) : M W response :=
  match token (cfg a) with
  | Some tok =>
      if String.eqb tok "" then throw (Error "Anilist token not configured.")
      else
        try_catch
          ('(anilistId, animeName, episode) ← resolve svc a;
           if (onum_truthy anilistId || str_truthy animeName)
              && num_gt episode (Int 0)
           then handleWatchedEpisode svc animeName anilistId episode
                  (preAddedOnly (cfg a)) tok
           else ret tt)
          (fun _ => ret tt) ;;
        (* Always return empty subtitles as this is just a trigger *)
        ret {| subtitles := [] |}
  | None => throw (Error "Anilist token not configured.")
  end.

(** The specification in its words: the handler answers every request with an empty
    subtitles list. *)
Definition always_acknowledges {W} (svc : services W) (a : args) (w : W)
    : Prop :=
  exists w', subtitlesHandler svc a w = (Resolved {| subtitles := [] |}, w').

(** Services that find nothing and do nothing. *)
Definition idle_services : services unit :=
  {| getAnilistId := fun _ _ => Async.ret None;
     getNameFromCinemetaId := fun _ _ => Async.ret None;
     handleWatchedEpisode := fun _ _ _ _ _ => Async.ret tt |}.

(** Services whose every call fails. *)
Definition failing_services : services unit :=
  {| getAnilistId := fun _ _ => Async.throw (Error "connect ECONNREFUSED");
     getNameFromCinemetaId := fun _ _ => Async.throw (Error "connect ECONNREFUSED");
     handleWatchedEpisode :=
       fun _ _ _ _ _ => Async.throw (Error "GraphQL request failed") |}.

Definition request_without_token : args :=
  {| id := "kitsu:7442:3"; type := "series";
     cfg := {| token := None; enableSearch := false;
                     preAddedOnly := false |} |}.

End Addon.

(** ** The handler wired to the modelled services

    One process: the id-mapping world, the global [newStatus], and the
    mutations sent to the list service.  The environment supplies the clock,
    the lookup services and the list entry AniList reports for a request. *)

Module Process.
Import Js Async.

Record world := {
  mapping : IdMapping.world;
  newStatus : option string;
  saved : list (option num * Z * string)   (* mediaId, progress, status; oldest first *)
}.

Definition on_mapping {A} (m : M IdMapping.world A) : M world A :=
  fun w =>
    let '(r, mw) := m (mapping w) in
    (r, {| mapping := mw; newStatus := newStatus w; saved := saved w |}).

Definition on_newStatus {A} (m : M (option string) A) : M world A :=
  fun w =>
    let '(r, g) := m (newStatus w) in
    (r, {| mapping := mapping w; newStatus := g; saved := saved w |}).

Definition save (anilistId : option num) (d : Progress.decision) : M world unit :=
  match d with
  | Progress.NoWrite => ret tt
  | Progress.Write progress status =>
      modify (fun w => {| mapping := mapping w; newStatus := newStatus w;
                          saved := (saved w ++ [(anilistId, progress, status)])%list |})
  end.

Definition services (now : Z) (env : IdMapping.remote)
    (entry_for : option num -> option string -> Progress.fetched)
    : Addon.services world :=
  {| Addon.getAnilistId := fun id source =>
       on_mapping (IdMapping.getAnilistId now env id source);
     Addon.getNameFromCinemetaId := fun _ _ => ret None;
     Addon.handleWatchedEpisode := fun animeName anilistId episode preAddedOnly _ =>
       match episode with
       | Int currentEpisode =>
           d ← on_newStatus (Progress.handleWatchedEpisode
                               (entry_for anilistId animeName) currentEpisode preAddedOnly);
           save anilistId d
       | NaN => ret tt   (* the handler passes on only an episode above 0 *)
       end |}.

Definition start : world :=
  {| mapping := IdMapping.fresh_world; newStatus := None; saved := [] |}.

Definition watch_event (id : string) : Addon.args :=
  {| Addon.id := id; Addon.type := "series";
     Addon.cfg := {| Addon.token := Some "eyJ0eXAi"; Addon.enableSearch := false;
                     Addon.preAddedOnly := false |} |}.

Definition episode_5_of_12 (status : string) : Progress.fetched :=
  Progress.Entry {| Progress.currentProgress := 5;
                    Progress.currentStatus := Some status;
                    Progress.totalEpisodes := Some 12;
                    Progress.isMovie := false |}.

End Process.

(** ** The list entry of a work and the watched-episode flow
       ([getAnilistEntryByName], [getAnilistMediaListEntry],
       [updateAnilistProgress], [handleWatchedEpisode], anilist.js)

    [Progress] holds the decision [updateAnilistProgress] takes; here are
    the requests around it, in the order the code issues them. *)

Module Watch.
Import Js Async.

(** [Media.mediaListEntry] of the entry query. *)
Record listEntry := {
  status : option string;
  progress : option Z
}.

(** [data?.data?.Media] of the entry query. *)
Record media := {
  episodes : option Z;
  format : option string;
  mediaListEntry : option listEntry
}.

(** What the list service would answer. *)
Record env := {
  (* the cached search by name: data?.data?.Page?.media?.[0], by its id *)
  search_reply : string -> settled (option Z);
  (* the entry query, by the media id sent (none when it is undefined) *)
  entry_reply : option num -> settled (option media);
  (* the SaveMediaListEntry mutation *)
  save_reply : option num -> Z -> string -> settled unit
}.

Inductive effect :=
| Search (name : string)
| EntryQuery (mediaId : option num)
| CacheClear                                   (* cache.clear() *)
| Save (mediaId : option num) (progress : Z) (status : string).

Record world := {
  newStatus : option string;    (* the undeclared global of updateAnilistProgress *)
  trace : list effect           (* oldest first *)
}.

Definition emit (e : effect) : M world unit :=
  modify (fun w => {| newStatus := newStatus w; trace := (trace w ++ [e])%list |}).

Definition on_newStatus {A} (m : M (option string) A) : M world A :=
  fun w =>
    let '(r, g) := m (newStatus w) in
    (r, {| newStatus := g; trace := trace w |}).

(** An awaited promise. *)
Definition await {W A} (r : settled A) : M W A := fun w => (r, w).

(** A search that fails is logged and answered with [null]. *)
Definition getAnilistEntryByName (e : env) (name : string) : M world (option Z) :=
  emit (Search name) ;;
  try_catch (await (search_reply e name)) (fun _ => ret None).

(** The request is not cached.  An error whose message mentions
    [Not Found] is answered with [{ notFound: true }], any other with
    [null]. *)
Definition getAnilistMediaListEntry (e : env) (mediaId : option num)
    : M world Progress.fetched :=
  emit (EntryQuery mediaId) ;;
  try_catch
    (media ← await (entry_reply e mediaId);
     match media with
     | Some m =>
         ret (Progress.Entry
                {| Progress.currentProgress := default 0 (mediaListEntry m ≫= progress);
                   Progress.currentStatus := mediaListEntry m ≫= status;
                   Progress.totalEpisodes := episodes m;
                   Progress.isMovie := from_option (String.eqb "MOVIE") false (format m) |})
     | None => ret Progress.Unavailable
     end)
    (fun error =>
       if negb (String.eqb (message error) "") && includes (message error) "Not Found"
       then ret Progress.NotFound
       else ret Progress.Unavailable).

(** The decision of [Progress.updateAnilistProgress], then what follows the
    assignment of [variables]: [cache.clear()], the mutation, and its error
    thrown on. *)
Definition updateAnilistProgress (e : env) (mediaId : option num) (targetEpisode : Z)
    (currentEntryData : Progress.fetched) : M world unit :=
  d ← on_newStatus (Progress.updateAnilistProgress targetEpisode currentEntryData);
  match d with
  | Progress.NoWrite => ret tt
  | Progress.Write newProgress status =>
      emit CacheClear ;;
      emit (Save mediaId newProgress status) ;;
      await (save_reply e mediaId newProgress status)
  end.

Definition handleWatchedEpisode (e : env) (animeName : option string)
    (anilistId : option num) (currentEpisode : Z) (preAddedOnly : bool)
    : M world unit :=
  targetAnilistId ←
    (if negb (onum_truthy anilistId) && str_truthy animeName then
       searchResult ← getAnilistEntryByName e (default "" animeName);
       match searchResult with
       | Some id => ret (Some (Int id))
       | None => ret anilistId
       end
     else ret anilistId);
  entryData ← getAnilistMediaListEntry e targetAnilistId;
  let isOnList :=
    match entryData with
    | Progress.Entry d =>
        match Progress.currentStatus d with Some _ => true | None => false end
    | _ => false
    end in
  if preAddedOnly && negb isOnList then ret tt
  else updateAnilistProgress e targetAnilistId currentEpisode entryData.

(** The effects of one call: what it added to the trace. *)
Definition effects_of (w w' : world) : list effect :=
  drop (length (trace w)) (trace w').

(** The media id the entry query and the mutation carry. *)
Definition target_of (e : env) (animeName : option string) (anilistId : option num)
    : option num :=
  if negb (onum_truthy anilistId) && str_truthy animeName then
    match search_reply e (default "" animeName) with
    | Resolved (Some id) => Some (Int id)
    | _ => anilistId
    end
  else anilistId.

(** What [getAnilistMediaListEntry] makes of the answer to its request. *)
Definition answer_of (reply : settled (option media)) : Progress.fetched :=
  match reply with
  | Resolved (Some m) =>
      Progress.Entry
        {| Progress.currentProgress := default 0 (mediaListEntry m ≫= progress);
           Progress.currentStatus := mediaListEntry m ≫= status;
           Progress.totalEpisodes := episodes m;
           Progress.isMovie := from_option (String.eqb "MOVIE") false (format m) |}
  | Resolved None => Progress.Unavailable
  | Rejected error =>
      if negb (String.eqb (message error) "") && includes (message error) "Not Found"
      then Progress.NotFound
      else Progress.Unavailable
  end.

(** Watch events handled one after the other: each is a name, an id, an
    episode and the [preAddedOnly] option. *)
Fixpoint run (e : env) (calls : list (option string * option num * Z * bool))
    (w : world) : list (settled unit) * world :=
  match calls with
  | [] => ([], w)
  | (animeName, anilistId, currentEpisode, preAddedOnly) :: rest =>
      let '(r, w1) := handleWatchedEpisode e animeName anilistId currentEpisode
                        preAddedOnly w in
      let '(rs, w2) := run e rest w1 in
      (r :: rs, w2)
  end.

(** An effect other than a mutation that sets the status [CURRENT]. *)
Definition off_current (ef : effect) : Prop :=
  forall t p, ef <> Save t p "CURRENT".

(** A list service that knows one work, AniList 21 with 12 episodes, on the
    paused list at episode 5. *)
Definition paused_at_5 : env :=
  {| search_reply := fun _ => Resolved None;
     entry_reply := fun _ =>
       Resolved (Some {| episodes := Some 12; format := Some "TV";
                         mediaListEntry := Some {| status := Some "PAUSED";
                                                   progress := Some 5 |} |});
     save_reply := fun _ _ _ => Resolved tt |}.

(** The same service with a token it does not accept for writing. *)
Definition read_only : env :=
  {| search_reply := search_reply paused_at_5;
     entry_reply := entry_reply paused_at_5;
     save_reply := fun _ _ _ =>
       Rejected (Error "GraphQL API returned errors: Invalid token") |}.

(** A service whose search finds nothing and whose entry query, sent
    without a media id, answers with some work. *)
Definition finds_nothing : env :=
  {| search_reply := fun _ => Resolved None;
     entry_reply := entry_reply paused_at_5;
     save_reply := fun _ _ _ => Resolved tt |}.

Definition fresh_world : world := {| newStatus := None; trace := [] |}.

End Watch.

(** ** The reverse direction of the mapping table ([getExternalIdFromDb],
       [cacheExternalIdToDb], sqlite.js) *)

Module SqliteReverse.
Import Js Async Sqlite.

(** An alternate-scheme id as JavaScript holds it: a number (the ids the
    ARM service reports, what a row gives for a stored number) or text.
    [ENum] is a whole number, [EReal] any other number. *)
Inductive extval :=
| ENum (n : Z)
| EReal (x : real)
| EText (s : string).

Definition ext_truthy (v : extval) : bool :=
  match v with
  | ENum n => negb (n =? 0)
  | EReal _ => true
  | EText s => negb (String.eqb s "")
  end.

(** [String(v)], also what a template literal prints. *)
Definition ext_text (v : extval) : string :=
  match v with
  | ENum n => number_text n
  | EReal x => real_text x
  | EText s => s
  end.

(** The parameter the package binds for a value. *)
Definition binding (v : extval) : bound :=
  match v with
  | ENum n =>
      if (- 2 ^ 31 <=? n) && (n <? 2 ^ 31) then BInteger n else BFloat (inl n)
  | EReal x => BFloat (inr x)
  | EText s => BText s
  end.

(** The value a row hands over for what a cell stores: a number as a
    double, text as a string. *)
Definition stored_value (v : value) : extval :=
  match v with
  | VInt z => ENum (round53 z)
  | VReal x => EReal x
  | VText s => EText s
  end.

(** [SELECT c FROM ids WHERE anilist = ?]: [row ? row[targetSource] : null]. *)
Definition getExternalIdFromDb (anilistId : Z) (targetSource : string)
    : M table (option extval) :=
  match column_of targetSource with
  | None => throw (Error "Invalid target source column")
  | Some c => gets (fun db => stored_value <$> (db !! anilistId ≫= col c))
  end.

Definition cacheExternalIdToDb (anilistId : Z) (externalId : extval)
    (targetSource : string) : M table unit :=
  match column_of targetSource with
  | None => throw (Error "Invalid target source column")
  | Some c =>
      fun db => settle db (run_upsert db c anilistId (Some (binding externalId)))
  end.

End SqliteReverse.

(** ** Reverse id resolution ([getExternalId], id-mapping.js) *)

Module ExternalId.
Import Js Async Sqlite SqliteReverse.

(** [response.data] of the ARM request, which asks for
    [include=thetvdb,themoviedb]. *)
Record armIds := {
  arm_thetvdb : option Z;
  arm_themoviedb : option Z
}.

(** [response.data[targetSource]]: the answer holds the two schemes the
    request asks for and no other. *)
Definition field (data : armIds) (targetSource : string) : option Z :=
  if String.eqb targetSource "thetvdb" then arm_thetvdb data
  else if String.eqb targetSource "themoviedb" then arm_themoviedb data
  else None.

Inductive effect :=
| DbRead
| ArmRequest
| CacheSet (key : string) (value : extval)
| DbWrite (anilistId : Z) (value : extval) (source : string).

Record world := {
  externalIdCache : Lru.t extval;   (* new LRU({ max: 5000, ttl: one week }) *)
  ids : table;
  log : list effect                 (* oldest first *)
}.

Definition emit (e : effect) : M world unit :=
  modify (fun w => {| externalIdCache := externalIdCache w; ids := ids w;
                      log := (log w ++ [e])%list |}).

Definition on_db {A} (m : M table A) : M world A :=
  fun w =>
    let '(r, db) := m (ids w) in
    (r, {| externalIdCache := externalIdCache w; ids := db; log := log w |}).

Definition cache_set (now : Z) (key : string) (v : extval) : M world unit :=
  modify (fun w => {| externalIdCache := Lru.set (externalIdCache w) now key v;
                      ids := ids w; log := log w |}) ;;
  emit (CacheSet key v).

Definition cache_get (now : Z) (key : string) : M world (option extval) :=
  fun w =>
    let '(v, c) := Lru.get (externalIdCache w) now key in
    (Resolved v, {| externalIdCache := c; ids := ids w; log := log w |}).

Definition cacheKey (anilistId : Z) (targetSource : string) : string :=
  "anilist:" ++ number_text anilistId ++ ":" ++ targetSource.

(** [if (id) { externalIdCache.set(key, id); await cacheExternalIdToDb(...) }] *)
Definition remember (now : Z) (anilistId : Z) (id : option Z) (source : string)
    : M world unit :=
  match id with
  | Some n =>
      if n =? 0 then ret tt
      else
        cache_set now (cacheKey anilistId source) (ENum n) ;;
        emit (DbWrite anilistId (ENum n) source) ;;
        on_db (cacheExternalIdToDb anilistId (ENum n) source)
  | None => ret tt
  end.

(** [arm] is what the ARM request comes to. *)
Definition getExternalId (now : Z) (arm : IdMapping.axios (option armIds))
    (anilistId : Z) (targetSource : string) : M world (option extval) :=
  let key := cacheKey anilistId targetSource in
  hit ← gets (fun w => Lru.has (externalIdCache w) now key);
  if hit : bool then cache_get now key
  else
    (* try { ... return cachedId } catch (dbError) { log } *)
    fromDb ← try_catch
               (emit DbRead ;;
                cachedId ← on_db (getExternalIdFromDb anilistId targetSource);
                match cachedId with
                | Some v =>
                    if ext_truthy v then cache_set now key v ;; ret (Some v)
                    else ret None
                | None => ret None
                end)
               (fun _ => ret None);
    match fromDb with
    | Some v => ret (Some v)
    | None =>
        try_catch
          (emit ArmRequest ;;
           match arm with
           | IdMapping.AxiosError e => throw e
           | IdMapping.AxiosOk None => ret None
           | IdMapping.AxiosOk (Some data) =>
               remember now anilistId (arm_thetvdb data) "thetvdb" ;;
               remember now anilistId (arm_themoviedb data) "themoviedb" ;;
               ret (ENum <$> field data targetSource)
           end)
          (fun _ => ret None)
    end.

(** The effects of one call: what it added to the log. *)
Definition effects_of (w w' : world) : list effect :=
  drop (length (log w)) (log w').

(** What each tier would answer: the table a truthy value of the cell, the
    ARM service the field of its answer. *)
Definition db_tier (w : world) (anilistId : Z) (targetSource : string)
    : option extval :=
  match column_of targetSource with
  | Some c =>
      match stored_value <$> (ids w !! anilistId ≫= col c) with
      | Some v => if ext_truthy v then Some v else None
      | None => None
      end
  | None => None
  end.

(** [if (id)] *)
Definition reported (id : option Z) : bool :=
  match id with
  | Some n => negb (n =? 0)
  | None => false
  end.

(** An ARM answer whose write-back the table refuses: the canonical id is
    no rowid.  The rejected [cacheExternalIdToDb] lands in the [catch] of
    the ARM request, which answers [null]. *)
Definition refused (anilistId : Z) (data : armIds) : bool :=
  negb (rowid anilistId)
  && (reported (arm_thetvdb data) || reported (arm_themoviedb data)).

Definition arm_tier (anilistId : Z) (arm : IdMapping.axios (option armIds))
    (targetSource : string) : option extval :=
  match arm with
  | IdMapping.AxiosOk (Some data) =>
      if refused anilistId data then None else ENum <$> field data targetSource
  | _ => None
  end.

(** The write-backs of an ARM answer, up to the first the table refuses. *)
Definition written (anilistId : Z) (id : option Z) (source : string) : list effect :=
  match id with
  | Some n =>
      if n =? 0 then []
      else [CacheSet (cacheKey anilistId source) (ENum n);
            DbWrite anilistId (ENum n) source]
  | None => []
  end.

Definition arm_writes (anilistId : Z) (arm : IdMapping.axios (option armIds))
    : list effect :=
  match arm with
  | IdMapping.AxiosOk (Some data) =>
      if rowid anilistId || negb (reported (arm_thetvdb data))
      then (written anilistId (arm_thetvdb data) "thetvdb"
            ++ written anilistId (arm_themoviedb data) "themoviedb")%list
      else written anilistId (arm_thetvdb data) "thetvdb"
  | _ => []
  end.

Definition fresh_world : world :=
  {| externalIdCache := Lru.create 5000%N (7 * 24 * 60 * 60 * 1000);
     ids := ∅;
     log := [] |}.

End ExternalId.

(** ** Logo lookup ([getLogo], anilist.js) *)

Module LogoFetch.
Import Js Async SqliteReverse.

(** The body of a fanart.tv answer. *)
Record fanartData := {
  hdtvlogo : option (list (option Logo.logo));
  tvlogo : option (list (option Logo.logo));
  hdmovielogo : option (list (option Logo.logo));
  movielogo : option (list (option Logo.logo))
}.

(** What the [fetch] of a fanart.tv URL comes to. *)
Inductive fanart :=
| FetchFailure (e : error)                    (* fetch rejects *)
| FanartReply (ok : bool) (status : Z) (body : settled fanartData).
                                              (* Rejected: res.json() rejects *)

Record env := {
  arm_reply : Z -> IdMapping.axios (option ExternalId.armIds);
  FANART_API_KEY : option string;             (* process.env.FANART_API_KEY *)
  fanart_reply : string -> fanart             (* by URL *)
}.

Record world := {
  logoCache : Lru.t (option string);          (* new LRU({ max: 500, ttl: one hour }) *)
  mapping : ExternalId.world;
  fetched : list string                       (* fanart.tv URLs fetched, oldest first *)
}.

Definition on_mapping {A} (m : M ExternalId.world A) : M world A :=
  fun w =>
    let '(r, mw) := m (mapping w) in
    (r, {| logoCache := logoCache w; mapping := mw; fetched := fetched w |}).

Definition cache_set (now : Z) (key : string) (v : option string) : M world unit :=
  modify (fun w => {| logoCache := Lru.set (logoCache w) now key v;
                      mapping := mapping w; fetched := fetched w |}).

(** [logoCache.get(key)]: a cached [null] and a missing entry both read as
    no logo. *)
Definition cache_get (now : Z) (key : string) : M world (option string) :=
  fun w =>
    let '(v, c) := Lru.get (logoCache w) now key in
    (Resolved (mjoin v), {| logoCache := c; mapping := mapping w; fetched := fetched w |}).

Definition fetch (e : env) (url : string) : M world fanart :=
  fun w =>
    (Resolved (fanart_reply e url),
     {| logoCache := logoCache w; mapping := mapping w;
        fetched := (fetched w ++ [url])%list |}).

Definition cacheKey (anilistId : Z) (format : option string) : string :=
  "logo_" ++ number_text anilistId ++ "_" ++ default "null" format.

Definition is_movie (format : option string) : bool :=
  from_option (String.eqb "MOVIE") false format.

Definition getLogo (now : Z) (e : env) (anilistId : Z) (format : option string)
    : M world (option string) :=
  let key := cacheKey anilistId format in
  hit ← gets (fun w => Lru.has (logoCache w) now key);
  if hit : bool then cache_get now key
  else
    let type := if is_movie format then "movies" else "tv" in
    let idSource := if is_movie format then "themoviedb" else "thetvdb" in
    (* a thrown lookup and a falsy id end alike: null is cached and returned *)
    externalApiId ← try_catch
                      (on_mapping (ExternalId.getExternalId now (arm_reply e anilistId)
                                     anilistId idSource))
                      (fun _ => ret None);
    match externalApiId with
    | Some v =>
        if negb (ext_truthy v) then cache_set now key None ;; ret None
        else if negb (str_truthy (FANART_API_KEY e)) then
          cache_set now key None ;; ret None
        else
          res ← fetch e ("https://webservice.fanart.tv/v3/" ++ type ++ "/" ++ ext_text v
                         ++ "?api_key=" ++ default "" (FANART_API_KEY e));
          match res with
          | FetchFailure _ => cache_set now key None ;; ret None
          | FanartReply false _ _ => cache_set now key None ;; ret None
          | FanartReply true _ (Rejected _) => cache_set now key None ;; ret None
          | FanartReply true _ (Resolved fanartData) =>
              let url :=
                if is_movie format
                then Logo.logoUrl (hdmovielogo fanartData) (movielogo fanartData)
                else Logo.logoUrl (hdtvlogo fanartData) (tvlogo fanartData) in
              cache_set now key url ;; ret url
          end
    | None => cache_set now key None ;; ret None
    end.

Definition fresh_world : world :=
  {| logoCache := Lru.create 500%N (60 * 60 * 1000);
     mapping := ExternalId.fresh_world;
     fetched := [] |}.

(** Services that know one series: thetvdb 81797, with one logo at a
    plain-http address. *)
Definition one_series : env :=
  {| arm_reply := fun _ =>
       IdMapping.AxiosOk (Some {| ExternalId.arm_thetvdb := Some 81797;
                                  ExternalId.arm_themoviedb := None |});
     FANART_API_KEY := Some "4c2f";
     fanart_reply := fun _ =>
       FanartReply true 200
         (Resolved {| hdtvlogo :=
                        Some [Some {| Logo.url := Some "http://assets.fanart.tv/81797.png";
                                      Logo.lang := Some "en" |}];
                      tvlogo := None; hdmovielogo := None; movielogo := None |}) |}.

(** No cached logo is a plain-http URL. *)
Definition https_only (w : world) : Prop :=
  forall entry u,
    entry ∈ Lru.items (logoCache w) -> Lru.e_val entry = Some u ->
    startsWith u "http:" = false.

End LogoFetch.

(** ** Catalog entries ([getReleaseInfo], [getReleasedDate],
       [mapMediaToMeta], [getViewer], [getCatalog], anilist.js) *)

Module Catalog.
Import Js Async.

(** A field of GraphQL type [Int]: [null] or an integer, zero falsy. *)
Definition int_truthy (n : option Z) : bool :=
  match n with
  | Some n => negb (n =? 0)
  | None => false
  end.

Record fuzzyDate := {
  year : option Z;
  month : option Z;
  day : option Z
}.

Record mediaTitle := {
  userPreferred : option string;
  romaji : option string
}.

Record mediaCover := {
  extraLarge : option string;
  large : option string;
  medium : option string
}.

(** The fields of [MediaFields], and the two [mapMediaToMeta] reads that
    the fragment does not ask for. *)
Module Media.
Record t := {
  id : option Z;
  format : option string;
  status : option string;
  title : option mediaTitle;
  genres : option (list string);
  coverImage : option mediaCover;
  bannerImage : option string;
  description : option string;
  startDate : option fuzzyDate;
  endDate : option fuzzyDate;
  averageScore : option Z;
  duration : option Z;
  countryOfOrigin : option string;
  siteUrl : option string
}.
End Media.

(** A Stremio meta object. *)
Module Meta.
Record t := {
  id : string;
  type : string;
  name : string;
  genres : list string;
  poster : option string;
  background : option string;
  description : option string;
  logo : option string;
  releaseInfo : string;
  imdbRating : option string;
  released : option string;
  runtime : option string;
  country : option string;
  website : option string
}.
End Meta.

(** [v === "..."] for a string-or-null [v]. *)
Definition equals (s : string) (v : option string) : bool :=
  from_option (String.eqb s) false v.

Definition getReleaseInfo (media : option Media.t) : string :=
  match media with
  | None => "Unknown Year"
  | Some media =>
      match Media.startDate media with
      | None => "Unknown Year"
      | Some start =>
          let startYear := year start in
          let endYear := Media.endDate media ≫= year in
          let known := int_truthy startYear in
          (* String(startYear) and String(endYear), read where they are numbers *)
          let s := string_of_Z (default 0 startYear) in
          let e := string_of_Z (default 0 endYear) in
          if equals "MOVIE" (Media.format media) then
            if known then s else "Unknown Year"
          else if equals "RELEASING" (Media.status media) then
            if known then s ++ " - Airing" else "Airing"
          else if equals "FINISHED" (Media.status media) then
            if negb known then "Finished"
            else if negb (int_truthy endYear) || bool_decide (startYear = endYear) then s
            else s ++ " - " ++ e
          else if equals "NOT_YET_RELEASED" (Media.status media) then
            if known then "Coming " ++ s else "Not Yet Released"
          else if equals "CANCELLED" (Media.status media) then
            if known then "Cancelled (" ++ s ++ ")" else "Cancelled"
          else if equals "HIATUS" (Media.status media) then
            "On Hiatus"
            ++ (if known then
                  " (" ++ s
                  ++ (if int_truthy endYear && negb (bool_decide (endYear = startYear))
                      then "-" ++ e else "")
                  ++ ")"
                else "")
          else if known then s else "Unknown Status"
      end
  end.

(** [String.prototype.padStart(2, "0")] *)
Definition padStart2 (s : string) : string :=
  match String.length s with
  | 0%nat => "00"
  | 1%nat => "0" ++ s
  | _ => s
  end.

(** [(n / 10).toFixed(1)] for an integer [n]: one decimal is exact. *)
Definition toFixed1 (n : Z) : string :=
  (if n <? 0 then "-" else "")
  ++ string_of_Z (Z.abs n / 10) ++ "." ++ string_of_Z (Z.abs n mod 10).

Section Host.
(** [new Date(year, monthIndex, day)] in the host's time zone: [None] when
    its time value is NaN, else [toISOString().split("T")[0]]. *)
Variable iso_date : Z -> Z -> Z -> option string.

(** What [getLogo] answers for an id and a format.  [LogoFetch.getLogo]
    is one lookup; the lookups of one catalog run concurrently under
    [Promise.all], so their answers are taken from the host here. *)
Variable getLogo : Z -> option string -> option string.

Definition getReleasedDate (media : option Media.t) : option string :=
  match media ≫= Media.startDate with
  | None => None
  | Some start =>
      if negb (int_truthy (year start)) then None
      else
        let y := default 0 (year start) in
        let monthText :=
          if int_truthy (month start)
          then Some (padStart2 (string_of_Z (default 0 (month start)))) else None in
        let dayText :=
          if int_truthy (day start)
          then Some (padStart2 (string_of_Z (default 0 (day start)))) else None in
        match monthText, dayText with
        | Some m, Some _ =>
            (* [month - 1] and [day] read the padded texts as numbers again *)
            match iso_date y (default 0 (month start) - 1) (default 0 (day start)) with
            | Some iso => Some iso
            | None => Some (string_of_Z y ++ "-" ++ m)
            end
        | Some m, None => Some (string_of_Z y ++ "-" ++ m)
        | None, _ => Some (string_of_Z y)
        end
  end.

Definition mapMediaToMeta (media : option Media.t) : option Meta.t :=
  match media with
  | None => None
  | Some m =>
      if negb (int_truthy (Media.id m)) then None
      else
        let id := string_of_Z (default 0 (Media.id m)) in
        Some {|
          Meta.id := "anilist:" ++ id;
          Meta.type := if equals "MOVIE" (Media.format m) then "movie" else "series";
          Meta.name :=
            str_or (Media.title m ≫= userPreferred)
              (str_or (Media.title m ≫= romaji) ("Anime " ++ id));
          Meta.genres := default [] (Media.genres m);
          Meta.poster :=
            let pick (a b : option string) := if str_truthy a then a else b in
            pick (Media.coverImage m ≫= extraLarge)
              (pick (Media.coverImage m ≫= large) (Media.coverImage m ≫= medium));
          Meta.background := Media.bannerImage m;
          Meta.description := Media.description m;
          Meta.logo := getLogo (default 0 (Media.id m)) (Media.format m);
          Meta.releaseInfo := getReleaseInfo media;
          Meta.imdbRating :=
            if int_truthy (Media.averageScore m)
            then Some (toFixed1 (default 0 (Media.averageScore m))) else None;
          Meta.released := getReleasedDate media;
          Meta.runtime :=
            if int_truthy (Media.duration m)
            then Some (string_of_Z (default 0 (Media.duration m)) ++ " min") else None;
          Meta.country := Media.countryOfOrigin m;
          Meta.website := Media.siteUrl m
        |}
  end.

(** One list of [MediaListCollection.lists]; [entries] by their [media]. *)
Record mediaList := {
  list_status : option string;
  entries : list (option Media.t)
}.

(** What the list service would answer to the two cached requests. *)
Record env := {
  (* data?.data?.Viewer, by its id *)
  viewer_reply : settled (option Z);
  (* data?.data?.MediaListCollection?.lists, by the variables sent *)
  lists_reply : json -> settled (option (list mediaList))
}.

(** The calls of [getCachedResult]. *)
Inductive asked :=
| AskViewer
| AskLists (variables : json).

Definition ask {A} (a : asked) (r : settled A) : M (list asked) A :=
  fun w => (r, (w ++ [a])%list).

Definition getViewer (e : env) : M (list asked) (option Z) :=
  ask AskViewer (viewer_reply e).

(** The [switch]: [variables.status] and [variables.sort] of a catalog. *)
Definition catalog_case (catalogType : string) : option (list string * json) :=
  if String.eqb catalogType "CURRENT" then
    Some (["CURRENT"; "REPEATING"], JArr [JStr "UPDATED_TIME_DESC"])
  else if String.eqb catalogType "WATCHING" then
    Some (["CURRENT"], JStr "UPDATED_TIME_DESC")
  else if String.eqb catalogType "PLANNING" then
    Some (["PLANNING"], JArr [JStr "POPULARITY_DESC"])
  else if String.eqb catalogType "PAUSED" then
    Some (["PAUSED"], JArr [JStr "UPDATED_TIME_DESC"])
  else if String.eqb catalogType "DROPPED" then
    Some (["DROPPED"], JStr "UPDATED_TIME_DESC")
  else if String.eqb catalogType "COMPLETED" then
    Some (["COMPLETED"], JArr [JStr "UPDATED_TIME_DESC"])
  else if String.eqb catalogType "REPEATING" then
    Some (["REPEATING"], JArr [JStr "UPDATED_TIME_DESC"])
  else None.

(** [variables] as the request carries it: [status] was set and deleted
    again, [sort] was set after it. *)
Definition list_variables (userId : Z) (sort : json) : json :=
  JObj [("userId", JNum userId); ("sort", sort)].

(** [lists.filter((list) => statusFilter.includes(list.status))
          .flatMap((list) => list.entries.map((entry) => entry.media))] *)
Definition entries_of (statusFilter : list string) (lists : list mediaList)
    : list (option Media.t) :=
  List.flat_map entries
    (List.filter (fun l => from_option (fun s => existsb (String.eqb s) statusFilter)
                             false (list_status l))
       lists).

Definition present (media : option Media.t) : bool :=
  match media with
  | Some _ => true
  | None => false
  end.

Definition getCatalog (e : env) (catalogType : string) : M (list asked) (list Meta.t) :=
  user ← getViewer e;
  match user with
  | None => ret []
  | Some userId =>
      match catalog_case catalogType with
      | None => ret []
      | Some (statusFilter, sort) =>
          (* try { ... } catch (error) { return [] } *)
          found ← try_catch
                    (lists ← ask (AskLists (list_variables userId sort))
                               (lists_reply e (list_variables userId sort));
                     ret (Some (from_option (entries_of statusFilter) [] lists)))
                    (fun _ => ret None);
          match found with
          | None => ret []
          | Some entries =>
              let metas := List.map mapMediaToMeta (List.filter present entries) in
              ret (omap (fun meta => meta) metas)
          end
      end
  end.

End Host.

(** The catalog types the [switch] of [getCatalog] has a case for. *)
Definition handled : list string :=
  ["CURRENT"; "WATCHING"; "PLANNING"; "PAUSED"; "DROPPED"; "COMPLETED"; "REPEATING"].

(** A media of which only the id and the format are known. *)
Definition bare (id : Z) (format : string) : Media.t :=
  {| Media.id := Some id; Media.format := Some format; Media.status := None;
     Media.title := None; Media.genres := None; Media.coverImage := None;
     Media.bannerImage := None; Media.description := None;
     Media.startDate := None; Media.endDate := None;
     Media.averageScore := None; Media.duration := None;
     Media.countryOfOrigin := None; Media.siteUrl := None |}.

(** User 7, with one series on the watching list and one movie on the
    paused list. *)
Definition two_lists : env :=
  {| viewer_reply := Resolved (Some 7);
     lists_reply := fun _ =>
       Resolved (Some [{| list_status := Some "CURRENT";
                          entries := [Some (bare 21 "TV")] |};
                       {| list_status := Some "PAUSED";
                          entries := [Some (bare 30 "MOVIE"); None] |}]) |}.

(** A host without a usable clock and without logos. *)
Definition no_date : Z -> Z -> Z -> option string := fun _ _ _ => None.

Definition no_logo : Z -> option string -> option string := fun _ _ => None.

End Catalog.

(** ** The catalog handler ([CATALOGS], [defineCatalogHandler], addon.js) *)

Module CatalogHandler.
Import Js Async.

(** The ids of [CATALOGS], which the manifest advertises. *)
Definition CATALOGS : list string :=
  ["CURRENT"; "REPEATING"; "PLANNING"; "COMPLETED"; "PAUSED"; "SEQUELS"; "ALLPOPULAR"].

Record response (A : Type) := { metas : list A }.

Arguments metas {A} _.

(** [getCatalog] is what the handler calls, with the catalog id and the
    token. *)
Definition catalogHandler {W A} (getCatalog : string -> string -> M W (list A))
    (a : Addon.args) : M W (response A) :=
  match Addon.token (Addon.cfg a) with
  | Some tok =>
      if String.eqb tok "" then throw (Error "Anilist token not configured.")
      else
        metas ← try_catch (getCatalog (Addon.id a) tok) (fun _ => ret []);
        ret {| metas := metas |}
  | None => throw (Error "Anilist token not configured.")
  end.

(** The handler on [Catalog.getCatalog]. *)
Definition handler (iso_date : Z -> Z -> Z -> option string)
    (getLogo : Z -> option string -> option string) (e : Catalog.env)
    (a : Addon.args) : M (list Catalog.asked) (response Catalog.Meta.t) :=
  catalogHandler (fun catalogId _ => Catalog.getCatalog iso_date getLogo e catalogId) a.

Definition request (catalogId : string) : Addon.args :=
  {| Addon.id := catalogId; Addon.type := "anime";
     Addon.cfg := {| Addon.token := Some "eyJ0eXAi"; Addon.enableSearch := false;
                     Addon.preAddedOnly := false |} |}.

End CatalogHandler.

(** ** Services for the subtitles handler *)

Module Subtitles.
Import Js Async.

(** Services that map every id to AniList 21 and accept every update. *)
Definition lenient : Addon.services unit :=
  {| Addon.getAnilistId := fun _ _ => ret (Some (Int 21));
     Addon.getNameFromCinemetaId := fun _ _ => ret (Some "Mushishi");
     Addon.handleWatchedEpisode := fun _ _ _ _ _ => ret tt |}.

(** The same, but an update without a target, or for an episode that is not
    above 0, fails. *)
Definition strict : Addon.services unit :=
  {| Addon.getAnilistId := Addon.getAnilistId lenient;
     Addon.getNameFromCinemetaId := Addon.getNameFromCinemetaId lenient;
     Addon.handleWatchedEpisode := fun animeName anilistId episode _ _ =>
       if (onum_truthy anilistId || str_truthy animeName) && num_gt episode (Int 0)
       then ret tt
       else throw (Error "update without a target or an episode") |}.

(** The same as [lenient], but the title service is down. *)
Definition untitled : Addon.services unit :=
  {| Addon.getAnilistId := Addon.getAnilistId lenient;
     Addon.getNameFromCinemetaId := fun _ _ => throw (Error "connect ECONNREFUSED");
     Addon.handleWatchedEpisode := Addon.handleWatchedEpisode lenient |}.

End Subtitles.

(** * Part II: properties *)

Import Js Async.

(** ** Cache keys *)

Section CacheKeyFacts.
Import CacheKey.

Lemma sort_permutation (l1 l2 : list string) :
  l1 ≡ₚ l2 -> sort l1 = sort l2.
Proof.
  intros Hperm. unfold sort.
  apply (StronglySorted_unique String.le).
  - apply StronglySorted_merge_sort; apply _.
  - apply StronglySorted_merge_sort; apply _.
  - by rewrite !merge_sort_Permutation.
Qed.

Lemma own_property_absent ser k fields :
  k ∉ fields.*1 -> own_property ser k fields = None.
Proof.
  induction fields as [|[k' x] rest IH]; simpl; [done|].
  intros Hnotin. apply not_elem_of_cons in Hnotin as [Hne Hrest].
  destruct (String.eqb_spec k' k); [congruence | auto].
Qed.

Lemma own_property_permutation ser k (f1 f2 : list (string * json)) :
  NoDup f1.*1 -> f1 ≡ₚ f2 -> own_property ser k f1 = own_property ser k f2.
Proof.
  intros Hnd Hperm. induction Hperm as [|[k1 x1] l l' Hp IH|[k1 x1] [k2 x2] l|l l' l'' Hp1 IH1 Hp2 IH2].
  - done.
  - simpl in *. apply NoDup_cons in Hnd as [_ Hnd].
    destruct (String.eqb k1 k); auto.
  - simpl in *. apply NoDup_cons in Hnd as [Hnotin _].
    destruct (String.eqb_spec k1 k), (String.eqb_spec k2 k); try done.
    subst. exfalso. apply Hnotin. left.
  - rewrite IH1 by done. apply IH2.
    by rewrite <- Hp1.
Qed.

End CacheKeyFacts.

(** C3: two parameter objects holding the same field-value pairs in
    different field orders get the same cache key, whatever the query. *)
Theorem getCacheKey_field_order (query : string) (f1 f2 : list (string * json)) :
  NoDup f1.*1 -> f1 ≡ₚ f2 ->
  CacheKey.getCacheKey query (JObj f1) = CacheKey.getCacheKey query (JObj f2).
Proof.
  intros Hnd Hperm. unfold CacheKey.getCacheKey. simpl.
  rewrite (sort_permutation f1.*1 f2.*1) by (by apply fmap_Permutation).
  set (ser := serialize (Some (sort f2.*1))).
  assert (Hmembers : forall ks : list string,
             omap (fun k => own_property ser k f1) ks
             = omap (fun k => own_property ser k f2) ks).
  { induction ks as [|k ks IH]; csimpl; [done|].
    by rewrite (own_property_permutation ser k f1 f2 Hnd Hperm), IH. }
  by rewrite Hmembers.
Qed.

Lemma getCacheKey_field_order_witness :
  CacheKey.getCacheKey "query { Viewer { id } }"
    (JObj [("userId", JNum 7); ("sort", JArr [JStr "UPDATED_TIME_DESC"])])
  = CacheKey.getCacheKey "query { Viewer { id } }"
    (JObj [("sort", JArr [JStr "UPDATED_TIME_DESC"]); ("userId", JNum 7)]).
Proof.
  apply getCacheKey_field_order.
  - apply (bool_decide_unpack _). vm_compute. exact I.
  - apply perm_swap.
Defined.

(** ** Logo selection *)

Section LogoFacts.
Import Logo.

Lemma to_https_not_http (s : string) : startsWith (to_https s) "http:" = false.
Proof.
  unfold startsWith, to_https.
  destruct (String.prefix "http:" s) eqn:Hprefix; [reflexivity | exact Hprefix].
Qed.

(** Whatever the lists hold, [null] elements included, a URL that comes
    back does not begin with [http:]. *)
Lemma logoUrl_never_http hd normal u :
  logoUrl hd normal = Some u -> startsWith u "http:" = false.
Proof.
  unfold logoUrl.
  destruct (default [] hd ++ default [] normal)%list as [|first rest]; [done|].
  destruct (List.find preferred (first :: rest)) as [[l|]|];
    [|destruct first as [l|]; [|done] ..];
    (destruct (str_truthy (url l)); [|done]);
    (destruct (url l) as [s|]; [|done]);
    intros [= <-]; apply to_https_not_http.
Qed.


End LogoFacts.



(** ** Progress reconciliation *)

Section ProgressFacts.
Import Progress.
#[local] Arguments String.eqb : simpl never.

Lemma update_no_write_backward newStatus targetEpisode d :
  (if isMovie d then 1 else targetEpisode) <= currentProgress d ->
  updateAnilistProgress targetEpisode (Entry d) newStatus = (Resolved NoWrite, newStatus).
Proof.
  intros Hle. unfold updateAnilistProgress.
  destruct (Z.leb_spec (if isMovie d then 1 else targetEpisode) (currentProgress d));
    [reflexivity | lia].
Qed.

Lemma update_no_write_beyond_total newStatus targetEpisode d total :
  isMovie d = false -> totalEpisodes d = Some total -> total < targetEpisode ->
  updateAnilistProgress targetEpisode (Entry d) newStatus = (Resolved NoWrite, newStatus).
Proof.
  intros Hseries Htotal Hlt. unfold updateAnilistProgress.
  rewrite Hseries, Htotal. simpl.
  destruct (targetEpisode <=? currentProgress d); [reflexivity|].
  destruct (Z.ltb_spec total targetEpisode); [reflexivity | lia].
Qed.

Lemma update_closed_form newStatus targetEpisode d :
  let newProgress := if isMovie d then 1 else targetEpisode in
  currentProgress d < newProgress ->
  negb (isMovie d) && from_option (fun total => total <? newProgress) false (totalEpisodes d)
    = false ->
  updateAnilistProgress targetEpisode (Entry d) newStatus
  = match Progress.sent_status d newProgress newStatus with
    | Some s => (Resolved (Write newProgress s), Some s)
    | None => (Rejected ReferenceError, None)
    end.
Proof.
  intros newProgress Hlt Htotal. unfold updateAnilistProgress, Progress.sent_status, Progress.completes.
  fold newProgress. rewrite Htotal.
  destruct (Z.leb_spec newProgress (currentProgress d)); [lia|].
  unfold mbind, mret, async_bind, async_ret, bind, ret, assign, read, modify.
  destruct (isMovie d || _); simpl.
  - by destruct (currentStatus d) as [s|]; simpl;
      [destruct (String.eqb_spec "COMPLETED" s)|].
  - destruct (currentStatus d) as [s|]; simpl.
    + destruct (String.eqb_spec s ""); simpl.
      { subst. simpl. by destruct newStatus. }
      destruct (String.eqb_spec s "CURRENT"); simpl.
      { subst. simpl. by destruct newStatus. }
      destruct (String.eqb_spec "COMPLETED" s); simpl; [|done].
      subst. done.
    + by destruct newStatus.
Qed.

Lemma update_cases newStatus targetEpisode d :
  let newProgress := if isMovie d then 1 else targetEpisode in
  updateAnilistProgress targetEpisode (Entry d) newStatus
  = if Progress.skips d newProgress then (Resolved NoWrite, newStatus)
    else match Progress.sent_status d newProgress newStatus with
         | Some s => (Resolved (Write newProgress s), Some s)
         | None => (Rejected ReferenceError, None)
         end.
Proof.
  intros newProgress. subst newProgress. unfold Progress.skips.
  destruct (Z.leb_spec (if isMovie d then 1 else targetEpisode) (currentProgress d))
    as [Hle|Hlt]; cbn [orb].
  { by apply update_no_write_backward. }
  destruct (negb (isMovie d) && _) eqn:Htotal.
  - unfold updateAnilistProgress. cbv zeta. rewrite Htotal.
    by destruct (_ <=? currentProgress d).
  - by apply update_closed_form.
Qed.

(** Where the code and the policy agree: a completing write, and a status
    other than current or completed. *)
Lemma sent_status_follows_policy d newProgress newStatus :
  Progress.completes d newProgress = true
  \/ (exists s, currentStatus d = Some s
                /\ s <> "" /\ s <> "CURRENT" /\ s <> "COMPLETED") ->
  Progress.sent_status d newProgress newStatus = status_policy d newProgress.
Proof.
  unfold Progress.sent_status, status_policy, Progress.completes.
  intros [-> | (s & -> & Hne & Hcur & Hcomp)]; [done|].
  destruct (isMovie d || _); [done|]. simpl.
  destruct (String.eqb_spec s ""), (String.eqb_spec s "CURRENT"),
    (String.eqb_spec "COMPLETED" s); simpl; congruence.
Qed.

(** The [CURRENT] assignment sits behind a test that cannot pass: a write
    for an entry whose status is completed sends completed. *)
Lemma demotion_unreachable newStatus targetEpisode d progress status g :
  currentStatus d = Some "COMPLETED" ->
  updateAnilistProgress targetEpisode (Entry d) newStatus
    = (Resolved (Write progress status), g) ->
  status = "COMPLETED".
Proof.
  intros Hcur. rewrite update_cases.
  destruct (Progress.skips d _); [done|].
  unfold Progress.sent_status. rewrite Hcur.
  destruct (Progress.completes d _); simpl; intros; by simplify_eq.
Qed.

(** An entry whose status is current (or that is on no list) and that is
    not completed by the write: the status sent is whatever an earlier call
    left in [newStatus], and the call throws when none has. *)
Lemma current_entry_sends_leftover newStatus targetEpisode d :
  let newProgress := if isMovie d then 1 else targetEpisode in
  currentStatus d = Some "CURRENT" \/ currentStatus d = None ->
  currentProgress d < newProgress ->
  Progress.completes d newProgress = false ->
  updateAnilistProgress targetEpisode (Entry d) newStatus
  = match newStatus with
    | Some s => (Resolved (Write newProgress s), Some s)
    | None => (Rejected ReferenceError, None)
    end.
Proof.
  intros newProgress Hcur Hlt Hcomp.
  rewrite update_closed_form; fold newProgress; [|done|].
  - unfold Progress.sent_status. rewrite Hcomp. by destruct Hcur as [-> | ->].
  - unfold Progress.completes in Hcomp. apply orb_false_iff in Hcomp as [-> Hcomp].
    destruct (totalEpisodes d) as [total|]; simpl in *; [|done].
    apply Z.ltb_ge. apply Z.leb_gt in Hcomp. lia.
Qed.

Lemma update_keeps_off_current newStatus targetEpisode entry r g :
  newStatus <> Some "CURRENT" ->
  updateAnilistProgress targetEpisode entry newStatus = (r, g) ->
  g <> Some "CURRENT" /\ forall progress, r <> Resolved (Write progress "CURRENT").
Proof.
  intros Hg.
  destruct entry as [| |d]; [by intros [= <- <-]..|].
  rewrite update_cases.
  destruct (Progress.skips d _); [by intros [= <- <-]|].
  unfold Progress.sent_status.
  destruct (Progress.completes d _).
  { intros [= <- <-]. split; [done | by intros progress [=]]. }
  assert (Hleft : match newStatus with
                  | Some s => (Resolved (Write (if isMovie d then 1 else targetEpisode) s), Some s)
                  | None => (Rejected ReferenceError, None)
                  end = (r, g) ->
                  g <> Some "CURRENT"
                  /\ forall progress, r <> Resolved (Write progress "CURRENT")).
  { destruct newStatus as [s|]; intros [= <- <-];
      (split; [done | intros progress [=]; congruence]). }
  destruct (currentStatus d) as [s|]; [|done].
  destruct (String.eqb_spec s ""); [done|].
  destruct (String.eqb_spec s "CURRENT"); [done|]. simpl.
  intros [= <- <-]. split; [congruence | intros progress [=]; congruence].
Qed.

(** From a fresh process on, no call ever sends the status [CURRENT]. *)
Lemma never_sends_current calls newStatus :
  newStatus <> Some "CURRENT" ->
  Forall (fun r => forall progress, r <> Resolved (Write progress "CURRENT"))
         (Progress.run_updates calls newStatus).1.
Proof.
  revert newStatus. induction calls as [|[targetEpisode entry] rest IH];
    intros newStatus Hg; simpl; [constructor|].
  destruct (updateAnilistProgress targetEpisode entry newStatus) as [r g] eqn:Hcall.
  destruct (update_keeps_off_current _ _ _ _ _ Hg Hcall) as [Hg' Hr].
  specialize (IH g Hg').
  destruct (Progress.run_updates rest g) as [rs g'']. simpl in *.
  by constructor.
Qed.

(** [handleWatchedEpisode] writes only what [updateAnilistProgress] writes. *)
Lemma handle_no_write newStatus currentEpisode preAddedOnly entry :
  updateAnilistProgress currentEpisode entry newStatus = (Resolved NoWrite, newStatus) ->
  handleWatchedEpisode entry currentEpisode preAddedOnly newStatus
  = (Resolved NoWrite, newStatus).
Proof.
  intros Hupdate. unfold handleWatchedEpisode.
  by destruct (preAddedOnly && _).
Qed.

(** Every write for a completed entry that stays below its total: the
    policy says [CURRENT], the code sends [COMPLETED]. *)
Lemma completed_entry_sends_completed newStatus targetEpisode d :
  let newProgress := if isMovie d then 1 else targetEpisode in
  currentStatus d = Some "COMPLETED" ->
  skips d newProgress = false ->
  completes d newProgress = false ->
  updateAnilistProgress targetEpisode (Entry d) newStatus
    = (Resolved (Write newProgress "COMPLETED"), Some "COMPLETED")
  /\ status_policy d newProgress = Some "CURRENT".
Proof.
  intros newProgress Hcur Hskips Hcomp. rewrite update_cases. fold newProgress.
  rewrite Hskips. unfold sent_status, status_policy. fold (completes d newProgress).
  by rewrite Hcomp, Hcur.
Qed.

(** The reconciliation examples of the specification, on an entry at
    episode 5 of 12. *)
Example reconciliation_examples :
  let entry status :=
    Entry {| currentProgress := 5; currentStatus := Some status;
             totalEpisodes := Some 12; isMovie := false |} in
  let film :=
    Entry {| currentProgress := 0; currentStatus := None;
             totalEpisodes := Some 1; isMovie := true |} in
  updateAnilistProgress 5 (entry "PAUSED") None = (Resolved NoWrite, None)
  /\ updateAnilistProgress 8 (entry "PAUSED") None
     = (Resolved (Write 8 "PAUSED"), Some "PAUSED")
  /\ updateAnilistProgress 12 (entry "PAUSED") None
     = (Resolved (Write 12 "COMPLETED"), Some "COMPLETED")
  /\ updateAnilistProgress 13 (entry "PAUSED") None = (Resolved NoWrite, None)
  /\ updateAnilistProgress 7 film None
     = (Resolved (Write 1 "COMPLETED"), Some "COMPLETED").
Proof. repeat split. Qed.

(** The same entry on the watching list: the first write of a process
    throws, and a later one sends the status of the write before it. *)
Example watching_entry_examples :
  let watching :=
    Entry {| currentProgress := 5; currentStatus := Some "CURRENT";
             totalEpisodes := Some 12; isMovie := false |} in
  updateAnilistProgress 8 watching None = (Rejected ReferenceError, None)
  /\ updateAnilistProgress 8 watching (Some "COMPLETED")
     = (Resolved (Write 8 "COMPLETED"), Some "COMPLETED").
Proof. split; reflexivity. Qed.

End ProgressFacts.

(** C4: no write is issued when the target progress (1 for a single-unit
    work, otherwise the observed episode) is at most the current progress,
    nor when the work is multi-unit with a known total and the target
    exceeds it.  Both hold of [updateAnilistProgress] and of the whole
    event, [handleWatchedEpisode], and leave [newStatus] as it was. *)
Theorem no_write_backward_or_beyond_total
    (newStatus : option string) (targetEpisode : Z) (preAddedOnly : bool)
    (d : Progress.entryData) :
  let newProgress := if Progress.isMovie d then 1 else targetEpisode in
  let no_write :=
    Progress.updateAnilistProgress targetEpisode (Progress.Entry d) newStatus
      = (Resolved Progress.NoWrite, newStatus)
    /\ Progress.handleWatchedEpisode (Progress.Entry d) targetEpisode preAddedOnly newStatus
      = (Resolved Progress.NoWrite, newStatus) in
  (newProgress <= Progress.currentProgress d -> no_write)
  /\ (forall total,
        Progress.isMovie d = false -> Progress.totalEpisodes d = Some total ->
        total < newProgress -> no_write).
Proof.
  intros newProgress no_write. subst no_write. split.
  - intros Hle.
    pose proof (update_no_write_backward newStatus targetEpisode d Hle) as Hupdate.
    split; [exact Hupdate | by apply handle_no_write].
  - intros total Hseries Htotal Hlt. subst newProgress. rewrite Hseries in Hlt.
    pose proof (update_no_write_beyond_total newStatus targetEpisode d total
                  Hseries Htotal Hlt) as Hupdate.
    split; [exact Hupdate | by apply handle_no_write].
Qed.

Lemma no_write_backward_or_beyond_total_witness :
  let d := {| Progress.currentProgress := 5; Progress.currentStatus := Some "CURRENT";
              Progress.totalEpisodes := Some 12; Progress.isMovie := false |} in
  Progress.updateAnilistProgress 5 (Progress.Entry d) None = (Resolved Progress.NoWrite, None)
  /\ Progress.updateAnilistProgress 13 (Progress.Entry d) None = (Resolved Progress.NoWrite, None).
Proof.
  intros d. split.
  - apply (no_write_backward_or_beyond_total None 5 false d). simpl. lia.
  - apply (proj2 (no_write_backward_or_beyond_total None 13 false d) 12);
      [reflexivity | reflexivity | simpl; lia].
Defined.

(** C2, at a completed entry rewatched below its total (progress 3 of 12,
    episode 5 observed): the policy demotes the entry to [CURRENT]; the code
    writes [COMPLETED]. *)
Theorem completed_entry_is_not_demoted :
  let d := {| Progress.currentProgress := 3; Progress.currentStatus := Some "COMPLETED";
              Progress.totalEpisodes := Some 12; Progress.isMovie := false |} in
  Progress.updateAnilistProgress 5 (Progress.Entry d) None
    = (Resolved (Progress.Write 5 "COMPLETED"), Some "COMPLETED")
  /\ Progress.status_policy d 5 = Some "CURRENT".
Proof. split; reflexivity. Qed.

(** ** The request gateway *)

Section GatewayFacts.
Import Gateway.
Variable Number : string -> num.


(** The listener asks for a retry exactly of a throttled dispatch that
    has been retried fewer than three times. *)
Lemma onFailed_retries x e rl n :
  attempt x = Rejected e ->
  is_Some (onFailed Number rl e {| retryCount := n |}).1
  <-> throttled x = true /\ (n < 3)%nat.
Proof.
  unfold onFailed. destruct x as [msg|r payload]; simpl.
  - intros [= <-]. simpl. split; [by intros [? [=]] | by intros [[=] _]].
  - destruct (ok r) eqn:Hok; simpl.
    + assert ((status r =? 429) = false) as ->.
      { unfold ok in Hok. apply Z.eqb_neq. lia. }
      destruct payload as [msg|b]; [|destruct (errors b)]; intros [= <-]; simpl;
        (split; [by intros [? [=]] | by intros [[=] _]]).
    + intros [= <-]. simpl. destruct (status r =? 429); simpl.
      * destruct (Nat.ltb_spec n 3); simpl.
        -- split; [done | eauto].
        -- split; [by intros [? [=]] | lia].
      * split; [by intros [? [=]] | by intros [[=] _]].
Qed.



(** A first dispatch that succeeds, or fails without being throttled, is
    the only one. *)
Lemma unthrottled_outcome_is_final xs fuel rl :
  throttled (xs 0%nat) = false ->
  exists rl', makeGraphQLRequest Number (S fuel) xs rl = Some (attempt (xs 0%nat), 0%nat, rl').
Proof.
  intros Hthr. unfold makeGraphQLRequest. simpl.
  destruct (attempt (xs 0%nat)) as [b|e] eqn:Hattempt; [eauto|].
  pose proof (onFailed_retries (xs 0%nat) e rl 0 Hattempt) as Hretry.
  destruct (onFailed Number rl e {| retryCount := 0 |}) as [[delay|] rl1];
    simpl in Hretry; [|eauto].
  destruct (proj1 Hretry (mk_is_Some _ _ eq_refl)) as [Hthr' _]. congruence.
Qed.

End GatewayFacts.



(** Four throttled dispatches in a row: three retries, then the failure. *)
Example always_throttled_gives_up :
  exists e,
    Gateway.makeGraphQLRequest (fun _ => Int 2) 10
      (fun _ => Gateway.Reply {| status := 429; statusText := "Too Many Requests";
                                 retry_after := Some "2"; body := "" |} (inl "no body"))
      None
    = Some (Rejected e, 3%nat, None).
Proof. eexists. vm_compute. reflexivity. Qed.

(** A server error is surfaced at once. *)
Example server_error_is_not_retried :
  exists e,
    Gateway.makeGraphQLRequest (fun _ => Int 2) 10
      (fun _ => Gateway.Reply {| status := 500; statusText := "Internal Server Error";
                                 retry_after := None; body := "" |} (inl "no body"))
      None
    = Some (Rejected e, 0%nat, None).
Proof. eexists. vm_compute. reflexivity. Qed.

(** ** The durable mapping table *)

Section SqliteFacts.
Import Sqlite.

Lemma col_set_col c v r : col c (set_col c v r) = v.
Proof. by destruct c. Qed.

Lemma col_set_col_ne c c' v r : c <> c' -> col c' (set_col c v r) = col c' r.
Proof. by destruct c, c'. Qed.

Lemma elem_of_holders (db : table) c v a :
  a ∈ holders db c v <-> exists r, db !! a = Some r /\ col c r = Some v.
Proof.
  unfold holders. rewrite list_elem_of_fmap. split.
  - intros ([a' r] & -> & Hin). apply list_elem_of_filter in Hin as [Hcol Hin].
    apply elem_of_map_to_list in Hin. eauto.
  - intros (r & Hrow & Hcol). exists (a, r). split; [done|].
    apply list_elem_of_filter. split; [done | by apply elem_of_map_to_list].
Qed.

(** Under the invariant the first row of a lookup is the only one. *)
Lemma holders_unique (db : table) c v a1 a2 :
  unique_columns db -> a1 ∈ holders db c v -> a2 ∈ holders db c v -> a1 = a2.
Proof.
  intros Huniq (r1 & Hr1 & Hc1)%elem_of_holders (r2 & Hr2 & Hc2)%elem_of_holders.
  by apply (Huniq c a1 a2 r1 r2 v).
Qed.

Lemma taken_elsewhere_true (db : table) c v a :
  taken_elsewhere db c (Some v) a = true
  <-> exists a' r, a' <> a /\ db !! a' = Some r /\ col c r = Some v.
Proof.
  unfold taken_elsewhere. rewrite existsb_exists. split.
  - intros (a' & Hin & Hne). apply list_elem_of_In, elem_of_holders in Hin as (r & ? & ?).
    exists a', r. split; [|done]. apply negb_true_iff, Z.eqb_neq in Hne. done.
  - intros (a' & r & Hne & Hrow & Hcol). exists a'. split.
    + apply list_elem_of_In, elem_of_holders. eauto.
    + by apply negb_true_iff, Z.eqb_neq.
Qed.

Lemma unique_failed_is_recognised c :
  includes (unique_failed c) "UNIQUE constraint failed" = true.
Proof. by destruct c. Qed.

Lemma settle_unique_failed (db : table) c :
  settle db (SqlError (unique_failed c)) = (Resolved tt, db).
Proof. unfold settle. by rewrite unique_failed_is_recognised. Qed.


(** An upsert either leaves the table alone or writes one row. *)
Lemma run_upsert_ok (db db' : table) c a b :
  run_upsert db c a b = SqlOk db' ->
  rowid a = true
  /\ (db' = db
      \/ (taken_elsewhere db c (affinity c <$> b) a = false
          /\ db' = <[a := set_col c (affinity c <$> b) (default empty_row (db !! a))]> db)).
Proof.
  unfold run_upsert. destruct (rowid a); [|done]. cbn [negb].
  intros Hrun. split; [done|]. revert Hrun.
  destruct (db !! a) as [r|] eqn:Hrow; simpl.
  - destruct (needs_update (col c r) _); [|intros [= <-]; by left].
    destruct (taken_elsewhere db c _ a) eqn:Htaken; [done|].
    intros [= <-]. by right.
  - destruct (taken_elsewhere db c _ a) eqn:Htaken; [done|].
    intros [= <-]. by right.
Qed.

(** A canonical id that is no rowid is refused, whatever the table holds. *)
Lemma run_upsert_refused (db : table) c a b :
  rowid a = false -> run_upsert db c a b = SqlError datatype_mismatch.
Proof. intros Ha. unfold run_upsert. by rewrite Ha. Qed.

(** The cases of an upsert of a value, by what the table holds. *)
Lemma run_upsert_cases (db : table) c a b :
  rowid a = true ->
  let v := affinity c b in
  (run_upsert db c a (Some b) = SqlOk db
   /\ exists r, db !! a = Some r /\ col c r = Some v)
  \/ (run_upsert db c a (Some b) = SqlError (unique_failed c)
      /\ taken_elsewhere db c (Some v) a = true)
  \/ (run_upsert db c a (Some b)
      = SqlOk (<[a := set_col c (Some v) (default empty_row (db !! a))]> db)
      /\ taken_elsewhere db c (Some v) a = false).
Proof.
  intros Ha v. unfold run_upsert. rewrite Ha. cbn [negb fmap option_fmap option_map].
  fold v. destruct (db !! a) as [r|] eqn:Hrow; cbn [default].
  - destruct (col c r) as [x|] eqn:Hcol; cbn [needs_update].
    + destruct (decide (x = v)) as [->|Hne].
      { rewrite bool_decide_eq_true_2 by done. left. eauto. }
      rewrite bool_decide_eq_false_2 by done. cbn [negb].
      destruct (taken_elsewhere db c (Some v) a); auto.
    + destruct (taken_elsewhere db c (Some v) a); auto.
  - destruct (taken_elsewhere db c (Some v) a); auto.
Qed.

Lemma upsert_keeps_unique (db : table) c a v :
  unique_columns db ->
  taken_elsewhere db c v a = false ->
  unique_columns (<[a := set_col c v (default empty_row (db !! a))]> db).
Proof.
  intros Huniq Hfree c' a1 a2 r1 r2 w Hr1 Hr2 Hc1 Hc2.
  destruct (decide (a1 = a2)) as [|Hne]; [done|]. exfalso.
  assert (Hnew : forall a' r', a' <> a -> db !! a' = Some r' ->
                   col c' r' = Some w ->
                   col c' (set_col c v (default empty_row (db !! a))) = Some w -> False).
  { intros a' r' Ha' Hrow' Hcol' Hcol.
    destruct (decide (c = c')) as [<-|Hc].
    - rewrite col_set_col in Hcol. subst v.
      assert (taken_elsewhere db c (Some w) a = true) as Htaken; [|congruence].
      apply taken_elsewhere_true. eauto.
    - rewrite col_set_col_ne in Hcol by done.
      destruct (db !! a) as [r|] eqn:Hrow; simpl in Hcol; [|by destruct c'].
      apply Ha'. by apply (Huniq c' a' a r' r w). }
  destruct (decide (a1 = a)) as [->|Ha1], (decide (a2 = a)) as [->|Ha2]; [done|..].
  - rewrite lookup_insert_eq in Hr1. rewrite lookup_insert_ne in Hr2 by done.
    simplify_eq. eauto.
  - rewrite lookup_insert_eq in Hr2. rewrite lookup_insert_ne in Hr1 by done.
    simplify_eq. eauto.
  - rewrite lookup_insert_ne in Hr1, Hr2 by done.
    apply Hne. by apply (Huniq c' a1 a2 r1 r2 w).
Qed.


(** Running the same upsert again changes nothing and settles alike. *)
Lemma run_upsert_idempotent (db : table) c a b :
  let '(r, db1) := settle db (run_upsert db c a b) in
  settle db1 (run_upsert db1 c a b) = (r, db1).
Proof.
  destruct (run_upsert db c a b) as [db1|msg] eqn:Hrun.
  - cbn [settle]. apply run_upsert_ok in Hrun as Hcases.
    destruct Hcases as [Ha [-> | [Hfree ->]]]; [by rewrite Hrun|].
    unfold run_upsert. rewrite Ha, lookup_insert_eq, col_set_col. cbn [negb].
    destruct b as [b|]; cbn [fmap option_fmap option_map needs_update taken_elsewhere].
    + by rewrite bool_decide_eq_true_2.
    + rewrite insert_insert_eq. cbn [settle]. do 2 f_equal. destruct c; reflexivity.
  - unfold settle. destruct (includes msg _) eqn:Hknown; by rewrite Hrun, Hknown.
Qed.

(** Upserting the same mapping again changes nothing and raises nothing. *)
Lemma cacheToDatabase_idempotent (db : table) anilistId externalId source :
  let '(r, db1) := cacheToDatabase anilistId externalId source db in
  cacheToDatabase anilistId externalId source db1 = (r, db1).
Proof.
  unfold cacheToDatabase. destruct (column_of source) as [c|]; [|done].
  apply run_upsert_idempotent.
Qed.

End SqliteFacts.



(** The texts [7], [007] and [7.0] name one value of a numeric column:
    after [7] is mapped to 42, upserts of the other two for 43 are refused
    by the UNIQUE index and resolve, and each of the three texts finds 42.
    A canonical id beyond the rowids is rejected. *)
Example one_value_in_three_texts :
  let db := (Sqlite.cacheToDatabase 42 (Some "7") "kitsu" ∅).2 in
  Sqlite.cacheToDatabase 43 (Some "007") "kitsu" db = (Resolved tt, db)
  /\ Sqlite.cacheToDatabase 43 (Some "7.0") "kitsu" db = (Resolved tt, db)
  /\ Sqlite.getFromDatabase "007" "kitsu" db = (Resolved (Some 42), db)
  /\ Sqlite.getFromDatabase "7e0" "kitsu" db = (Resolved (Some 42), db)
  /\ Sqlite.getFromDatabase "seven" "kitsu" db = (Resolved None, db)
  /\ Sqlite.cacheToDatabase (2 ^ 63) (Some "8") "kitsu" db
     = (Rejected (Error "SQLITE_MISMATCH: datatype mismatch"), db).
Proof. vm_compute. repeat split. Qed.

(** ** The cache *)

Section LruFacts.
Context {V : Type}.
Implicit Types (c : Lru.t V) (l : list (Lru.entry V)).

Lemma find_remove k l : Lru.find k (Lru.remove k l) = None.
Proof.
  induction l as [|e l IH]; [done|]. unfold Lru.find, Lru.remove in *. simpl.
  destruct (String.eqb (Lru.e_key e) k) eqn:Hk; simpl; [done|]. by rewrite Hk.
Qed.

(** After [delete] the key is gone, whatever the clock says. *)
Lemma has_delete c now k : Lru.has (Lru.delete c k) now k = false.
Proof. unfold Lru.has, Lru.delete. simpl. by rewrite find_remove. Qed.

(** [set] puts the entry in front, stamped with the clock. *)
Lemma items_set c now k v :
  exists l, Lru.items (Lru.set c now k v)
            = {| Lru.e_key := k; Lru.e_val := v; Lru.e_start := now |} :: l.
Proof. unfold Lru.set. destruct (Lru.find k (Lru.items c)); simpl; eauto. Qed.

Lemma ttl_set c now k v : Lru.ttl (Lru.set c now k v) = Lru.ttl c.
Proof. unfold Lru.set. by destruct (Lru.find k (Lru.items c)). Qed.

(** A fresh enough entry in front is reported by [has] and handed out by
    [get], which leaves it in front. *)
Lemma fresh_not_stale c now k v start :
  Lru.ttl c = 0 \/ now - start <= Lru.ttl c ->
  Lru.is_stale c now {| Lru.e_key := k; Lru.e_val := v; Lru.e_start := start |} = false.
Proof.
  unfold Lru.is_stale. simpl. intros [-> | Hle]; [done|].
  destruct (Z.ltb_spec (Lru.ttl c) (now - start)); [lia|].
  by rewrite andb_false_r.
Qed.

Lemma has_front c now k v start l :
  Lru.items c = {| Lru.e_key := k; Lru.e_val := v; Lru.e_start := start |} :: l ->
  Lru.ttl c = 0 \/ now - start <= Lru.ttl c ->
  Lru.has c now k = true.
Proof.
  intros Hitems Hfresh. unfold Lru.has, Lru.find. rewrite Hitems. simpl.
  rewrite String.eqb_refl. by rewrite fresh_not_stale.
Qed.

Lemma get_front c now k v start l :
  Lru.items c = {| Lru.e_key := k; Lru.e_val := v; Lru.e_start := start |} :: l ->
  Lru.ttl c = 0 \/ now - start <= Lru.ttl c ->
  exists c', Lru.get c now k = (Some v, c')
             /\ Lru.ttl c' = Lru.ttl c
             /\ exists l', Lru.items c'
                           = {| Lru.e_key := k; Lru.e_val := v; Lru.e_start := start |} :: l'.
Proof.
  intros Hitems Hfresh. unfold Lru.get, Lru.find. rewrite Hitems. simpl.
  rewrite String.eqb_refl. rewrite fresh_not_stale by done. eauto.
Qed.

(** *** Operations on one key leave the other keys alone *)

Ltac lru_simpl :=
  unfold Lru.with_items; cbn [Lru.items Lru.ttl Lru.max fst snd length].

Lemma find_cons_ne k e l :
  Lru.e_key e <> k -> Lru.find k (e :: l) = Lru.find k l.
Proof.
  intros Hne. unfold Lru.find. simpl.
  by destruct (String.eqb_spec (Lru.e_key e) k).
Qed.

Lemma find_remove_ne k k' l :
  k <> k' -> Lru.find k (Lru.remove k' l) = Lru.find k l.
Proof.
  intros Hne. induction l as [|e l IH]; [done|].
  unfold Lru.find, Lru.remove in *. simpl.
  destruct (String.eqb_spec (Lru.e_key e) k') as [Hk'|Hk']; simpl.
  - destruct (String.eqb_spec (Lru.e_key e) k); [congruence | done].
  - destruct (String.eqb (Lru.e_key e) k); [done | exact IH].
Qed.

Lemma find_key k l e : Lru.find k l = Some e -> Lru.e_key e = k.
Proof.
  unfold Lru.find. intros Hfind. apply find_some in Hfind as [_ Hk].
  by apply String.eqb_eq.
Qed.

Lemma length_remove k l : (length (Lru.remove k l) <= length l)%nat.
Proof.
  induction l as [|e l IH]; [done|]. unfold Lru.remove in *. simpl.
  destruct (negb _); simpl; lia.
Qed.

Lemma length_remove_found k l e :
  Lru.find k l = Some e -> (length (Lru.remove k l) < length l)%nat.
Proof.
  induction l as [|e' l IH]; [done|]. unfold Lru.find, Lru.remove in *. simpl.
  destruct (String.eqb (Lru.e_key e') k); simpl.
  - intros _. pose proof (length_remove k l) as Hle. unfold Lru.remove in Hle. lia.
  - intros Hfind. specialize (IH Hfind). lia.
Qed.





(** A live entry is handed out and stays. *)
Lemma get_live c now k e budget :
  Lru.find k (Lru.items c) = Some e ->
  Lru.is_stale c now e = false ->
  Lru.has c now k = true
  /\ (Lru.get c now k).1 = Some (Lru.e_val e)
  /\ Lru.keeps k budget c (Lru.get c now k).2.
Proof.
  intros Hfind Hlive. unfold Lru.has, Lru.get. rewrite Hfind, Hlive. lru_simpl.
  split; [done | split; [done|]]. unfold Lru.keeps. lru_simpl.
  pose proof (length_remove_found k _ _ Hfind) as Hlen.
  unfold Lru.find at 1. cbn [List.find]. rewrite (find_key _ _ _ Hfind), String.eqb_refl.
  repeat split; try done. intros [?|?]; [by left | right; lia].
Qed.

Lemma has_true c now k :
  Lru.has c now k = true ->
  exists e, Lru.find k (Lru.items c) = Some e /\ Lru.is_stale c now e = false.
Proof.
  unfold Lru.has. destruct (Lru.find k (Lru.items c)) as [e|]; [|done].
  intros Hlive%negb_true_iff. eauto.
Qed.

(** [set] then [has] and [get], at one clock reading. *)
Lemma has_get_set c now k v :
  0 <= Lru.ttl c ->
  Lru.has (Lru.set c now k v) now k = true
  /\ (Lru.get (Lru.set c now k v) now k).1 = Some v.
Proof.
  intros Httl. destruct (items_set c now k v) as [l Hitems].
  assert (Hfind : Lru.find k (Lru.items (Lru.set c now k v))
                  = Some {| Lru.e_key := k; Lru.e_val := v; Lru.e_start := now |}).
  { rewrite Hitems. unfold Lru.find. simpl. by rewrite String.eqb_refl. }
  assert (Hlive : Lru.is_stale (Lru.set c now k v) now
                    {| Lru.e_key := k; Lru.e_val := v; Lru.e_start := now |} = false).
  { apply fresh_not_stale. right. rewrite ttl_set. lia. }
  destruct (get_live _ now k _ 0 Hfind Hlive) as (? & ? & _). done.
Qed.

End LruFacts.

Section QueryCacheFacts.
Import QueryCache CacheKey.

(** Calls that find the promise in front of the cache are all handed that
    promise and invoke nothing. *)
Lemma burst_hits times query variables st p start l :
  Lru.items (cache st)
    = {| Lru.e_key := getCacheKey query variables; Lru.e_val := p;
         Lru.e_start := start |} :: l ->
  Forall (fun now => Lru.ttl (cache st) = 0 \/ now - start <= Lru.ttl (cache st)) times ->
  exists st',
    burst times query variables st = (replicate (length times) (Some p), st')
    /\ fetches st' = fetches st
    /\ promises st' = promises st
    /\ inflight st' = inflight st
    /\ exists l', Lru.items (cache st')
                  = {| Lru.e_key := getCacheKey query variables; Lru.e_val := p;
                       Lru.e_start := start |} :: l'.
Proof.
  revert st l. induction times as [|now times IH]; intros st l Hitems Hfresh.
  - exists st. simpl. eauto 10.
  - apply Forall_cons in Hfresh as [Hnow Hfresh].
    simpl. unfold getCachedResult.
    rewrite (has_front _ _ _ _ _ _ Hitems Hnow).
    destruct (get_front _ _ _ _ _ _ Hitems Hnow) as (c' & -> & Httl & l' & Hitems').
    set (st1 := {| cache := c'; promises := promises st;
                   inflight := inflight st; fetches := fetches st |}).
    destruct (IH st1 l') as (st' & Hrun & ? & ? & ? & ?);
      [done | by subst st1; simpl; rewrite Httl |].
    rewrite Hrun. exists st'. eauto 10.
Qed.

(** *** Single flight under interleaving *)







(** *** A settled entry *)





End QueryCacheFacts.




(** C8: when the fetch behind a key fails, the [catch] callback leaves no
    entry for the key (at any later clock reading) and the chained promise
    rejected with the error; the next call for the key invokes [fetchFn]
    again and is handed a new pending promise. *)
Theorem failed_fetch_is_not_cached
    (st : QueryCache.state) (p : nat) (e : error)
    (query : string) (variables : json) (now : Z) :
  let key := CacheKey.getCacheKey query variables in
  QueryCache.inflight st !! p = Some key ->
  let st1 := QueryCache.on_rejected p e st in
  (forall t, Lru.has (QueryCache.cache st1) t key = false)
  /\ QueryCache.promises st1 !! p = Some (QueryCache.Failed e)
  /\ exists p' st2,
       QueryCache.getCachedResult now query variables st1 = (Some p', st2)
       /\ QueryCache.fetches st2 = (QueryCache.fetches st ++ [key])%list
       /\ QueryCache.invocations key st2 = S (QueryCache.invocations key st)
       /\ QueryCache.promises st2 !! p' = Some QueryCache.Pending.
Proof.
  intros key Hinflight st1.
  assert (Hgone : forall t, Lru.has (QueryCache.cache st1) t key = false).
  { intros t. subst st1. unfold QueryCache.on_rejected. rewrite Hinflight. simpl.
    apply has_delete. }
  split; [exact Hgone | split].
  - subst st1. unfold QueryCache.on_rejected. rewrite Hinflight. simpl.
    apply lookup_insert_eq.
  - unfold QueryCache.getCachedResult. fold key. rewrite Hgone.
    eexists _, _. split; [reflexivity|]. simpl.
    assert (Hfetches : QueryCache.fetches st1 = QueryCache.fetches st).
    { subst st1. unfold QueryCache.on_rejected. by rewrite Hinflight. }
    rewrite Hfetches. repeat split.
    + unfold QueryCache.invocations. simpl.
      rewrite List.filter_app, length_app. simpl. rewrite String.eqb_refl. simpl. lia.
    + apply lookup_insert_eq.
Qed.

Lemma failed_fetch_is_not_cached_witness :
  let query := "query { Viewer { id } }" in
  let st := (QueryCache.getCachedResult 0 query (JObj []) QueryCache.init).2 in
  let st1 := QueryCache.on_rejected 0 (Error "socket hang up") st in
  Lru.has (QueryCache.cache st1) 5 (CacheKey.getCacheKey query (JObj [])) = false
  /\ exists p' st2,
       QueryCache.getCachedResult 5 query (JObj []) st1 = (Some p', st2)
       /\ QueryCache.invocations (CacheKey.getCacheKey query (JObj [])) st2 = 2%nat.
Proof.
  intros query st st1.
  destruct (failed_fetch_is_not_cached st 0%nat (Error "socket hang up") query (JObj []) 5)
    as (Hgone & _ & p' & st2 & Hcall & _ & Hcount & _).
  - reflexivity.
  - split; [apply Hgone|]. exists p', st2. split; [exact Hcall | exact Hcount].
Defined.

(** ** Tiered id resolution *)

Section IdMappingFacts.
Import IdMapping.
#[local] Arguments String.eqb : simpl never.
#[local] Arguments Lru.set : simpl never.
#[local] Arguments Lru.get : simpl never.
#[local] Arguments Lru.has : simpl never.
#[local] Arguments parseInt : simpl never.
#[local] Arguments string_of_Z : simpl never.
#[local] Arguments Z.eqb : simpl never.
#[local] Arguments round53 : simpl never.

Ltac run_async :=
  unfold mbind, mret, async_bind, async_ret, bind, ret, try_catch, gets, modify,
    throw, cache_set, cache_get, emit, on_db in *;
  simpl in *.

Lemma getAnilistId_hit now env id source w :
  Lru.has (anilistIdCache w) now (source ++ ":" ++ id) = true ->
  getAnilistId now env id source w
  = (Resolved (Lru.get (anilistIdCache w) now (source ++ ":" ++ id)).1,
     {| anilistIdCache := (Lru.get (anilistIdCache w) now (source ++ ":" ++ id)).2;
        ids := ids w; log := log w |}).
Proof.
  intros Hhit. unfold getAnilistId. run_async. rewrite Hhit.
  by destruct (Lru.get _ _ _).
Qed.

Lemma getAnilistId_db now env id source w n :
  Lru.has (anilistIdCache w) now (source ++ ":" ++ id) = false ->
  IdMapping.db_tier w id source = Some n ->
  getAnilistId now env id source w
  = (Resolved (Some (Int n)),
     {| anilistIdCache := Lru.set (anilistIdCache w) now (source ++ ":" ++ id) (Int n);
        ids := ids w;
        log := (log w ++ [DbRead; CacheSet (source ++ ":" ++ id) (Int n)])%list |}).
Proof.
  intros Hmiss Hdb. unfold getAnilistId, IdMapping.db_tier, Sqlite.getFromDatabase in *.
  run_async. rewrite Hmiss.
  destruct (Sqlite.column_of source) as [c|]; [|done]. run_async.
  destruct (head _) as [m|]; [|done]. simpl in *.
  destruct (round53 m =? 0); [done|]. simplify_eq. simpl.
  by rewrite <- app_assoc.
Qed.

Lemma getAnilistId_remote now env id source w :
  Lru.has (anilistIdCache w) now (source ++ ":" ++ id) = false ->
  IdMapping.db_tier w id source = None ->
  getAnilistId now env id source w
  = (Resolved (IdMapping.remote_tier env source), IdMapping.after_remote now env id source w).
Proof.
  intros Hmiss Hdb.
  unfold getAnilistId, IdMapping.db_tier, Sqlite.getFromDatabase, IdMapping.after_remote, IdMapping.remote_tier,
    IdMapping.remote_requests, IdMapping.asks_arm, IdMapping.asks_kitsu, fetchAnilistIdFromKitsu,
    fetchAnilistIdFromArm in *.
  run_async. rewrite Hmiss.
  fold (IdMapping.kitsu_tier env). fold (IdMapping.arm_tier env).
  generalize (IdMapping.kitsu_tier env) (IdMapping.arm_tier env). intros kv av.
  destruct (Sqlite.column_of source) as [c|]; simpl;
    [destruct (head (Sqlite.holders (ids w) c _)) as [m|]; simpl in *;
       [destruct (round53 m =? 0); [simpl|done] |] |];
    (destruct (String.eqb source "kitsu"); simpl;
     [destruct kv as [[|kn]|]; simpl;
        [| destruct (kn =? 0) eqn:Hkn; simpl; rewrite ?Hkn; simpl |] |];
     try (destruct av as [[|an]|]; simpl;
          [| destruct (an =? 0) eqn:Han; simpl; rewrite ?Han; simpl |]);
     try (destruct (Sqlite.cacheToDatabase _ (Some id) source (ids w)) as [[u|e] db]; simpl);
     rewrite <- ?app_assoc; try done).
Qed.

(** A repeated hit hands out the same value. *)
Lemma hit_again (c : Lru.t num) now key :
  Lru.has c now key = true ->
  Lru.has (Lru.get c now key).2 now key = true
  /\ (Lru.get (Lru.get c now key).2 now key).1 = (Lru.get c now key).1.
Proof.
  intros (e & Hfind & Hlive)%has_true.
  destruct (get_live c now key e 0 Hfind Hlive) as (_ & Hget & Hfind' & Httl & _).
  rewrite Hfind in Hfind'.
  assert (Hlive' : Lru.is_stale (Lru.get c now key).2 now e = false).
  { unfold Lru.is_stale in *. by rewrite Httl. }
  destruct (get_live _ now key e 0 Hfind' Hlive') as (Hhas & Hget' & _).
  by rewrite Hget, Hget'.
Qed.

(** X28: once a lookup has found a mapping, the same lookup at the same clock
    reading is answered from the cache: the same value, no table read, no
    remote request, nothing written. *)
Lemma getAnilistId_repeat now env env' id source w :
  0 <= Lru.ttl (anilistIdCache w) ->
  forall v w1,
    getAnilistId now env id source w = (Resolved v, w1) ->
    onum_truthy v = true ->
    exists w2,
      getAnilistId now env' id source w1 = (Resolved v, w2)
      /\ log w2 = log w1 /\ ids w2 = ids w1.
Proof.
  intros Httl v w1 Hcall Hfound.
  set (key := source ++ ":" ++ id) in *.
  assert (Hhit : Lru.has (anilistIdCache w1) now key = true
                 /\ (Lru.get (anilistIdCache w1) now key).1 = v).
  { destruct (Lru.has (anilistIdCache w) now key) eqn:Hhas.
    - rewrite getAnilistId_hit in Hcall by done. fold key in Hcall.
      injection Hcall as <- <-. cbn [anilistIdCache]. by apply hit_again.
    - destruct (db_tier w id source) as [n|] eqn:Hdb.
      + rewrite (getAnilistId_db _ _ _ _ _ n) in Hcall by done. fold key in Hcall.
        injection Hcall as <- <-. cbn [anilistIdCache]. by apply has_get_set.
      + rewrite getAnilistId_remote in Hcall by done.
        injection Hcall as <- <-. unfold after_remote. fold key.
        destruct (remote_tier env source) as [[|n]|]; try done.
        cbn [onum_truthy num_truthy] in Hfound.
        destruct (n =? 0); [done|]. cbn [anilistIdCache]. by apply has_get_set. }
  destruct Hhit as [Hhas Hget].
  eexists. rewrite getAnilistId_hit by done. fold key. rewrite Hget.
  split; [reflexivity | done].
Qed.

End IdMappingFacts.

(** C6, counterexample: after Kitsu ids 1 and 2 were both resolved to 42,
    a third lookup of Kitsu id 1 is answered from the cache; the call writes
    nothing, and the table (whose row 42 now carries Kitsu id 2) does not
    hold the mapping it returns. *)
Lemma cache_hit_is_not_written_back :
  ~ IdMapping.returns_after_write_back 2 IdMapping.kitsu_says_42 "1" "kitsu" IdMapping.after_two_lookups
  /\ (IdMapping.getAnilistId 2 IdMapping.kitsu_says_42 "1" "kitsu" IdMapping.after_two_lookups).1
     = Resolved (Some (Int 42))
  /\ IdMapping.db_tier (IdMapping.getAnilistId 2 IdMapping.kitsu_says_42 "1" "kitsu" IdMapping.after_two_lookups).2
       "1" "kitsu" = None.
Proof.
  split; [|split; vm_compute; reflexivity].
  intros Hclaim.
  destruct (IdMapping.getAnilistId 2 IdMapping.kitsu_says_42 "1" "kitsu" IdMapping.after_two_lookups)
    as [result w'] eqn:Hcall.
  assert (Hresult : result = Resolved (Some (Int 42))).
  { change result with (result, w').1. rewrite <- Hcall. vm_compute. reflexivity. }
  assert (Hlog : IdMapping.effects_of IdMapping.after_two_lookups w' = []).
  { change w' with (result, w').2. rewrite <- Hcall. vm_compute. reflexivity. }
  subst result.
  destruct (Hclaim (Some (Int 42)) w' Hcall eq_refl) as (n & _ & Hin & _).
  rewrite Hlog in Hin. by apply not_elem_of_nil in Hin.
Qed.

(** C6, as the code has it: [getAnilistId] always returns (it never
    raises), and consults the tiers in order.
    - A live cache entry is the answer; nothing else is consulted and
      nothing is written.
    - Otherwise the table is read; a row it finds is the answer, written to
      the cache only.
    - Otherwise the remote tier is asked, the Kitsu mapping service first
      when the scheme is kitsu, and the ARM service when that gave nothing
      or the scheme is another.  A non-empty answer is written to the cache
      and then upserted into the table before it is returned; an empty one
      is returned as it is, with nothing written. *)
Theorem getAnilistId_consults_tiers_in_order
    (now : Z) (env : IdMapping.remote) (id source : string) (w : IdMapping.world) :
  let key := source ++ ":" ++ id in
  let cache := IdMapping.anilistIdCache w in
  exists result w',
    IdMapping.getAnilistId now env id source w = (Resolved result, w')
    /\ (Lru.has cache now key = true ->
        result = (Lru.get cache now key).1
        /\ IdMapping.effects_of w w' = [] /\ IdMapping.ids w' = IdMapping.ids w)
    /\ (Lru.has cache now key = false -> forall n, IdMapping.db_tier w id source = Some n ->
        result = Some (Int n)
        /\ IdMapping.effects_of w w' = [IdMapping.DbRead; IdMapping.CacheSet key (Int n)]
        /\ IdMapping.anilistIdCache w' = Lru.set cache now key (Int n)
        /\ IdMapping.ids w' = IdMapping.ids w)
    /\ (Lru.has cache now key = false -> IdMapping.db_tier w id source = None ->
        result = IdMapping.remote_tier env source
        /\ if onum_truthy result then
             exists n, result = Some (Int n)
               /\ IdMapping.effects_of w w'
                  = (IdMapping.DbRead :: IdMapping.remote_requests env source
                     ++ [IdMapping.CacheSet key (Int n); IdMapping.DbWrite n id source])%list
               /\ IdMapping.anilistIdCache w' = Lru.set cache now key (Int n)
               /\ IdMapping.ids w'
                  = (Sqlite.cacheToDatabase n (Some id) source (IdMapping.ids w)).2
           else
             IdMapping.effects_of w w' = IdMapping.DbRead :: IdMapping.remote_requests env source
             /\ IdMapping.anilistIdCache w' = cache
             /\ IdMapping.ids w' = IdMapping.ids w).
Proof.
  intros key cache. unfold IdMapping.effects_of.
  destruct (Lru.has cache now key) eqn:Hhas.
  - eexists _, _. split; [by apply getAnilistId_hit|].
    split; [|split; intros [=]]. intros _. simpl.
    by rewrite drop_all.
  - destruct (IdMapping.db_tier w id source) as [n|] eqn:Hdb.
    + eexists _, _. split; [by apply getAnilistId_db|].
      split; [intros [=]|split; [|intros _ [=]]].
      intros _ m [= <-]. simpl. by rewrite drop_app_length.
    + eexists _, _. split; [by apply getAnilistId_remote|].
      split; [intros [=]|split; [intros _ m [=]|]].
      intros _ _. split; [done|]. unfold IdMapping.after_remote.
      destruct (IdMapping.remote_tier env source) as [[|n]|];
        cbn [onum_truthy num_truthy];
        [by simpl; rewrite drop_app_length | | by simpl; rewrite drop_app_length].
      destruct (n =? 0); simpl; [by rewrite drop_app_length|].
      exists n. by rewrite <- app_assoc, drop_app_length.
Qed.

Lemma getAnilistId_consults_tiers_in_order_witness :
  exists result w',
    IdMapping.getAnilistId 0 IdMapping.kitsu_says_42 "1" "kitsu" IdMapping.fresh_world
      = (Resolved result, w')
    /\ result = IdMapping.remote_tier IdMapping.kitsu_says_42 "kitsu".
Proof.
  destruct (getAnilistId_consults_tiers_in_order 0 IdMapping.kitsu_says_42 "1" "kitsu"
              IdMapping.fresh_world) as (result & w' & Hcall & _ & _ & Hremote).
  exists result, w'. split; [exact Hcall|].
  apply Hremote; reflexivity.
Defined.

(** The table is asked for the value the column stores for the text: with
    Kitsu id 7 mapped to 42, a lookup of [007] is a hit of the table, written
    to the cache under its own key, and no service is asked. *)
Example leading_zeros_hit_the_table :
  let w := {| IdMapping.anilistIdCache := IdMapping.anilistIdCache IdMapping.fresh_world;
              IdMapping.ids :=
                {[ 42 := Sqlite.set_col Sqlite.kitsu (Some (Sqlite.VInt 7)) Sqlite.empty_row ]};
              IdMapping.log := [] |} in
  let '(r, w') := IdMapping.getAnilistId 0 IdMapping.kitsu_says_42 "007" "kitsu" w in
  r = Resolved (Some (Int 42))
  /\ IdMapping.effects_of w w' = [IdMapping.DbRead; IdMapping.CacheSet "kitsu:007" (Int 42)]
  /\ IdMapping.ids w' = IdMapping.ids w.
Proof. vm_compute. repeat split. Qed.

(** ** The subtitles handler *)

(** C9, counterexample: a request whose configuration carries no token is
    rejected, not acknowledged. *)
Lemma request_without_token_is_rejected :
  ~ Addon.always_acknowledges Addon.idle_services Addon.request_without_token tt
  /\ Addon.subtitlesHandler Addon.idle_services Addon.request_without_token tt
     = (Rejected (Error "Anilist token not configured."), tt).
Proof.
  split; [|reflexivity]. intros [w' Hack]. discriminate Hack.
Qed.

(** A [try] whose [catch] only logs always Progress.completes. *)
Lemma try_catch_swallows {W} (body : M W unit) (w : W) :
  exists w', try_catch body (fun _ => ret tt) w = (Resolved tt, w').
Proof.
  unfold try_catch, ret. destruct (body w) as [[[]|e] w']; eauto.
Qed.

(** C9, as the code has it: a request that carries a token is answered
    with an empty subtitles list, whatever the services do and however they
    fail; a request without a token is rejected with a configuration error
    and the services are not called. *)
Theorem subtitles_handler_acknowledges_with_token
    {W : Type} (svc : Addon.services W) (a : Addon.args) (w : W) :
  if str_truthy (Addon.token (Addon.cfg a))
  then exists w',
         Addon.subtitlesHandler svc a w = (Resolved {| Addon.subtitles := [] |}, w')
  else Addon.subtitlesHandler svc a w
       = (Rejected (Error "Anilist token not configured."), w).
Proof.
  unfold Addon.subtitlesHandler, str_truthy.
  destruct (Addon.token (Addon.cfg a)) as [tok|]; [|done].
  destruct (String.eqb tok ""); [done|]. cbn [negb].
  unfold mbind at 1. unfold async_bind, bind.
  match goal with
  | |- context [try_catch ?body _ w] =>
      destruct (try_catch_swallows body w) as [w1 ->]
  end.
  by exists w1.
Qed.

Lemma subtitles_handler_acknowledges_with_token_witness :
  exists w',
    Addon.subtitlesHandler Addon.failing_services
      {| Addon.id := "kitsu:7442:3"; Addon.type := "series";
         Addon.cfg := {| Addon.token := Some "eyJ0eXAi"; Addon.enableSearch := true;
                         Addon.preAddedOnly := false |} |} tt
    = (Resolved {| Addon.subtitles := [] |}, w').
Proof.
  exact (subtitles_handler_acknowledges_with_token Addon.failing_services
           {| Addon.id := "kitsu:7442:3"; Addon.type := "series";
              Addon.cfg := {| Addon.token := Some "eyJ0eXAi"; Addon.enableSearch := true;
                              Addon.preAddedOnly := false |} |} tt).
Defined.

(** ** The handler, end to end *)

(** Episode 8 of a paused series, by its Kitsu id: the id is resolved and
    written back, progress 8 is saved with the status kept, and the host gets
    the empty list. *)
Example paused_series_event :
  let '(r, w) :=
    Addon.subtitlesHandler
      (Process.services 0 IdMapping.kitsu_says_42 (fun _ _ => Process.episode_5_of_12 "PAUSED"))
      (Process.watch_event "kitsu:7442:8") Process.start in
  r = Resolved {| Addon.subtitles := [] |}
  /\ Process.saved w = [(Some (Int 42), 8, "PAUSED")]
  /\ IdMapping.log (Process.mapping w)
     = [IdMapping.DbRead; IdMapping.KitsuRequest;
        IdMapping.CacheSet "kitsu:7442" (Int 42); IdMapping.DbWrite 42 "7442" "kitsu"].
Proof. vm_compute. repeat split. Qed.

(** The same event for a series on the watching list, first in its
    process: the ReferenceError is swallowed, nothing is saved, and the
    host still gets the empty list. *)
Example watching_series_event :
  let '(r, w) :=
    Addon.subtitlesHandler
      (Process.services 0 IdMapping.kitsu_says_42 (fun _ _ => Process.episode_5_of_12 "CURRENT"))
      (Process.watch_event "kitsu:7442:8") Process.start in
  r = Resolved {| Addon.subtitles := [] |} /\ Process.saved w = [].
Proof. vm_compute. repeat split. Qed.

(** * Part III: further properties of the code *)

(** ** Decimal text *)

Section DecimalDigits.
#[local] Arguments Z.mul : simpl never.
#[local] Arguments Z.add : simpl never.

Ltac read_digit :=
  cbn [NilEmpty.string_of_uint read_digits];
  first [ change (digit_value _) with (Some 0) | change (digit_value _) with (Some 1)
        | change (digit_value _) with (Some 2) | change (digit_value _) with (Some 3)
        | change (digit_value _) with (Some 4) | change (digit_value _) with (Some 5)
        | change (digit_value _) with (Some 6) | change (digit_value _) with (Some 7)
        | change (digit_value _) with (Some 8) | change (digit_value _) with (Some 9) ];
  cbn [Z.ltb Z.compare Pos.compare Pos.compare_cont default from_option id].

Lemma string_of_uint_nonempty d : NilZero.string_of_uint d <> "".
Proof. by destruct d. Qed.

(** [String(n)] is never the empty string. *)
Lemma string_of_Z_nonempty z : string_of_Z z <> "".
Proof.
  unfold string_of_Z. destruct z as [|p|p]; cbn [Z.to_int NilZero.string_of_int]; [done| |done].
  apply string_of_uint_nonempty.
Qed.

Lemma read_digits_acc d a :
  read_digits 10 (Some (Z.pos a)) (NilEmpty.string_of_uint d)
  = Some (Z.pos (Pos.of_uint_acc d a)).
Proof.
  revert a. induction d as [|d IH|d IH|d IH|d IH|d IH|d IH|d IH|d IH|d IH|d IH];
    intros a; [done|..]; read_digit; cbn [Pos.of_uint_acc]; rewrite <- IH;
    f_equal; f_equal; lia.
Qed.

Lemma read_digits_zero d :
  read_digits 10 (Some 0) (NilEmpty.string_of_uint d) = Some (Z.of_N (Pos.of_uint d)).
Proof.
  induction d as [|d IH|d IH|d IH|d IH|d IH|d IH|d IH|d IH|d IH|d IH];
    [done|..]; read_digit; cbn [Pos.of_uint N.of_uint Z.of_N];
    [exact IH | rewrite <- read_digits_acc; f_equal..].
Qed.

Lemma read_digits_uint d :
  d <> Decimal.Nil ->
  read_digits 10 None (NilEmpty.string_of_uint d) = Some (Z.of_N (Pos.of_uint d)).
Proof.
  intros Hd. rewrite <- read_digits_zero.
  destruct d; [done|..]; by read_digit.
Qed.

(** The same digits as SQLite reads them. *)
Ltac read_decimal_digit :=
  cbn [NilEmpty.string_of_uint Sqlite.read_decimal];
  change (Sqlite.is_digit _) with true; cbn iota;
  first [ change (Z.of_N (N_of_ascii _) - 48) with 0
        | change (Z.of_N (N_of_ascii _) - 48) with 1
        | change (Z.of_N (N_of_ascii _) - 48) with 2
        | change (Z.of_N (N_of_ascii _) - 48) with 3
        | change (Z.of_N (N_of_ascii _) - 48) with 4
        | change (Z.of_N (N_of_ascii _) - 48) with 5
        | change (Z.of_N (N_of_ascii _) - 48) with 6
        | change (Z.of_N (N_of_ascii _) - 48) with 7
        | change (Z.of_N (N_of_ascii _) - 48) with 8
        | change (Z.of_N (N_of_ascii _) - 48) with 9 ].

Lemma read_decimal_acc d a n :
  0 < n ->
  exists n', 0 < n'
    /\ Sqlite.read_decimal (NilEmpty.string_of_uint d) (Z.pos a) n
       = (Z.pos (Pos.of_uint_acc d a), n', "").
Proof.
  revert a n. induction d as [|d IH|d IH|d IH|d IH|d IH|d IH|d IH|d IH|d IH|d IH];
    intros a n Hn; [by exists n|..]; read_decimal_digit; cbn [Pos.of_uint_acc];
    match goal with
    | |- exists _, _ /\ Sqlite.read_decimal ?s ?acc ?m = (Z.pos (Pos.of_uint_acc d ?b), _, _) =>
        replace acc with (Z.pos b) by lia; apply IH; lia
    end.
Qed.

Lemma read_decimal_zero d n :
  0 <= n -> d <> Decimal.Nil ->
  exists n', 0 < n'
    /\ Sqlite.read_decimal (NilEmpty.string_of_uint d) 0 n
       = (Z.of_N (Pos.of_uint d), n', "").
Proof.
  revert n. induction d as [|d IH|d IH|d IH|d IH|d IH|d IH|d IH|d IH|d IH|d IH];
    intros n Hn Hd; [done|..]; read_decimal_digit; cbn [Pos.of_uint N.of_uint Z.of_N].
  - change (0 * 10 + 0) with 0. destruct d; try (apply IH; [lia | done]).
    exists (n + 1). split; [lia | done].
  - change (0 * 10 + 1) with (Z.pos 1). apply read_decimal_acc. lia.
  - change (0 * 10 + 2) with (Z.pos 2). apply read_decimal_acc. lia.
  - change (0 * 10 + 3) with (Z.pos 3). apply read_decimal_acc. lia.
  - change (0 * 10 + 4) with (Z.pos 4). apply read_decimal_acc. lia.
  - change (0 * 10 + 5) with (Z.pos 5). apply read_decimal_acc. lia.
  - change (0 * 10 + 6) with (Z.pos 6). apply read_decimal_acc. lia.
  - change (0 * 10 + 7) with (Z.pos 7). apply read_decimal_acc. lia.
  - change (0 * 10 + 8) with (Z.pos 8). apply read_decimal_acc. lia.
  - change (0 * 10 + 9) with (Z.pos 9). apply read_decimal_acc. lia.
Qed.

End DecimalDigits.

Section DecimalFacts.
#[local] Arguments read_digits : simpl never.
#[local] Arguments round53 : simpl never.

(** The digits of a numeral carry no blank and no [0x]. *)
Lemma parseInt_uint d :
  d <> Decimal.Nil ->
  parseInt (NilEmpty.string_of_uint d) = Int (round53 (Z.of_N (Pos.of_uint d)))
  /\ parseInt (String "-" (NilEmpty.string_of_uint d))
     = Int (round53 (- Z.of_N (Pos.of_uint d))).
Proof.
  intros Hd. pose proof (read_digits_uint d Hd) as Hread.
  unfold parseInt.
  destruct d as [|l|l|l|l|l|l|l|l|l|l]; try done;
    cbn [NilEmpty.string_of_uint] in *;
    try (generalize dependent (NilEmpty.string_of_uint l); intros rest Hread; simpl;
         by rewrite Hread);
    destruct l; cbn [NilEmpty.string_of_uint] in *;
    try (generalize dependent (NilEmpty.string_of_uint l); intros rest Hread);
    simpl; first [by rewrite Hread | done].
Qed.

Lemma string_of_Z_digits p :
  Pos.to_uint p <> Decimal.Nil
  /\ NilZero.string_of_uint (Pos.to_uint p) = NilEmpty.string_of_uint (Pos.to_uint p)
  /\ Z.of_N (Pos.of_uint (Pos.to_uint p)) = Z.pos p.
Proof.
  pose proof (DecimalPos.Unsigned.of_to p) as Hp.
  assert (Hd : Pos.to_uint p <> Decimal.Nil) by (intros Hd; by rewrite Hd in Hp).
  split; [done|]. split; [by destruct (Pos.to_uint p) | by rewrite Hp].
Qed.

(** [parseInt(String(n))] for an integer printed with all its digits: the
    double nearest to it. *)
Lemma parseInt_string_of_Z z : parseInt (string_of_Z z) = Int (round53 z).
Proof.
  unfold string_of_Z. destruct z as [|p|p]; [done|..]; cbn [Z.to_int NilZero.string_of_int];
    destruct (string_of_Z_digits p) as (Hd & Hs & Hp); rewrite Hs.
  - rewrite (proj1 (parseInt_uint _ Hd)). by rewrite Hp.
  - rewrite (proj2 (parseInt_uint _ Hd)). by rewrite Hp.
Qed.

(** 53 bits hold every integer below 2^53. *)
Lemma round53_small z : Z.abs z < 2 ^ 53 -> round53 z = z.
Proof.
  intros Hz. unfold round53.
  destruct (Z.eq_dec (Z.abs z) 0) as [Hzero|Hpos]; [by rewrite Hzero|].
  assert (Hlog : Z.log2 (Z.abs z) < 53) by (apply Z.log2_lt_pow2; lia).
  destruct (Z.leb_spec (Z.log2 (Z.abs z) - 52) 0); [done | lia].
Qed.

(** The text of a number below 10^21 is its digits. *)
Lemma number_text_small z : Z.abs z < 10 ^ 21 -> number_text z = string_of_Z z.
Proof. intros Hz. unfold number_text. by destruct (Z.ltb_spec (Z.abs z) (10 ^ 21)); [|lia]. Qed.

(** The two roundings agree on a whole number of more than 53 bits. *)
Lemma nearest_parts_whole (a : Z) :
  2 ^ 53 <= a ->
  exists n u, nearest_parts a 1 = (n, u) /\ 0 < u /\ round53 a = n * 2 ^ u.
Proof.
  intros Hlo.
  assert (Hlog : 53 <= Z.log2 a) by (apply Z.log2_le_pow2; lia).
  destruct (Z.log2_spec a ltac:(lia)) as [Hbelow _].
  unfold nearest_parts, round53, pow2.
  change (Z.log2 1) with 0. rewrite Z.sub_0_r, (Z.abs_eq a) by lia.
  set (L := Z.log2 a) in *.
  rewrite (Z.max_l 0 (- L)), (Z.max_r 0 L) by lia.
  destruct (Z.ltb_spec (a * 2 ^ 0) (1 * 2 ^ L)) as [Hlt|_]; [lia|].
  rewrite (Z.max_l (L - 52) (-1074)) by lia.
  set (u := L - 52) in *.
  rewrite (Z.max_l 0 (- u)), (Z.max_r 0 u) by lia.
  destruct (Z.leb_spec u 0) as [Hu|Hu]; [lia|].
  rewrite Z.shiftr_div_pow2, !Z.shiftl_mul_pow2 by lia.
  rewrite Z.mul_1_r, !Z.mul_1_l.
  assert (Hpow : 2 ^ u = 2 * 2 ^ (u - 1)).
  { rewrite <- Z.pow_succ_r by lia. f_equal. lia. }
  assert (Hpos : 0 < 2 ^ (u - 1)) by (apply Z.pow_pos_nonneg; lia).
  assert (Hmod : a - a / 2 ^ u * 2 ^ u = a mod 2 ^ u).
  { rewrite Z.mod_eq by lia. lia. }
  rewrite Hmod.
  set (r := a mod 2 ^ u). set (q := a / 2 ^ u).
  assert (Hsame : (2 ^ u <? 2 * r) || (2 * r =? 2 ^ u) && Z.odd q
                  = (2 ^ (u - 1) <? r) || (r =? 2 ^ (u - 1)) && Z.odd q).
  { rewrite Hpow. f_equal; [|f_equal].
    - destruct (Z.ltb_spec (2 * 2 ^ (u - 1)) (2 * r)), (Z.ltb_spec (2 ^ (u - 1)) r); lia.
    - destruct (Z.eqb_spec (2 * r) (2 * 2 ^ (u - 1))), (Z.eqb_spec r (2 ^ (u - 1))); lia. }
  rewrite Hsame. eexists _, u. split; [reflexivity|]. split; [done|].
  rewrite Z.sgn_pos by lia. lia.
Qed.

(** A column of INTEGER affinity reads a whole number beyond 64 bits as the
    double nearest to it. *)
Lemma nearest_whole (negative : bool) (a : Z) :
  2 ^ 53 <= a -> a < 2 ^ 1024 -> round53 a = a ->
  nearest negative a 1 = inl (if negative then - a else a).
Proof.
  intros Hlo Hhi Hround.
  destruct (nearest_parts_whole a Hlo) as (n & u & Hparts & Hu & Hn).
  unfold nearest. rewrite Hparts.
  destruct (Z.leb_spec 0 u); [|lia].
  rewrite <- Hn, Hround.
  by destruct (Z.leb_spec (2 ^ 1024) a); [lia|].
Qed.

(** Rounding keeps the sign. *)
Lemma round53_opp z : round53 (- z) = - round53 z.
Proof.
  unfold round53. rewrite Z.abs_opp, Z.sgn_opp.
  destruct (Z.log2 (Z.abs z) - 52 <=? 0); [done | lia].
Qed.

(** A column of INTEGER affinity reads the digits of an integer as that
    integer when 64 bits hold it, and as the double nearest to it
    otherwise. *)
Lemma numeric_text_digits z :
  Sqlite.numeric_text (string_of_Z z)
  = Some (if (- 2 ^ 63 <=? z) && (z <? 2 ^ 63) then inl z
          else nearest (z <? 0) (Z.abs z) 1).
Proof.
  unfold string_of_Z, Sqlite.numeric_text.
  destruct z as [|p|p]; [done|..]; cbn [Z.to_int NilZero.string_of_int];
    destruct (string_of_Z_digits p) as (Hd & Hs & Hp); rewrite ?Hs.
  - destruct (read_decimal_zero (Pos.to_uint p) 0 ltac:(done) Hd) as (n' & Hn' & Hread).
    rewrite Hp in Hread.
    assert (Htrim : trim_start (NilEmpty.string_of_uint (Pos.to_uint p))
                    = NilEmpty.string_of_uint (Pos.to_uint p)).
    { by destruct (Pos.to_uint p). }
    rewrite Htrim.
    assert (Hsign : Sqlite.read_sign (NilEmpty.string_of_uint (Pos.to_uint p))
                    = (false, NilEmpty.string_of_uint (Pos.to_uint p))).
    { by destruct (Pos.to_uint p). }
    rewrite Hsign. cbv beta iota zeta. rewrite Hread. cbn [trim_start String.eqb negb andb].
    replace (0 <? n' + 0) with true by (symmetry; apply Z.ltb_lt; lia).
    cbn [andb]. destruct ((- 2 ^ 63 <=? Z.pos p) && (Z.pos p <? 2 ^ 63)); [done|].
    change (pow10 (0 - 0)) with 1. change (pow10 (- (0 - 0))) with 1.
    by rewrite Z.mul_1_r.
  - destruct (read_decimal_zero (Pos.to_uint p) 0 ltac:(done) Hd) as (n' & Hn' & Hread).
    rewrite Hp in Hread.
    change (trim_start (String "-" ?s)) with (String "-" s).
    change (Sqlite.read_sign (String "-" ?s)) with (true, s).
    cbv beta iota zeta. rewrite Hread.
    cbn [trim_start String.eqb negb andb].
    replace (0 <? n' + 0) with true by (symmetry; apply Z.ltb_lt; lia).
    cbn [andb]. change (- Z.pos p) with (Z.neg p).
    destruct ((- 2 ^ 63 <=? Z.neg p) && (Z.neg p <? 2 ^ 63)); [done|].
    change (pow10 (0 - 0)) with 1. change (pow10 (- (0 - 0))) with 1.
    by rewrite Z.mul_1_r.
Qed.

(** So it reads the digits of a 64-bit integer as that integer. *)
Lemma numeric_text_string_of_Z z :
  - 2 ^ 63 <= z < 2 ^ 63 ->
  Sqlite.numeric_text (string_of_Z z) = Some (inl z).
Proof.
  intros Hz. rewrite numeric_text_digits.
  by destruct (Z.leb_spec (- 2 ^ 63) z), (Z.ltb_spec z (2 ^ 63)); [|lia..].
Qed.

(** It reads the digits of a number JavaScript holds as that number. *)
Lemma numeric_text_number z :
  round53 z = z -> Z.abs z < 2 ^ 1024 ->
  Sqlite.numeric_text (string_of_Z z) = Some (inl z).
Proof.
  intros Hround Hfinite. rewrite numeric_text_digits.
  destruct (Z.leb_spec (- 2 ^ 63) z), (Z.ltb_spec z (2 ^ 63)); cbn [andb]; [done|..].
  - rewrite nearest_whole; [| lia | lia | rewrite Z.abs_eq by lia; done].
    destruct (Z.ltb_spec z 0); [lia|]. f_equal. f_equal. lia.
  - rewrite nearest_whole; [| lia | lia |].
    + destruct (Z.ltb_spec z 0); [|lia]. f_equal. f_equal. lia.
    + rewrite Z.abs_neq by lia. rewrite round53_opp. by rewrite Hround.
  - lia.
Qed.

End DecimalFacts.

(** ** The watched-episode flow *)

Section WatchDecisions.
Import Progress.
#[local] Arguments String.eqb : simpl never.

(** What a writing decision tells about the entry. *)
Lemma handle_write_inv entry currentEpisode preAddedOnly g p s g' :
  handleWatchedEpisode entry currentEpisode preAddedOnly g = (Resolved (Write p s), g') ->
  exists d,
    entry = Entry d
    /\ p = (if isMovie d then 1 else currentEpisode)
    /\ currentProgress d < p
    /\ (isMovie d = false -> forall total, totalEpisodes d = Some total -> p <= total)
    /\ (preAddedOnly = true -> is_Some (currentStatus d))
    /\ g' = Some s.
Proof.
  unfold handleWatchedEpisode.
  destruct entry as [| |d]; [by destruct (preAddedOnly && _)..|].
  destruct (preAddedOnly && _) eqn:Hpre; [done|].
  rewrite update_cases. unfold skips.
  destruct (Z.leb_spec (if isMovie d then 1 else currentEpisode) (currentProgress d));
    [done|]. cbn [orb].
  destruct (negb (isMovie d) && _) eqn:Htotal; [done|].
  destruct (sent_status d _ g) as [s0|]; [|done].
  intros [= <- <- <-]. exists d. repeat split; try done.
  - intros Hseries total Hsome. rewrite Hseries, Hsome in Htotal. simpl in Htotal.
    rewrite Hseries. lia.
  - intros ->. simpl in Hpre. by destruct (currentStatus d).
Qed.

(** The only error of the decision is the read of the unset [newStatus]. *)
Lemma handle_rejected_inv entry currentEpisode preAddedOnly g err g' :
  handleWatchedEpisode entry currentEpisode preAddedOnly g = (Rejected err, g') ->
  err = ReferenceError.
Proof.
  unfold handleWatchedEpisode.
  destruct (preAddedOnly && _); [done|].
  destruct entry as [| |d]; [done..|].
  rewrite update_cases. destruct (skips d _); [done|].
  destruct (sent_status d _ g); [done|]. by intros [= <- <-].
Qed.

(** X1: the status [updateAnilistProgress] saves for an entry on the watching
    list (or on no list) that the episode does not complete is the status of
    the mutation before it, whichever work that one was for: the status is
    read from the global [newStatus], which only the other branches assign. *)
Theorem watching_entry_inherits_last_status
    (g g1 : option string) (t1 p1 t2 : Z) (entry1 : fetched) (s1 : string)
    (d2 : entryData) :
  let p2 := if isMovie d2 then 1 else t2 in
  updateAnilistProgress t1 entry1 g = (Resolved (Write p1 s1), g1) ->
  currentStatus d2 = Some "CURRENT" \/ currentStatus d2 = None ->
  skips d2 p2 = false ->
  completes d2 p2 = false ->
  updateAnilistProgress t2 (Entry d2) g1 = (Resolved (Write p2 s1), g1).
Proof.
  intros p2 Hfirst Hcur Hskips Hcomp.
  assert (Hg1 : g1 = Some s1).
  { destruct entry1 as [| |d1]; [done..|]. rewrite update_cases in Hfirst.
    destruct (skips d1 _); [done|].
    destruct (sent_status d1 _ g) as [s|]; [|done]. by injection Hfirst as _ <- <-. }
  rewrite update_cases. fold p2. rewrite Hskips. unfold sent_status. rewrite Hcomp.
  subst g1. by destruct Hcur as [-> | ->].
Qed.

Lemma watching_entry_inherits_last_status_witness :
  updateAnilistProgress 6
    (Entry {| currentProgress := 5; currentStatus := Some "CURRENT";
              totalEpisodes := Some 12; isMovie := false |})
    (Some "COMPLETED")
  = (Resolved (Write 6 "COMPLETED"), Some "COMPLETED").
Proof.
  apply (watching_entry_inherits_last_status None (Some "COMPLETED") 12 12 6
           (Entry {| currentProgress := 11; currentStatus := Some "PAUSED";
                     totalEpisodes := Some 12; isMovie := false |})
           "COMPLETED"
           {| currentProgress := 5; currentStatus := Some "CURRENT";
              totalEpisodes := Some 12; isMovie := false |});
    [reflexivity | by left | reflexivity | reflexivity].
Defined.

End WatchDecisions.

Section WatchFacts.
Import Watch.
#[local] Arguments String.eqb : simpl never.

Ltac run_watch :=
  unfold mbind, mret, async_bind, async_ret, bind, ret, try_catch, gets, modify,
    throw, emit, await, on_newStatus in *;
  simpl in *.

Lemma getAnilistMediaListEntry_answer e mediaId w :
  getAnilistMediaListEntry e mediaId w
  = (Resolved (answer_of (entry_reply e mediaId)),
     {| newStatus := newStatus w; trace := (trace w ++ [EntryQuery mediaId])%list |}).
Proof.
  unfold getAnilistMediaListEntry, answer_of. run_watch.
  destruct (entry_reply e mediaId) as [[m|]|err]; try done.
  by destruct (negb _ && _).
Qed.

(** The call in one piece: the requests it issues, around the decision of
    [Progress.handleWatchedEpisode]. *)
Lemma handleWatchedEpisode_unfold e animeName anilistId currentEpisode preAddedOnly w :
  let target := target_of e animeName anilistId in
  let asked :=
    ((if negb (onum_truthy anilistId) && str_truthy animeName
      then [Search (default "" animeName)] else [])
     ++ [EntryQuery target])%list in
  handleWatchedEpisode e animeName anilistId currentEpisode preAddedOnly w
  = match Progress.handleWatchedEpisode (answer_of (entry_reply e target))
            currentEpisode preAddedOnly (newStatus w) with
    | (Resolved Progress.NoWrite, g) =>
        (Resolved tt, {| newStatus := g; trace := (trace w ++ asked)%list |})
    | (Resolved (Progress.Write p s), g) =>
        (save_reply e target p s,
         {| newStatus := g;
            trace := (trace w ++ asked ++ [CacheClear; Save target p s])%list |})
    | (Rejected err, g) =>
        (Rejected err, {| newStatus := g; trace := (trace w ++ asked)%list |})
    end.
Proof.
  intros target asked. subst target asked.
  unfold handleWatchedEpisode, target_of, getAnilistEntryByName.
  unfold mbind at 1, async_bind at 1, bind at 1.
  assert (Hrest : forall target (w1 : world),
    (entryData ← getAnilistMediaListEntry e target;
     (if preAddedOnly
         && negb match entryData with
                 | Progress.Entry d =>
                     match Progress.currentStatus d with Some _ => true | None => false end
                 | _ => false
                 end
      then ret tt
      else updateAnilistProgress e target currentEpisode entryData)) w1
    = match Progress.handleWatchedEpisode (answer_of (entry_reply e target))
              currentEpisode preAddedOnly (newStatus w1) with
      | (Resolved Progress.NoWrite, g) =>
          (Resolved tt, {| newStatus := g;
                           trace := (trace w1 ++ [EntryQuery target])%list |})
      | (Resolved (Progress.Write p s), g) =>
          (save_reply e target p s,
           {| newStatus := g;
              trace := (trace w1 ++ [EntryQuery target] ++ [CacheClear; Save target p s])%list |})
      | (Rejected err, g) =>
          (Rejected err, {| newStatus := g;
                            trace := (trace w1 ++ [EntryQuery target])%list |})
      end).
  { intros target w1. unfold mbind at 1, async_bind at 1, bind at 1.
    rewrite getAnilistMediaListEntry_answer.
    unfold Progress.handleWatchedEpisode.
    destruct (preAddedOnly && _); [done|].
    unfold updateAnilistProgress. run_watch.
    destruct (Progress.updateAnilistProgress _ _ _) as [[[|p s]|err] g]; simpl; try done.
    by rewrite <- !app_assoc. }
  destruct (negb (onum_truthy anilistId) && str_truthy animeName).
  - run_watch.
    destruct (search_reply e (default "" animeName)) as [[id|]|err]; simpl;
      rewrite Hrest; simpl;
      destruct (Progress.handleWatchedEpisode _ _ _ _) as [[[|p s]|err'] g];
      by rewrite <- ?app_assoc.
  - run_watch. rewrite Hrest. simpl.
    by destruct (Progress.handleWatchedEpisode _ _ _ _) as [[[|p s]|err'] g].
Qed.


(** X2: [handleWatchedEpisode] sends a [SaveMediaListEntry] mutation only for
    the media id it resolved, only when the entry query answered with the
    work, and only forward: the progress saved is above the progress on the
    list, is 1 for a movie and the watched episode otherwise, and stays within
    a known episode count; with [preAddedOnly] the work has a status on the
    list. The mutation is the last thing the call does, [cache.clear()] comes
    right before it, and before the two there are only the lookups. *)
Theorem progress_is_saved_only_forward
    (e : Watch.env) (animeName : option string) (anilistId : option num)
    (currentEpisode : Z) (preAddedOnly : bool) (w : Watch.world)
    (t : option num) (p : Z) (s : string) :
  Watch.Save t p s
    ∈ Watch.effects_of w
        (Watch.handleWatchedEpisode e animeName anilistId currentEpisode preAddedOnly w).2 ->
  t = Watch.target_of e animeName anilistId
  /\ (exists lookups,
        Watch.effects_of w
          (Watch.handleWatchedEpisode e animeName anilistId currentEpisode preAddedOnly w).2
        = (lookups ++ [Watch.CacheClear; Watch.Save t p s])%list
        /\ forall ev, ev ∈ lookups ->
             (exists name, ev = Watch.Search name) \/ ev = Watch.EntryQuery t)
  /\ exists m,
       Watch.entry_reply e t = Resolved (Some m)
       /\ default 0 (Watch.mediaListEntry m ≫= Watch.progress) < p
       /\ p = (if from_option (String.eqb "MOVIE") false (Watch.format m)
               then 1 else currentEpisode)
       /\ (from_option (String.eqb "MOVIE") false (Watch.format m) = false ->
           forall total, Watch.episodes m = Some total -> p <= total)
       /\ (preAddedOnly = true -> is_Some (Watch.mediaListEntry m ≫= Watch.status)).
Proof.
  rewrite handleWatchedEpisode_unfold. unfold Watch.effects_of.
  set (target := Watch.target_of e animeName anilistId).
  assert (Hlookups : forall ev,
            ev ∈ ((if negb (onum_truthy anilistId) && str_truthy animeName
                   then [Watch.Search (default "" animeName)] else [])
                  ++ [Watch.EntryQuery target])%list ->
            (exists name, ev = Watch.Search name) \/ ev = Watch.EntryQuery target).
  { intros ev Hin. apply elem_of_app in Hin as [Hin|Hin].
    - destruct (negb _ && _); [|by apply elem_of_nil in Hin].
      apply list_elem_of_singleton in Hin. eauto.
    - apply list_elem_of_singleton in Hin. auto. }
  destruct (Progress.handleWatchedEpisode _ _ _ _) as [[[|p' s']|err] g] eqn:Hdec;
    cbn [snd Watch.trace]; rewrite drop_app_length.
  - intros Hin. exfalso. by destruct (Hlookups _ Hin) as [[name Hev]|Hev].
  - intros Hin. apply elem_of_app in Hin as [Hin|Hin].
    { exfalso. by destruct (Hlookups _ Hin) as [[name Hev]|Hev]. }
    apply elem_of_cons in Hin as [Hin|Hin]; [done|].
    apply list_elem_of_singleton in Hin. injection Hin as -> -> ->.
    split; [done|]. split.
    { eexists. split; [reflexivity | exact Hlookups]. }
    clear Hlookups.
    apply handle_write_inv in Hdec as (d & Hentry & Hp & Hlt & Htotal & Hpre & _).
    unfold Watch.answer_of in Hentry.
    destruct (Watch.entry_reply e target) as [[m|]|err]; [|done|by destruct (negb _ && _)].
    injection Hentry as <-. exists m. simpl in *. done.
  - intros Hin. exfalso. by destruct (Hlookups _ Hin) as [[name Hev]|Hev].
Qed.

Lemma progress_is_saved_only_forward_witness :
  Some (Int 21) = Watch.target_of Watch.paused_at_5 None (Some (Int 21))
  /\ (exists lookups,
        Watch.effects_of Watch.fresh_world
          (Watch.handleWatchedEpisode Watch.paused_at_5 None (Some (Int 21)) 8 true
             Watch.fresh_world).2
        = (lookups ++ [Watch.CacheClear; Watch.Save (Some (Int 21)) 8 "PAUSED"])%list
        /\ forall ev, ev ∈ lookups ->
             (exists name, ev = Watch.Search name)
             \/ ev = Watch.EntryQuery (Some (Int 21)))
  /\ exists m,
       Watch.entry_reply Watch.paused_at_5 (Some (Int 21)) = Resolved (Some m)
       /\ default 0 (Watch.mediaListEntry m ≫= Watch.progress) < 8
       /\ 8 = (if from_option (String.eqb "MOVIE") false (Watch.format m) then 1 else 8)
       /\ (from_option (String.eqb "MOVIE") false (Watch.format m) = false ->
           forall total, Watch.episodes m = Some total -> 8 <= total)
       /\ (true = true -> is_Some (Watch.mediaListEntry m ≫= Watch.status)).
Proof.
  apply (progress_is_saved_only_forward Watch.paused_at_5 None (Some (Int 21)) 8 true
           Watch.fresh_world (Some (Int 21)) 8 "PAUSED").
  vm_compute. do 2 right. left.
Defined.

(** X3: a failed search or a failed entry query never makes
    [handleWatchedEpisode] fail. The call is rejected only by the read of the
    unset global [newStatus], before anything is sent, or with the error of
    the mutation it sent. *)
Theorem lookup_failures_are_not_raised
    (e : Watch.env) (animeName : option string) (anilistId : option num)
    (currentEpisode : Z) (preAddedOnly : bool) (w : Watch.world) (err : error) :
  let call :=
    Watch.handleWatchedEpisode e animeName anilistId currentEpisode preAddedOnly w in
  call.1 = Rejected err ->
  (err = Progress.ReferenceError
   /\ forall t p s, Watch.Save t p s ∉ Watch.effects_of w call.2)
  \/ exists p s,
       Watch.save_reply e (Watch.target_of e animeName anilistId) p s = Rejected err
       /\ Watch.Save (Watch.target_of e animeName anilistId) p s
            ∈ Watch.effects_of w call.2.
Proof.
  intros call. subst call. rewrite handleWatchedEpisode_unfold. unfold Watch.effects_of.
  set (target := Watch.target_of e animeName anilistId).
  destruct (Progress.handleWatchedEpisode _ _ _ _) as [[[|p s]|err'] g] eqn:Hdec;
    cbn [fst snd Watch.trace]; rewrite drop_app_length; [done| |].
  - intros Hsave. right. exists p, s. split; [done|].
    apply elem_of_app. right. right. by left.
  - intros [= <-]. left. split; [by eapply handle_rejected_inv|].
    intros t p s Hin. apply elem_of_app in Hin as [Hin|Hin].
    + destruct (negb _ && _); [|by apply elem_of_nil in Hin].
      apply list_elem_of_singleton in Hin. done.
    + apply list_elem_of_singleton in Hin. done.
Qed.

Lemma lookup_failures_are_not_raised_witness :
  (Error "GraphQL API returned errors: Invalid token" = Progress.ReferenceError
   /\ forall t p s,
        Watch.Save t p s
          ∉ Watch.effects_of Watch.fresh_world
              (Watch.handleWatchedEpisode Watch.read_only None (Some (Int 21)) 8 false
                 Watch.fresh_world).2)
  \/ exists p s,
       Watch.save_reply Watch.read_only
         (Watch.target_of Watch.read_only None (Some (Int 21))) p s
       = Rejected (Error "GraphQL API returned errors: Invalid token")
       /\ Watch.Save (Watch.target_of Watch.read_only None (Some (Int 21))) p s
            ∈ Watch.effects_of Watch.fresh_world
                (Watch.handleWatchedEpisode Watch.read_only None (Some (Int 21)) 8 false
                   Watch.fresh_world).2.
Proof.
  apply (lookup_failures_are_not_raised Watch.read_only None (Some (Int 21)) 8 false
           Watch.fresh_world (Error "GraphQL API returned errors: Invalid token")).
  reflexivity.
Defined.

(** X4: [handleWatchedEpisode] does not stop when it has no media id. Called
    with a name and no usable id, and the search finding nothing, it still
    sends the entry query, with the id it was given; when that query answers
    with a work that is behind the watched episode, the mutation is sent as
    well, again with that id. *)
Theorem missing_media_id_is_not_short_circuited
    (e : Watch.env) (name : string) (anilistId : option num)
    (currentEpisode : Z) (preAddedOnly : bool) (w : Watch.world)
    (m : Watch.media) (entry : Watch.listEntry) (s : string) (total : Z) :
  onum_truthy anilistId = false ->
  name <> "" ->
  Watch.search_reply e name = Resolved None ->
  Watch.entry_reply e anilistId = Resolved (Some m) ->
  Watch.format m <> Some "MOVIE" ->
  Watch.mediaListEntry m = Some entry ->
  Watch.status entry = Some s -> s <> "" -> s <> "CURRENT" ->
  Watch.episodes m = Some total ->
  default 0 (Watch.progress entry) < currentEpisode < total ->
  Watch.effects_of w
    (Watch.handleWatchedEpisode e (Some name) anilistId currentEpisode preAddedOnly w).2
  = [Watch.Search name; Watch.EntryQuery anilistId; Watch.CacheClear;
     Watch.Save anilistId currentEpisode s].
Proof.
  intros Hid Hname Hsearch Hreply Hformat Hentry Hstatus Hs Hcur Htotal [Hlt Hbelow].
  rewrite handleWatchedEpisode_unfold. unfold Watch.effects_of, Watch.target_of.
  rewrite Hid. cbn [negb andb str_truthy default from_option id].
  destruct (String.eqb_spec name ""); [done|]. cbn [negb]. rewrite Hsearch, Hreply.
  assert (Hmovie : from_option (String.eqb "MOVIE") false (Watch.format m) = false).
  { destruct (Watch.format m) as [f|]; [|done]. cbn [from_option].
    destruct (String.eqb_spec "MOVIE" f); [congruence|done]. }
  unfold Watch.answer_of. rewrite Hentry, Hmovie. cbn [mbind option_bind].
  rewrite Hstatus. unfold Progress.handleWatchedEpisode.
  cbn [Progress.currentStatus]. rewrite andb_false_r, update_cases.
  unfold Progress.skips, Progress.sent_status, Progress.completes.
  cbn [Progress.isMovie Progress.currentProgress Progress.totalEpisodes
       Progress.currentStatus negb andb orb from_option].
  rewrite Htotal. cbn [from_option].
  destruct (Z.leb_spec currentEpisode (default 0 (Watch.progress entry))); [lia|].
  destruct (Z.ltb_spec total currentEpisode); [lia|].
  destruct (Z.leb_spec total currentEpisode); [lia|]. cbn [orb].
  destruct (String.eqb_spec s ""); [done|].
  destruct (String.eqb_spec s "CURRENT"); [done|]. cbn [orb snd trace].
  by rewrite drop_app_length.
Qed.

Lemma missing_media_id_is_not_short_circuited_witness :
  Watch.effects_of Watch.fresh_world
    (Watch.handleWatchedEpisode Watch.finds_nothing (Some "Mushishi season 2") None 8 false
       Watch.fresh_world).2
  = [Watch.Search "Mushishi season 2"; Watch.EntryQuery None; Watch.CacheClear;
     Watch.Save None 8 "PAUSED"].
Proof.
  apply (missing_media_id_is_not_short_circuited Watch.finds_nothing "Mushishi season 2"
           None 8 false Watch.fresh_world
           {| Watch.episodes := Some 12; Watch.format := Some "TV";
              Watch.mediaListEntry := Some {| Watch.status := Some "PAUSED";
                                              Watch.progress := Some 5 |} |}
           {| Watch.status := Some "PAUSED"; Watch.progress := Some 5 |} "PAUSED" 12);
    try reflexivity; try discriminate.
  simpl. lia.
Defined.


Lemma handle_keeps_off_current e animeName anilistId currentEpisode preAddedOnly w :
  newStatus w <> Some "CURRENT" ->
  Forall off_current (trace w) ->
  let w' := (handleWatchedEpisode e animeName anilistId currentEpisode preAddedOnly w).2 in
  newStatus w' <> Some "CURRENT" /\ Forall off_current (trace w').
Proof.
  intros Hg Htrace. rewrite handleWatchedEpisode_unfold. cbv zeta.
  set (target := target_of e animeName anilistId).
  assert (Hasked : Forall off_current
            ((if negb (onum_truthy anilistId) && str_truthy animeName
              then [Search (default "" animeName)] else []) ++ [EntryQuery target])%list).
  { apply Forall_app. split; [destruct (negb _ && _)|]; repeat constructor; by intros ? ?. }
  unfold Progress.handleWatchedEpisode.
  destruct (preAddedOnly && _).
  { simpl. split; [done|]. by apply Forall_app. }
  destruct (Progress.updateAnilistProgress _ _ _) as [r g] eqn:Hcall.
  destruct (update_keeps_off_current _ _ _ _ _ Hg Hcall) as [Hg' Hr].
  destruct r as [[|p s]|err]; simpl; (split; [done|]);
    try (by apply Forall_app).
  apply Forall_app. split; [done|]. apply Forall_app. split; [done|].
  repeat constructor; [by intros ? ?|].
  intros t q [= _ _ ->]. by apply (Hr p).
Qed.



(** X5: from a fresh process on, whatever the list service answers and
    whatever is watched, no mutation [handleWatchedEpisode] sends sets the
    status [CURRENT]. *)
Theorem no_event_sets_status_current
    (e : Watch.env) (calls : list (option string * option num * Z * bool)) :
  Forall Watch.off_current (Watch.trace (Watch.run e calls Watch.fresh_world).2).
Proof.
  assert (Hrun : forall w,
            newStatus w <> Some "CURRENT" -> Forall off_current (trace w) ->
            Forall off_current (trace (run e calls w).2)).
  { induction calls as [|[[[animeName anilistId] currentEpisode] preAddedOnly] rest IH];
      intros w Hg Htrace; [done|]. cbn [run].
    pose proof (handle_keeps_off_current e animeName anilistId currentEpisode
                  preAddedOnly w Hg Htrace) as [Hg' Htrace'].
    destruct (handleWatchedEpisode e animeName anilistId currentEpisode preAddedOnly w)
      as [r w1].
    specialize (IH w1 Hg' Htrace').
    by destruct (run e rest w1). }
  by apply Hrun.
Qed.

End WatchFacts.

(** ** The mapping table, both directions *)

Section SqliteRoundTrip.
Import Sqlite SqliteReverse.
#[local] Arguments String.eqb : simpl never.
#[local] Arguments parseInt : simpl never.
#[local] Arguments string_of_Z : simpl never.
#[local] Arguments numeric_text : simpl never.
#[local] Arguments round53 : simpl never.
#[local] Arguments rowid : simpl never.

Lemma head_only {A} (l : list A) (x : A) :
  x ∈ l -> (forall y, y ∈ l -> y = x) -> head l = Some x.
Proof.
  destruct l as [|y l]; [by intros ?%elem_of_nil|].
  intros _ Hall. simpl. f_equal. apply Hall. by left.
Qed.

(** A whole number bound to a column of INTEGER affinity is stored as that
    number, however the package binds it. *)
Lemma affinity_number c n : c <> imdb -> affinity c (binding (ENum n)) = VInt n.
Proof.
  intros Hc. unfold binding. by destruct ((- 2 ^ 31 <=? n) && (n <? 2 ^ 31)), c.
Qed.

(** So are the digits of a number JavaScript holds. *)
Lemma affinity_digits c n :
  c <> imdb -> round53 n = n -> Z.abs n < 2 ^ 1024 ->
  affinity c (BText (string_of_Z n)) = VInt n.
Proof.
  intros Hc Hround Hfinite. unfold affinity. rewrite numeric_text_number by done.
  by destruct c.
Qed.

(** The table an upsert of a value leaves: the table as it was, or the one
    cell written. *)
Lemma upsert_table (db : table) a b c :
  rowid a = true ->
  let v := affinity c b in
  let out := settle db (run_upsert db c a (Some b)) in
  out.1 = Resolved tt
  /\ ((out.2 = db
       /\ ((exists r, db !! a = Some r /\ col c r = Some v)
           \/ taken_elsewhere db c (Some v) a = true))
      \/ (out.2 = <[a := set_col c (Some v) (default empty_row (db !! a))]> db
          /\ taken_elsewhere db c (Some v) a = false)).
Proof.
  intros Ha v out. subst out.
  destruct (run_upsert_cases db c a b Ha) as [[-> Hrow] | [[-> Htaken] | [-> Hfree]]];
    fold v in Hrow || fold v in Htaken || fold v in Hfree.
  - split; [done|]. left. auto.
  - rewrite settle_unique_failed. split; [done|]. left. auto.
  - split; [done|]. right. auto.
Qed.

(** A canonical id that is no rowid is rejected, and nothing is written. *)
Lemma upsert_rejected (db : table) a b c :
  rowid a = false ->
  settle db (run_upsert db c a b) = (Rejected (Error datatype_mismatch), db).
Proof. intros Ha. by rewrite run_upsert_refused. Qed.

(** On a table whose columns hold no value twice, a lookup finds the row
    that holds the value, and answers its canonical id as a double. *)
Lemma getFromDatabase_holder (db : table) externalId source c holder :
  column_of source = Some c ->
  unique_columns db ->
  holder ∈ holders db c (affinity c (BText externalId)) ->
  getFromDatabase externalId source db = (Resolved (Some (round53 holder)), db).
Proof.
  intros Hc Huniq Hin. unfold getFromDatabase. rewrite Hc.
  unfold gets. f_equal. f_equal.
  rewrite (head_only _ holder); [done | done |].
  intros y Hy. by apply (holders_unique db c (affinity c (BText externalId))).
Qed.

(** X6: after [cacheToDatabase(anilistId, externalId, source)], for a
    canonical id that is a rowid and on a table whose columns hold no value
    twice, [getFromDatabase(externalId, source)] finds a row and answers its
    canonical id (as the double a row hands over): the one just written,
    unless another row held the value already; then it finds that row, and
    the table is as it was.  The value is what the column stores for the
    text: [7] and [007] are one value of a numeric column. *)
Theorem stored_mapping_is_found
    (db : gmap Z row) (anilistId : Z) (externalId source : string) (c : column) :
  unique_columns db ->
  column_of source = Some c ->
  rowid anilistId = true ->
  let v := affinity c (BText externalId) in
  let db' := (cacheToDatabase anilistId (Some externalId) source db).2 in
  exists holder,
    getFromDatabase externalId source db' = (Resolved (Some (round53 holder)), db')
    /\ (taken_elsewhere db c (Some v) anilistId = false -> holder = anilistId)
    /\ (holder <> anilistId -> db' = db /\ holder ∈ holders db c v).
Proof.
  intros Huniq Hc Ha v db'. subst v db'. unfold cacheToDatabase. rewrite Hc.
  cbn [fmap option_fmap option_map].
  destruct (upsert_table db anilistId (BText externalId) c Ha)
    as [_ [[-> [(r & Hrow & Hcol) | Htaken]] | [-> Hfree]]].
  - exists anilistId. split; [|done].
    apply (getFromDatabase_holder _ _ _ c); [done..|].
    apply elem_of_holders. eauto.
  - apply taken_elsewhere_true in Htaken as Hother.
    destruct Hother as (a' & r & Hne & Hrow & Hcol).
    exists a'. split; [|split].
    + apply (getFromDatabase_holder _ _ _ c); [done..|].
      apply elem_of_holders. eauto.
    + congruence.
    + intros _. split; [done|]. apply elem_of_holders. eauto.
  - exists anilistId. split; [|done].
    apply (getFromDatabase_holder _ _ _ c); [done | |].
    + by apply upsert_keeps_unique.
    + apply elem_of_holders. eexists. split; [apply lookup_insert_eq|].
      apply col_set_col.
Qed.

Lemma stored_mapping_is_found_witness :
  let db : gmap Z row := {[ 42 := set_col kitsu (Some (VInt 7)) empty_row ]} in
  let v := affinity kitsu (BText "007") in
  let db' := (cacheToDatabase 43 (Some "007") "kitsu" db).2 in
  exists holder,
    getFromDatabase "007" "kitsu" db' = (Resolved (Some (round53 holder)), db')
    /\ (taken_elsewhere db kitsu (Some v) 43 = false -> holder = 43)
    /\ (holder <> 43 -> db' = db /\ holder ∈ holders db kitsu v).
Proof.
  intros db.
  apply (stored_mapping_is_found db 43 "007" "kitsu" kitsu); [|reflexivity..].
  intros c a1 a2 r1 r2 v Hr1 Hr2 _ _.
  apply lookup_singleton_Some in Hr1 as [<- _], Hr2 as [<- _]. reflexivity.
Defined.

(** X7: a whole number written by [cacheExternalIdToDb] to one of the numeric
    columns, for a canonical id that is a rowid and when no other row holds
    the number, is what [getExternalIdFromDb] reads back for that canonical
    id (as the double a row hands over), whatever the cell held before; and
    on a table whose columns hold no value twice, [getFromDatabase] maps the
    digits of the number, for every number JavaScript holds (a finite
    double), back to the canonical id.  For a canonical id that is no rowid
    the call is rejected and nothing is written. *)
Theorem external_id_round_trip
    (db : gmap Z row) (anilistId n : Z) (source : string) (c : column) :
  column_of source = Some c ->
  c <> imdb ->
  taken_elsewhere db c (Some (VInt n)) anilistId = false ->
  let out := cacheExternalIdToDb anilistId (ENum n) source db in
  if rowid anilistId then
    out.1 = Resolved tt
    /\ getExternalIdFromDb anilistId source out.2
       = (Resolved (Some (ENum (round53 n))), out.2)
    /\ (unique_columns db -> round53 n = n -> Z.abs n < 2 ^ 1024 ->
        getFromDatabase (string_of_Z n) source out.2
        = (Resolved (Some (round53 anilistId)), out.2))
  else out = (Rejected (Error datatype_mismatch), db).
Proof.
  intros Hc Himdb Hfree out. subst out. unfold cacheExternalIdToDb. rewrite Hc.
  destruct (rowid anilistId) eqn:Ha; [|by apply upsert_rejected].
  destruct (upsert_table db anilistId (binding (ENum n)) c Ha) as [Hok Htable].
  rewrite affinity_number in Htable by done.
  set (out := settle db _) in *.
  assert (Hcell : out.2 !! anilistId ≫= col c = Some (VInt n)).
  { destruct Htable as [[-> [(r & Hrow & Hcol) | Htaken]] | [-> _]].
    - by rewrite Hrow.
    - congruence.
    - rewrite lookup_insert_eq. cbn [mbind option_bind]. apply col_set_col. }
  split; [done|]. split.
  - unfold getExternalIdFromDb. rewrite Hc. unfold gets. by rewrite Hcell.
  - intros Huniq Hround Hfinite. apply (getFromDatabase_holder _ _ _ c); [done | |].
    + destruct Htable as [[-> _] | [-> _]]; [done | by apply upsert_keeps_unique].
    + rewrite affinity_digits by done. apply elem_of_holders.
      destruct (out.2 !! anilistId) as [r|] eqn:Hrow; [|done]. eauto.
Qed.

Lemma external_id_round_trip_witness :
  let db : gmap Z row := {[ 42 := set_col thetvdb (Some (VInt 81797)) empty_row ]} in
  let out := cacheExternalIdToDb 42 (ENum 259640) "thetvdb" db in
  out.1 = Resolved tt
  /\ getExternalIdFromDb 42 "thetvdb" out.2 = (Resolved (Some (ENum (round53 259640))), out.2)
  /\ (unique_columns db -> round53 259640 = 259640 -> Z.abs 259640 < 2 ^ 1024 ->
      getFromDatabase "259640" "thetvdb" out.2 = (Resolved (Some (round53 42)), out.2)).
Proof.
  intros db.
  apply (external_id_round_trip db 42 259640 "thetvdb" thetvdb);
    [reflexivity | discriminate | reflexivity].
Defined.

(** X8: an upsert by [cacheToDatabase] or [cacheExternalIdToDb] changes no
    cell but the one it names: for every other canonical id or column,
    [getExternalIdFromDb] reads what it read before. *)
Theorem upsert_writes_one_cell
    (db : gmap Z row) (anilistId other : Z) (externalId : string) (v : extval)
    (source target : string) :
  other <> anilistId \/ column_of target <> column_of source ->
  (getExternalIdFromDb other target
     (cacheToDatabase anilistId (Some externalId) source db).2).1
  = (getExternalIdFromDb other target db).1
  /\ (getExternalIdFromDb other target
        (cacheExternalIdToDb anilistId v source db).2).1
     = (getExternalIdFromDb other target db).1.
Proof.
  intros Hcell.
  assert (Hone : forall c b, column_of source = Some c ->
            (getExternalIdFromDb other target
               (settle db (run_upsert db c anilistId (Some b))).2).1
            = (getExternalIdFromDb other target db).1).
  { intros c b Hc. destruct (rowid anilistId) eqn:Ha; [|by rewrite upsert_rejected].
    destruct (upsert_table db anilistId b c Ha) as [_ [[-> _] | [-> _]]]; [done|].
    unfold getExternalIdFromDb.
    destruct (column_of target) as [c'|]; [|done]. unfold gets. cbn [fst].
    do 2 f_equal.
    destruct (decide (other = anilistId)) as [->|Hne].
    - rewrite lookup_insert_eq. cbn [mbind option_bind].
      rewrite col_set_col_ne by (destruct Hcell; congruence).
      destruct (db !! anilistId); [done | by destruct c'].
    - by rewrite lookup_insert_ne. }
  unfold cacheToDatabase, cacheExternalIdToDb.
  destruct (column_of source) as [c|] eqn:Hc; [|done]. split; by apply Hone.
Qed.

Lemma upsert_writes_one_cell_witness :
  let db : gmap Z row := {[ 42 := set_col kitsu (Some (VInt 7)) empty_row ]} in
  (getExternalIdFromDb 42 "kitsu" (cacheToDatabase 42 (Some "81797") "thetvdb" db).2).1
  = (getExternalIdFromDb 42 "kitsu" db).1
  /\ (getExternalIdFromDb 42 "kitsu"
        (cacheExternalIdToDb 42 (ENum 81797) "thetvdb" db).2).1
     = (getExternalIdFromDb 42 "kitsu" db).1.
Proof.
  intros db.
  apply (upsert_writes_one_cell db 42 42 "81797" (ENum 81797) "thetvdb" "kitsu").
  right. discriminate.
Defined.

(** [cacheExternalIdToDb] on a column of the table, for a canonical id that
    is a rowid, does not reject; for any other it rejects and writes
    nothing. *)
Lemma cacheExternalIdToDb_resolves (db : table) a v source c :
  column_of source = Some c ->
  rowid a = true ->
  (cacheExternalIdToDb a v source db).1 = Resolved tt.
Proof.
  intros Hc Ha. unfold cacheExternalIdToDb. rewrite Hc.
  by destruct (upsert_table db a (binding v) c Ha) as [-> _].
Qed.

Lemma cacheExternalIdToDb_rejects (db : table) a v source c :
  column_of source = Some c ->
  rowid a = false ->
  cacheExternalIdToDb a v source db = (Rejected (Error datatype_mismatch), db).
Proof.
  intros Hc Ha. unfold cacheExternalIdToDb. rewrite Hc. by apply upsert_rejected.
Qed.

(** X9: [cacheExternalIdToDb] twice with the same arguments is
    [cacheExternalIdToDb] once: the second call answers as the first did and
    leaves the table the first left. *)
Theorem external_upsert_is_idempotent
    (db : gmap Z row) (anilistId : Z) (externalId : extval) (targetSource : string) :
  let '(r, db1) := cacheExternalIdToDb anilistId externalId targetSource db in
  cacheExternalIdToDb anilistId externalId targetSource db1 = (r, db1).
Proof.
  unfold cacheExternalIdToDb. destruct (column_of targetSource) as [c|]; [|done].
  apply run_upsert_idempotent.
Qed.

(** What the table hands back for the texts of one number, and for a
    number stored as text in the imdb column. *)
Example stored_values_read_back :
  let db1 := (cacheToDatabase 1 (Some "007") "thetvdb" ∅).2 in
  let db2 := (cacheToDatabase 1 (Some "1e2") "thetvdb" ∅).2 in
  let db3 := (cacheToDatabase 1 (Some "7.5") "thetvdb" ∅).2 in
  let db4 := (cacheToDatabase 1 (Some "tt0245429") "thetvdb" ∅).2 in
  let db5 := (cacheToDatabase 1 (Some "9007199254740993") "thetvdb" ∅).2 in
  let db6 := (cacheExternalIdToDb 1 (ENum 3000000000) "imdb" ∅).2 in
  (getExternalIdFromDb 1 "thetvdb" db1).1 = Resolved (Some (ENum 7))
  /\ (getExternalIdFromDb 1 "thetvdb" db2).1 = Resolved (Some (ENum 100))
  /\ (getExternalIdFromDb 1 "thetvdb" db3).1 = Resolved (Some (EReal (Frac 15 1)))
  /\ (getExternalIdFromDb 1 "thetvdb" db4).1 = Resolved (Some (EText "tt0245429"))
  /\ (getExternalIdFromDb 1 "thetvdb" db5).1 = Resolved (Some (ENum 9007199254740992))
  /\ (getExternalIdFromDb 1 "imdb" db6).1 = Resolved (Some (EText "3000000000.0")).
Proof. vm_compute. repeat split. Qed.

End SqliteRoundTrip.

(** ** Reverse id resolution *)

Section LruMore.
Context {V : Type}.
Implicit Types (c : Lru.t V) (l : list (Lru.entry V)).

(** A repeated hit hands out the same value. *)
Lemma hit_twice c now key :
  Lru.has c now key = true ->
  Lru.has (Lru.get c now key).2 now key = true
  /\ (Lru.get (Lru.get c now key).2 now key).1 = (Lru.get c now key).1.
Proof.
  intros (e & Hfind & Hlive)%has_true.
  destruct (get_live c now key e 0 Hfind Hlive) as (_ & Hget & Hfind' & Httl & _).
  rewrite Hfind in Hfind'.
  assert (Hlive' : Lru.is_stale (Lru.get c now key).2 now e = false).
  { unfold Lru.is_stale in *. by rewrite Httl. }
  destruct (get_live _ now key e 0 Hfind' Hlive') as (Hhas & Hget' & _).
  by rewrite Hget, Hget'.
Qed.

Lemma max_set c now k v : Lru.max (Lru.set c now k v) = Lru.max c.
Proof. unfold Lru.set. by destruct (Lru.find k (Lru.items c)). Qed.

(** A cache that holds more than one entry keeps the entry set last when
    another key is set. *)
Lemma set_keeps_front c now now' k k' v v' :
  k <> k' ->
  Lru.max c <> 1%N ->
  Lru.find k (Lru.items (Lru.set (Lru.set c now k v) now' k' v'))
  = Some {| Lru.e_key := k; Lru.e_val := v; Lru.e_start := now |}.
Proof.
  intros Hne Hmax.
  destruct (items_set c now k v) as [l Hitems].
  set (c1 := Lru.set c now k v) in *.
  assert (Hmax1 : Lru.max c1 <> 1%N) by (subst c1; by rewrite max_set).
  unfold Lru.set at 1.
  destruct (Lru.find k' (Lru.items c1)) as [e|]; cbn [Lru.items Lru.with_items].
  - rewrite find_cons_ne by (simpl; congruence). rewrite find_remove_ne by done.
    rewrite Hitems. unfold Lru.find. simpl. by rewrite String.eqb_refl.
  - rewrite find_cons_ne by (simpl; congruence). unfold Lru.evict. rewrite Hitems.
    destruct ((0 <? Lru.max c1)%N && (Lru.max c1 <=? N.of_nat (length (_ :: l)))%N)
      eqn:Hfull.
    + destruct l as [|e' l'].
      * apply andb_true_iff in Hfull as [Hpos Hle].
        apply N.ltb_lt in Hpos. apply N.leb_le in Hle. simpl in Hle. lia.
      * cbn [removelast]. unfold Lru.find. simpl. by rewrite String.eqb_refl.
    + unfold Lru.find. simpl. by rewrite String.eqb_refl.
Qed.

End LruMore.

Section ExternalIdFacts.
Import Sqlite SqliteReverse ExternalId.
#[local] Arguments String.eqb : simpl never.
#[local] Arguments Lru.set : simpl never.
#[local] Arguments Lru.get : simpl never.
#[local] Arguments Lru.has : simpl never.
#[local] Arguments parseInt : simpl never.
#[local] Arguments string_of_Z : simpl never.
#[local] Arguments Z.eqb : simpl never.
#[local] Arguments stored_value : simpl never.
#[local] Arguments cacheExternalIdToDb : simpl never.
#[local] Arguments rowid : simpl never.

Ltac run_ext :=
  unfold mbind, mret, async_bind, async_ret, bind, ret, try_catch, gets, modify,
    throw, cache_set, cache_get, emit, on_db in *;
  simpl in *.

Lemma app_string_inj (p s t : string) : p ++ s = p ++ t -> s = t.
Proof. induction p as [|ch p IH]; [done|]. intros [= H]. by apply IH. Qed.

Lemma cacheKey_inj anilistId s t : cacheKey anilistId s = cacheKey anilistId t -> s = t.
Proof.
  unfold cacheKey. intros H%app_string_inj%app_string_inj. by injection H.
Qed.

(** One write-back: what it answers and the world it leaves.  The cache is
    set before the table is written, so a refused write leaves the cache
    entry behind. *)
Lemma remember_runs now anilistId id source c w :
  column_of source = Some c ->
  remember now anilistId id source w
  = match id with
    | Some n =>
        if n =? 0 then (Resolved tt, w)
        else
          (if rowid anilistId then Resolved tt else Rejected (Error datatype_mismatch),
           {| externalIdCache :=
                Lru.set (externalIdCache w) now (cacheKey anilistId source) (ENum n);
              ids := (cacheExternalIdToDb anilistId (ENum n) source (ids w)).2;
              log := (log w ++ written anilistId id source)%list |})
    | None => (Resolved tt, w)
    end.
Proof.
  intros Hc. unfold remember, written.
  destruct id as [n|]; [|done]. destruct (n =? 0); [done|]. run_ext.
  destruct (rowid anilistId) eqn:Ha.
  - pose proof (cacheExternalIdToDb_resolves (ids w) anilistId (ENum n) source c Hc Ha) as Hok.
    destruct (cacheExternalIdToDb _ _ _ _) as [r db']. simpl in *. subst r.
    by rewrite <- app_assoc.
  - rewrite !(cacheExternalIdToDb_rejects (ids w) anilistId (ENum n) source c Hc Ha).
    simpl. by rewrite <- app_assoc.
Qed.

Lemma getExternalId_hit now arm anilistId targetSource w :
  Lru.has (externalIdCache w) now (cacheKey anilistId targetSource) = true ->
  getExternalId now arm anilistId targetSource w
  = (Resolved (Lru.get (externalIdCache w) now (cacheKey anilistId targetSource)).1,
     {| externalIdCache :=
          (Lru.get (externalIdCache w) now (cacheKey anilistId targetSource)).2;
        ids := ids w; log := log w |}).
Proof.
  intros Hhit. unfold getExternalId. run_ext. rewrite Hhit.
  by destruct (Lru.get _ _ _).
Qed.

Lemma getExternalId_db now arm anilistId targetSource w v :
  Lru.has (externalIdCache w) now (cacheKey anilistId targetSource) = false ->
  db_tier w anilistId targetSource = Some v ->
  getExternalId now arm anilistId targetSource w
  = (Resolved (Some v),
     {| externalIdCache :=
          Lru.set (externalIdCache w) now (cacheKey anilistId targetSource) v;
        ids := ids w;
        log := (log w ++ [DbRead; CacheSet (cacheKey anilistId targetSource) v])%list |}).
Proof.
  intros Hmiss Hdb. unfold getExternalId, db_tier, getExternalIdFromDb in *.
  run_ext. rewrite Hmiss.
  destruct (column_of targetSource) as [c|]; [|done]. run_ext.
  destruct (stored_value <$> _) as [v0|]; [|done]. simpl in *.
  destruct (ext_truthy v0); [|done]. simplify_eq. simpl.
  by rewrite <- app_assoc.
Qed.

(** The ARM tier: its answer, its effects, and the cache and the table it
    leaves.  A refused write-back ends the call with [null]. *)
Lemma getExternalId_arm now arm anilistId targetSource w :
  Lru.has (externalIdCache w) now (cacheKey anilistId targetSource) = false ->
  db_tier w anilistId targetSource = None ->
  exists w',
    getExternalId now arm anilistId targetSource w
    = (Resolved (arm_tier anilistId arm targetSource), w')
    /\ log w' = (log w ++ DbRead :: ArmRequest :: arm_writes anilistId arm)%list
    /\ match arm with
       | IdMapping.AxiosOk (Some data) =>
           let w1 := {| externalIdCache := externalIdCache w; ids := ids w;
                        log := ((log w ++ [DbRead]) ++ [ArmRequest])%list |} in
           let w2 := (remember now anilistId (arm_thetvdb data) "thetvdb" w1).2 in
           if rowid anilistId || negb (reported (arm_thetvdb data))
           then w' = (remember now anilistId (arm_themoviedb data) "themoviedb" w2).2
           else w' = w2
       | _ => externalIdCache w' = externalIdCache w /\ ids w' = ids w
       end.
Proof.
  intros Hmiss Hdb. unfold getExternalId.
  unfold mbind at 1, async_bind at 1, bind at 1, gets at 1. rewrite Hmiss.
  assert (Hfirst : forall w0 : world, w0 = w ->
            try_catch
              (emit DbRead ;;
               cachedId ← on_db (getExternalIdFromDb anilistId targetSource);
               match cachedId with
               | Some v =>
                   if ext_truthy v
                   then cache_set now (cacheKey anilistId targetSource) v ;; ret (Some v)
                   else ret None
               | None => ret None
               end)
              (fun _ => ret None) w0
            = (Resolved None,
               {| externalIdCache := externalIdCache w; ids := ids w;
                  log := (log w ++ [DbRead])%list |})).
  { intros w0 ->. unfold db_tier, getExternalIdFromDb in *. run_ext.
    destruct (column_of targetSource) as [c|]; [|done]. run_ext.
    destruct (stored_value <$> _) as [v0|]; [|done]. simpl in *.
    by destruct (ext_truthy v0). }
  unfold mbind at 1, async_bind at 1, bind at 1. rewrite (Hfirst w eq_refl).
  set (w1 := {| externalIdCache := externalIdCache w; ids := ids w;
                log := (log w ++ [DbRead])%list |}).
  clear Hfirst.
  destruct arm as [err|[data|]].
  - eexists. run_ext. split; [reflexivity|]. subst w1. simpl.
    split; [by rewrite <- app_assoc | done].
  - unfold try_catch, mbind at 1, async_bind at 1, bind at 1.
    unfold emit at 1, modify at 1.
    unfold mbind at 1, async_bind at 1, bind at 1.
    unfold arm_tier, arm_writes, refused. cbv zeta.
    subst w1. cbn [externalIdCache ids log].
    set (w1 := {| externalIdCache := externalIdCache w; ids := ids w;
                  log := ((log w ++ [DbRead]) ++ [ArmRequest])%list |}).
    rewrite (remember_runs _ _ _ "thetvdb" thetvdb) by done.
    destruct (arm_thetvdb data) as [t|] eqn:Htvdb; cbn [reported];
      [destruct (t =? 0) eqn:Ht; cbn [negb] |].
    + (* thetvdb is 0 *)
      rewrite orb_true_r. cbn [snd orb].
      unfold mbind at 1, async_bind at 1, bind at 1.
      rewrite (remember_runs _ _ _ "themoviedb" themoviedb) by done.
      destruct (arm_themoviedb data) as [m|] eqn:Htmdb; cbn [reported];
        [destruct (m =? 0) eqn:Hm; cbn [negb] |].
      * rewrite andb_false_r. eexists. split; [reflexivity|]. subst w1. cbn [log written].
        rewrite Ht, Hm. cbn [app]. split; [by rewrite <- app_assoc | done].
      * destruct (rowid anilistId); cbn [negb andb];
          (eexists; split; [reflexivity|]); subst w1; cbn [log written snd];
          rewrite Ht, Hm; cbn [app]; (split; [by rewrite <- !app_assoc | done]).
      * rewrite andb_false_r. eexists. split; [reflexivity|]. subst w1. cbn [log written].
        rewrite Ht. cbn [app]. split; [by rewrite <- app_assoc | done].
    + (* thetvdb is reported *)
      rewrite orb_false_r. cbn [orb]. rewrite andb_true_r.
      destruct (rowid anilistId) eqn:Ha; cbn [negb snd].
      * unfold mbind at 1, async_bind at 1, bind at 1.
        rewrite (remember_runs _ _ _ "themoviedb" themoviedb) by done.
        rewrite Ha.
        destruct (arm_themoviedb data) as [m|] eqn:Htmdb;
          [destruct (m =? 0) eqn:Hm |];
          (eexists; split; [reflexivity|]); subst w1; cbn [log written snd];
          rewrite ?Ht, ?Hm; cbn [app]; (split; [by rewrite <- !app_assoc | done]).
      * eexists. split; [reflexivity|]. subst w1. cbn [log written snd].
        rewrite Ht. split; [by rewrite <- !app_assoc | done].
    + (* thetvdb is missing *)
      rewrite orb_true_r. cbn [snd orb].
      unfold mbind at 1, async_bind at 1, bind at 1.
      rewrite (remember_runs _ _ _ "themoviedb" themoviedb) by done.
      destruct (arm_themoviedb data) as [m|] eqn:Htmdb; cbn [reported];
        [destruct (m =? 0) eqn:Hm; cbn [negb] |].
      * rewrite andb_false_r. eexists. split; [reflexivity|]. subst w1. cbn [log written].
        rewrite Hm. cbn [app]. split; [by rewrite <- app_assoc | done].
      * destruct (rowid anilistId); cbn [negb andb];
          (eexists; split; [reflexivity|]); subst w1; cbn [log written snd];
          rewrite Hm; cbn [app]; (split; [by rewrite <- !app_assoc | done]).
      * rewrite andb_false_r. eexists. split; [reflexivity|]. subst w1. cbn [log written].
        cbn [app]. split; [by rewrite <- app_assoc | done].
  - eexists. run_ext. split; [reflexivity|]. subst w1. simpl.
    split; [by rewrite <- app_assoc | done].
Qed.

(** X10: [getExternalId] never rejects, and answers from the first tier that
    has something: the in-memory cache (nothing else is touched); else the
    table, whose value is put in the cache; else the ARM service, whose
    thetvdb and themoviedb ids are both written to the cache and to the table,
    whichever scheme was asked for, and whose field for the scheme asked for
    is returned as it is. A failed table read or ARM request gives [null]; so
    does a write-back the table refuses (a canonical id that is no rowid),
    which ends the call after the cache was set. *)
Theorem getExternalId_consults_tiers_in_order
    (now : Z) (arm : IdMapping.axios (option armIds)) (anilistId : Z)
    (targetSource : string) (w : world) :
  let key := cacheKey anilistId targetSource in
  exists w',
    getExternalId now arm anilistId targetSource w
    = (Resolved (if Lru.has (externalIdCache w) now key
                 then (Lru.get (externalIdCache w) now key).1
                 else match db_tier w anilistId targetSource with
                      | Some v => Some v
                      | None => arm_tier anilistId arm targetSource
                      end), w')
    /\ effects_of w w'
       = if Lru.has (externalIdCache w) now key then []
         else DbRead :: match db_tier w anilistId targetSource with
                        | Some v => [CacheSet key v]
                        | None => ArmRequest :: arm_writes anilistId arm
                        end.
Proof.
  intros key. subst key. unfold effects_of.
  destruct (Lru.has (externalIdCache w) now (cacheKey anilistId targetSource)) eqn:Hhas.
  - rewrite getExternalId_hit by done. eexists. split; [reflexivity|].
    cbn [log]. by rewrite drop_all.
  - destruct (db_tier w anilistId targetSource) as [v|] eqn:Hdb.
    + rewrite (getExternalId_db _ _ _ _ _ v) by done. eexists. split; [reflexivity|].
      cbn [log]. by rewrite drop_app_length.
    + destruct (getExternalId_arm now arm anilistId targetSource w Hhas Hdb)
        as (w' & -> & Hlog & _).
      exists w'. split; [reflexivity|]. by rewrite Hlog, drop_app_length.
Qed.

(** X11: once a call of [getExternalId] has reached the ARM service and got
    both ids, a call for thetvdb at the same clock reading is answered from
    the cache, with no table read and no request, whichever scheme the first
    call asked for; so is a call for themoviedb when the canonical id is a
    rowid (for any other the first call ended at the refused write of the
    thetvdb id). *)
Theorem arm_answer_serves_both_schemes
    (now : Z) (arm arm' : IdMapping.axios (option armIds)) (anilistId : Z)
    (targetSource : string) (w : world) (tvdb tmdb : Z) :
  0 <= Lru.ttl (externalIdCache w) ->
  Lru.max (externalIdCache w) <> 1%N ->
  Lru.has (externalIdCache w) now (cacheKey anilistId targetSource) = false ->
  db_tier w anilistId targetSource = None ->
  arm = IdMapping.AxiosOk (Some {| arm_thetvdb := Some tvdb; arm_themoviedb := Some tmdb |}) ->
  tvdb <> 0 -> tmdb <> 0 ->
  let w1 := (getExternalId now arm anilistId targetSource w).2 in
  (exists w2,
     getExternalId now arm' anilistId "thetvdb" w1 = (Resolved (Some (ENum tvdb)), w2)
     /\ log w2 = log w1 /\ ids w2 = ids w1)
  /\ (rowid anilistId = true ->
      exists w2,
        getExternalId now arm' anilistId "themoviedb" w1 = (Resolved (Some (ENum tmdb)), w2)
        /\ log w2 = log w1 /\ ids w2 = ids w1).
Proof.
  intros Httl Hmax Hmiss Hdb -> Htvdb Htmdb w1.
  destruct (getExternalId_arm now
              (IdMapping.AxiosOk (Some {| arm_thetvdb := Some tvdb;
                                          arm_themoviedb := Some tmdb |}))
              anilistId targetSource w Hmiss Hdb)
    as (w' & Hcall & _ & Hworld).
  subst w1. rewrite Hcall. cbn [snd]. clear Hcall.
  cbv zeta in Hworld. cbn [arm_thetvdb arm_themoviedb reported] in Hworld.
  rewrite (remember_runs _ _ _ "thetvdb" thetvdb) in Hworld by done.
  destruct (Z.eqb_spec tvdb 0); [done|]. cbn [negb snd] in Hworld.
  rewrite orb_false_r in Hworld.
  set (k1 := cacheKey anilistId "thetvdb") in *.
  set (k2 := cacheKey anilistId "themoviedb") in *.
  assert (Hk : k1 <> k2) by (intros Hk%cacheKey_inj; done).
  set (c1 := Lru.set (externalIdCache w) now k1 (ENum tvdb)).
  set (c2 := Lru.set c1 now k2 (ENum tmdb)).
  assert (Hserved : forall source id,
            Lru.has (externalIdCache w') now (cacheKey anilistId source) = true ->
            (Lru.get (externalIdCache w') now (cacheKey anilistId source)).1
            = Some (ENum id) ->
            exists w2,
              getExternalId now arm' anilistId source w' = (Resolved (Some (ENum id)), w2)
              /\ log w2 = log w' /\ ids w2 = ids w').
  { intros source id Hhas Hget.
    eexists. rewrite getExternalId_hit by done. rewrite Hget.
    split; [reflexivity | done]. }
  destruct (rowid anilistId) eqn:Ha.
  - rewrite (remember_runs _ _ _ "themoviedb" themoviedb) in Hworld by done.
    destruct (Z.eqb_spec tmdb 0); [done|].
    cbn [snd externalIdCache ids log] in Hworld. fold c1 c2 in Hworld.
    assert (Hc2 : externalIdCache w' = c2) by (by rewrite Hworld).
    split; [|intros _]; apply Hserved; rewrite Hc2.
    + pose proof (set_keeps_front (externalIdCache w) now now k1 k2 (ENum tvdb)
                    (ENum tmdb) Hk Hmax) as Hfind.
      fold c1 c2 in Hfind.
      assert (Hlive : Lru.is_stale c2 now
                        {| Lru.e_key := k1; Lru.e_val := ENum tvdb; Lru.e_start := now |}
                      = false).
      { apply fresh_not_stale. right. subst c2 c1. rewrite !ttl_set. lia. }
      by destruct (get_live c2 now k1 _ 0 Hfind Hlive) as (? & ? & _).
    + pose proof (set_keeps_front (externalIdCache w) now now k1 k2 (ENum tvdb)
                    (ENum tmdb) Hk Hmax) as Hfind.
      fold c1 c2 in Hfind.
      assert (Hlive : Lru.is_stale c2 now
                        {| Lru.e_key := k1; Lru.e_val := ENum tvdb; Lru.e_start := now |}
                      = false).
      { apply fresh_not_stale. right. subst c2 c1. rewrite !ttl_set. lia. }
      by destruct (get_live c2 now k1 _ 0 Hfind Hlive) as (? & ? & _).
    + subst c2. apply has_get_set. subst c1. by rewrite ttl_set.
    + subst c2. apply has_get_set. subst c1. by rewrite ttl_set.
  - cbn [snd externalIdCache ids log] in Hworld. fold c1 in Hworld.
    assert (Hc1 : externalIdCache w' = c1) by (by rewrite Hworld).
    split; [|done]. apply Hserved; rewrite Hc1; subst c1; by apply has_get_set.
Qed.

Lemma arm_answer_serves_both_schemes_witness :
  let arm := IdMapping.AxiosOk (Some {| arm_thetvdb := Some 81797;
                                         arm_themoviedb := Some 37854 |}) in
  let down := IdMapping.AxiosError (Error "timeout of 5000ms exceeded") in
  let w1 := (getExternalId 0 arm 21 "thetvdb" fresh_world).2 in
  (exists w2,
     getExternalId 0 down 21 "thetvdb" w1 = (Resolved (Some (ENum 81797)), w2)
     /\ log w2 = log w1 /\ ids w2 = ids w1)
  /\ (exists w2,
        getExternalId 0 down 21 "themoviedb" w1 = (Resolved (Some (ENum 37854)), w2)
        /\ log w2 = log w1 /\ ids w2 = ids w1).
Proof.
  intros arm down.
  destruct (arm_answer_serves_both_schemes 0 arm down 21 "thetvdb" fresh_world 81797 37854)
    as [Htvdb Htmdb];
    [simpl; lia | discriminate | reflexivity | reflexivity | reflexivity
    | discriminate | discriminate |].
  split; [exact Htvdb | exact (Htmdb eq_refl)].
Defined.

(** A canonical id beyond the rowids: the ARM answer is put in the cache,
    the table refuses the write, and the call answers [null]; the next call
    is answered from the cache. *)
Example refused_write_answers_null :
  let arm := IdMapping.AxiosOk (Some {| arm_thetvdb := Some 81797;
                                         arm_themoviedb := Some 37854 |}) in
  let '(r1, w1) := getExternalId 0 arm (10 ^ 19) "thetvdb" fresh_world in
  let '(r2, w2) := getExternalId 0 arm (10 ^ 19) "thetvdb" w1 in
  r1 = Resolved None /\ r2 = Resolved (Some (ENum 81797))
  /\ effects_of fresh_world w1
     = [DbRead; ArmRequest; CacheSet (cacheKey (10 ^ 19) "thetvdb") (ENum 81797);
        DbWrite (10 ^ 19) (ENum 81797) "thetvdb"]
  /\ ids w1 = ∅ /\ effects_of w1 w2 = [].
Proof. vm_compute. repeat split. Qed.

End ExternalIdFacts.

(** ** Logo lookup *)

Section LruItems.
Context {V : Type}.
Implicit Types (c : Lru.t V) (l : list (Lru.entry V)).

Lemma elem_of_removelast {A} (x : A) (l : list A) : x ∈ removelast l -> x ∈ l.
Proof.
  induction l as [|y l IH]; [done|]. cbn [removelast].
  destruct l as [|z l]; [by intros ?%elem_of_nil|].
  intros [->|Hin]%elem_of_cons; [by left | right; by apply IH].
Qed.

Lemma elem_of_remove (x : Lru.entry V) k l : x ∈ Lru.remove k l -> x ∈ l.
Proof. unfold Lru.remove. rewrite !list_elem_of_In. by intros [? _]%filter_In. Qed.

(** [set] adds its entry and nothing else. *)
Lemma elem_of_items_set c now k v (x : Lru.entry V) :
  x ∈ Lru.items (Lru.set c now k v) ->
  x = {| Lru.e_key := k; Lru.e_val := v; Lru.e_start := now |} \/ x ∈ Lru.items c.
Proof.
  unfold Lru.set. destruct (Lru.find k (Lru.items c)); cbn [Lru.items Lru.with_items];
    intros [->|Hin]%elem_of_cons; try (by left); right.
  - by eapply elem_of_remove.
  - unfold Lru.evict in Hin. destruct (_ && _); [by apply elem_of_removelast | done].
Qed.

(** [get] adds nothing. *)
Lemma elem_of_items_get c now k (x : Lru.entry V) :
  x ∈ Lru.items (Lru.get c now k).2 -> x ∈ Lru.items c.
Proof.
  unfold Lru.get. destruct (Lru.find k (Lru.items c)) as [e|] eqn:Hfind; [|done].
  destruct (Lru.is_stale c now e); cbn [snd Lru.items Lru.with_items Lru.delete].
  - apply elem_of_remove.
  - intros [->|Hin]%elem_of_cons; [|by eapply elem_of_remove].
    unfold Lru.find in Hfind. apply find_some in Hfind as [Hin _].
    by apply list_elem_of_In.
Qed.

(** What [get] hands out is the value of an entry. *)
Lemma get_value c now k v :
  (Lru.get c now k).1 = Some v ->
  exists x, x ∈ Lru.items c /\ Lru.e_val x = v.
Proof.
  unfold Lru.get. destruct (Lru.find k (Lru.items c)) as [e|] eqn:Hfind; [|done].
  destruct (Lru.is_stale c now e); [done|]. intros [= <-].
  unfold Lru.find in Hfind. apply find_some in Hfind as [Hin _].
  exists e. split; [by apply list_elem_of_In | done].
Qed.

End LruItems.

Section LogoFetchFacts.
Import SqliteReverse LogoFetch.
#[local] Arguments String.eqb : simpl never.
#[local] Arguments Lru.set : simpl never.
#[local] Arguments Lru.get : simpl never.
#[local] Arguments Lru.has : simpl never.
#[local] Arguments string_of_Z : simpl never.
#[local] Arguments ExternalId.getExternalId : simpl never.
#[local] Arguments Logo.logoUrl : simpl never.
#[local] Arguments String.append : simpl never.

Ltac run_logo :=
  unfold mbind, mret, async_bind, async_ret, bind, ret, try_catch, gets, modify,
    throw, cache_set, cache_get, fetch, on_mapping in *;
  simpl in *.

Lemma getLogo_hit now e anilistId format w :
  Lru.has (logoCache w) now (cacheKey anilistId format) = true ->
  getLogo now e anilistId format w
  = (Resolved (mjoin (Lru.get (logoCache w) now (cacheKey anilistId format)).1),
     {| logoCache := (Lru.get (logoCache w) now (cacheKey anilistId format)).2;
        mapping := mapping w; fetched := fetched w |}).
Proof.
  intros Hhit. unfold getLogo. run_logo. rewrite Hhit.
  by destruct (Lru.get _ _ _).
Qed.

(** On a miss every path ends in [logoCache.set(cacheKey, url)] and
    [return url], and [url] is [null] or comes out of [logoUrl]. *)
Lemma getLogo_miss now e anilistId format w :
  Lru.has (logoCache w) now (cacheKey anilistId format) = false ->
  exists url mw urls,
    getLogo now e anilistId format w
    = (Resolved url,
       {| logoCache := Lru.set (logoCache w) now (cacheKey anilistId format) url;
          mapping := mw; fetched := urls |})
    /\ (url = None \/ exists hd normal, url = Logo.logoUrl hd normal).
Proof.
  intros Hmiss. unfold getLogo. run_logo. rewrite Hmiss.
  destruct (ExternalId.getExternalId _ _ _ _ _) as [[[v|]|err] mw]; simpl;
    try (by eauto 10).
  destruct (ext_truthy v); simpl; [|by eauto 10].
  destruct (str_truthy (FANART_API_KEY e)); simpl; [|by eauto 10].
  destruct (fanart_reply e _) as [err|[] status [data|err]]; simpl; try (by eauto 10).
  destruct (is_movie format); eauto 10.
Qed.

(** X12: [getLogo] never rejects, and whatever it answers, a logo or [null]
    (no mapping, no API key, a failed or empty fanart.tv answer), is in
    [logoCache] when it returns: the same call at the same clock reading gets
    the same answer with no id lookup and no fanart.tv request. *)
Theorem getLogo_outcome_is_cached
    (now : Z) (e e' : env) (anilistId : Z) (format : option string) (w : world) :
  0 <= Lru.ttl (logoCache w) ->
  exists url w1 w2,
    getLogo now e anilistId format w = (Resolved url, w1)
    /\ getLogo now e' anilistId format w1 = (Resolved url, w2)
    /\ mapping w2 = mapping w1 /\ fetched w2 = fetched w1.
Proof.
  intros Httl. set (key := cacheKey anilistId format).
  destruct (Lru.has (logoCache w) now key) eqn:Hhas.
  - destruct (hit_twice (logoCache w) now key Hhas) as [Hhas' Hget'].
    eexists _, _, _. rewrite getLogo_hit by done. split; [reflexivity|].
    rewrite getLogo_hit by done. cbn [logoCache mapping fetched]. fold key.
    by rewrite Hget'.
  - destruct (getLogo_miss now e anilistId format w Hhas) as (url & mw & urls & -> & _).
    destruct (has_get_set (logoCache w) now key url Httl) as [Hhas' Hget'].
    eexists _, _, _. split; [reflexivity|].
    rewrite getLogo_hit by done. cbn [logoCache mapping fetched]. fold key.
    by rewrite Hget'.
Qed.

Lemma getLogo_outcome_is_cached_witness :
  exists url w1 w2,
    getLogo 0 one_series 21 (Some "TV") fresh_world = (Resolved url, w1)
    /\ getLogo 0 one_series 21 (Some "TV") w1 = (Resolved url, w2)
    /\ mapping w2 = mapping w1 /\ fetched w2 = fetched w1.
Proof.
  apply (getLogo_outcome_is_cached 0 one_series one_series 21 (Some "TV") fresh_world).
  simpl. lia.
Defined.

(** X13: a logo URL [getLogo] returns never begins with [http:], and none it
    puts in [logoCache] does, provided none that was there did. *)
Theorem getLogo_keeps_https_only
    (now : Z) (e : env) (anilistId : Z) (format : option string) (w : world) :
  https_only w ->
  https_only (getLogo now e anilistId format w).2
  /\ forall u,
       (getLogo now e anilistId format w).1 = Resolved (Some u) ->
       startsWith u "http:" = false.
Proof.
  intros Hw. set (key := cacheKey anilistId format).
  destruct (Lru.has (logoCache w) now key) eqn:Hhas.
  - rewrite getLogo_hit by done. fold key. cbn [fst snd]. split.
    + intros x u Hin. apply Hw. cbn [logoCache] in Hin. by eapply elem_of_items_get.
    + intros u [= Hu]. destruct (Lru.get (logoCache w) now key).1 as [v|] eqn:Hget;
        [|done]. simpl in Hu. subst v.
      apply get_value in Hget as (x & Hin & Hval). by apply (Hw x).
  - destruct (getLogo_miss now e anilistId format w Hhas) as (url & mw & urls & -> & Hurl).
    assert (Hclean : forall u, url = Some u -> startsWith u "http:" = false).
    { intros u ->. destruct Hurl as [|(hd & normal & Hurl)]; [done|].
      by eapply logoUrl_never_http. }
    cbn [fst snd]. split; [|by intros u [= ->]; apply Hclean].
    intros x u Hin Hval. cbn [logoCache] in Hin.
    apply elem_of_items_set in Hin as [->|Hin]; [by apply Hclean | by apply (Hw x)].
Qed.

Lemma getLogo_keeps_https_only_witness :
  https_only (getLogo 0 one_series 21 (Some "TV") fresh_world).2
  /\ forall u,
       (getLogo 0 one_series 21 (Some "TV") fresh_world).1 = Resolved (Some u) ->
       startsWith u "http:" = false.
Proof.
  apply (getLogo_keeps_https_only 0 one_series 21 (Some "TV") fresh_world).
  intros x u Hin. by apply elem_of_nil in Hin.
Defined.

End LogoFetchFacts.

(** ** Catalog entries *)

Section CatalogFacts.
Import Catalog.
#[local] Arguments String.eqb : simpl never.
#[local] Arguments string_of_Z : simpl never.

Lemma append_empty_r (s : string) : s ++ "" = s.
Proof.
  induction s as [|c s IH]; [done|].
  change (String c (s ++ "") = String c s). by rewrite IH.
Qed.

Lemma append_nonempty_l (s t : string) : s <> "" -> s ++ t <> "".
Proof. by destruct s. Qed.

Lemma str_or_nonempty s d : d <> "" -> str_or s d <> "".
Proof.
  intros Hd. unfold str_or. destruct s as [s|]; [|done].
  by destruct (String.eqb_spec s "").
Qed.

Lemma int_truthy_Some n : int_truthy n = true -> exists y, n = Some y /\ y <> 0.
Proof.
  destruct n as [y|]; [|done]. simpl. intros Hy%negb_true_iff%Z.eqb_neq. eauto.
Qed.

Lemma getReleaseInfo_nonempty media : getReleaseInfo media <> "".
Proof.
  pose proof string_of_Z_nonempty as Hz.
  unfold getReleaseInfo. destruct media as [m|]; [|done].
  destruct (Media.startDate m) as [start|]; [|done]. cbv zeta.
  repeat match goal with
         | |- context [if ?b then _ else _] => destruct b
         end;
    try done; by apply append_nonempty_l.
Qed.

(** X14: the release text is never empty; when the start year is known it
    appears in the text, whatever the format and the status, and for a movie
    the text is that year alone. *)
Theorem getReleaseInfo_shows_the_start_year (media : option Media.t) :
  getReleaseInfo media <> ""
  /\ forall m start y,
       media = Some m -> Media.startDate m = Some start -> year start = Some y ->
       y <> 0 ->
       (exists before after, getReleaseInfo media = before ++ string_of_Z y ++ after)
       /\ (Media.format m = Some "MOVIE" -> getReleaseInfo media = string_of_Z y).
Proof.
  split; [apply getReleaseInfo_nonempty|].
  intros m start y -> Hstart Hyear Hy. unfold getReleaseInfo. rewrite Hstart, Hyear.
  cbv zeta. cbn [int_truthy default from_option id].
  destruct (Z.eqb_spec y 0); [done|]. cbn [negb].
  set (s := string_of_Z y).
  assert (Hplain : exists before after, s = before ++ s ++ after).
  { exists "", "". simpl. by rewrite append_empty_r. }
  split.
  - repeat match goal with
           | |- context [if ?b then _ else _] => destruct b
           end;
      try exact Hplain;
      first [ by exists "", " - Airing"
            | by eexists "", (" - " ++ _)
            | by exists "Coming ", ""; rewrite append_empty_r
            | by exists "Cancelled (", ")"
            | by eexists "On Hiatus (", (_ ++ ")")
            | idtac ].
  - intros ->. unfold equals. cbn [from_option]. by rewrite String.eqb_refl.
Qed.

Section WithHost.
Variable iso_date : Z -> Z -> Z -> option string.
Variable getLogo : Z -> option string -> option string.

(** X15: the release date is [null] exactly when the start year is missing (or
    zero). When the month or the day is missing, it does not depend on the
    host's [Date]: it is the year, followed by [-] and the month when there is
    one; a month from 1 to 12 is printed with two digits. *)
Theorem getReleasedDate_asks_the_host_for_full_dates_only
    (media : option Media.t) :
  (getReleasedDate iso_date media = None
   <-> forall start, media ≫= Media.startDate = Some start -> int_truthy (year start) = false)
  /\ forall start y,
       media ≫= Media.startDate = Some start -> year start = Some y -> y <> 0 ->
       int_truthy (month start) = false \/ int_truthy (day start) = false ->
       getReleasedDate iso_date media
       = Some (string_of_Z y
               ++ if int_truthy (month start)
                  then "-" ++ padStart2 (string_of_Z (default 0 (month start)))
                  else "")
       /\ (forall m, month start = Some m -> 1 <= m <= 12 ->
              String.length (padStart2 (string_of_Z m)) = 2%nat).
Proof.
  unfold getReleasedDate. split.
  - destruct (media ≫= Media.startDate) as [start|]; [|done].
    destruct (int_truthy (year start)) eqn:Hyear; cbn [negb].
    + split; [|by intros Hnone; rewrite (Hnone start eq_refl) in Hyear].
      destruct (int_truthy (month start)); [|done].
      destruct (int_truthy (day start)); [|done].
      by destruct (iso_date _ _ _).
    + split; [by intros _ ? [= <-] | done].
  - intros start y -> Hyear Hy Hpartial. rewrite Hyear. cbn [int_truthy default from_option id].
    destruct (Z.eqb_spec y 0); [done|]. cbn [negb]. split.
    + destruct (int_truthy (month start)) eqn:Hmonth.
      * destruct Hpartial as [|Hday]; [done|]. by rewrite Hday.
      * by rewrite append_empty_r.
    + intros m _ Hm.
      assert (Hcases : m = 1 \/ m = 2 \/ m = 3 \/ m = 4 \/ m = 5 \/ m = 6 \/ m = 7
                       \/ m = 8 \/ m = 9 \/ m = 10 \/ m = 11 \/ m = 12) by lia.
      repeat destruct Hcases as [->|Hcases]; try reflexivity. by subst.
Qed.

(** X16: [mapMediaToMeta] answers [null] exactly for a missing media or one
    without a (non-zero) id. A meta it builds has the id [anilist:<id>], the
    type [movie] for the format [MOVIE] and [series] for any other, a
    non-empty name and a non-empty release text, and the logo [getLogo]
    answered for that id and format. *)
Theorem mapMediaToMeta_is_well_formed (media : option Media.t) :
  match mapMediaToMeta iso_date getLogo media with
  | None => media = None \/ exists m, media = Some m /\ int_truthy (Media.id m) = false
  | Some meta =>
      exists m n,
        media = Some m /\ Media.id m = Some n /\ n <> 0
        /\ Meta.id meta = "anilist:" ++ string_of_Z n
        /\ Meta.type meta = (if bool_decide (Media.format m = Some "MOVIE")
                             then "movie" else "series")
        /\ Meta.name meta <> ""
        /\ Meta.releaseInfo meta <> ""
        /\ Meta.logo meta = getLogo n (Media.format m)
  end.
Proof.
  unfold mapMediaToMeta. destruct media as [m|]; [|by left].
  destruct (int_truthy (Media.id m)) eqn:Hid; cbn [negb]; [|right; eauto].
  apply int_truthy_Some in Hid as (n & Hn & Hne). rewrite Hn.
  cbn [default from_option id]. exists m, n.
  cbn [Meta.id Meta.type Meta.name Meta.releaseInfo Meta.logo].
  repeat split; try done.
  - unfold equals. destruct (Media.format m) as [f|]; cbn [from_option]; [|done].
    destruct (String.eqb_spec "MOVIE" f) as [<-|Hf].
    + by rewrite bool_decide_eq_true_2.
    + rewrite bool_decide_eq_false_2; [done | congruence].
  - do 2 apply str_or_nonempty. done.
  - apply getReleaseInfo_nonempty.
Qed.

Lemma catalog_case_handled catalogType :
  catalog_case catalogType = None <-> catalogType ∉ handled.
Proof.
  unfold catalog_case, handled.
  repeat match goal with
         | |- context [String.eqb catalogType ?s] =>
             destruct (String.eqb_spec catalogType s) as [->|?]
         end;
    (split; [intros Hnone | intros Hout]); try done;
    try (exfalso; apply Hout; rewrite !elem_of_cons; tauto).
  rewrite !elem_of_cons, elem_of_nil. tauto.
Qed.

Lemma metas_of_entries (entries : list (option Media.t)) :
  omap (fun meta => meta)
    (List.map (mapMediaToMeta iso_date getLogo) (List.filter present entries))
  = omap (mapMediaToMeta iso_date getLogo) entries.
Proof.
  induction entries as [|[m|] entries IH]; [done| |done].
  cbn [List.filter present List.map omap list_omap].
  by rewrite IH.
Qed.

Ltac run_catalog :=
  unfold mbind, mret, async_bind, async_ret, bind, ret, try_catch, getViewer, ask in *;
  simpl in *.

(** [getCatalog] in one piece. *)
Lemma getCatalog_unfold e catalogType w :
  getCatalog iso_date getLogo e catalogType w
  = match viewer_reply e with
    | Rejected err => (Rejected err, (w ++ [AskViewer])%list)
    | Resolved None => (Resolved [], (w ++ [AskViewer])%list)
    | Resolved (Some userId) =>
        match catalog_case catalogType with
        | None => (Resolved [], (w ++ [AskViewer])%list)
        | Some (statusFilter, sort) =>
            (Resolved
               match lists_reply e (list_variables userId sort) with
               | Resolved (Some lists) =>
                   omap (mapMediaToMeta iso_date getLogo) (entries_of statusFilter lists)
               | _ => []
               end,
             (w ++ [AskViewer; AskLists (list_variables userId sort)])%list)
        end
    end.
Proof.
  unfold getCatalog, getViewer, ask.
  unfold mbind, async_bind, bind, try_catch, mret, async_ret, ret.
  destruct (viewer_reply e) as [[userId|]|err]; try done.
  destruct (catalog_case catalogType) as [[statusFilter sort]|]; [|done].
  rewrite <- app_assoc. cbn [app].
  destruct (lists_reply e (list_variables userId sort)) as [[lists|]|err];
    cbn [from_option]; try done.
  by rewrite metas_of_entries.
Qed.

Lemma elem_of_entries_of statusFilter lists media :
  media ∈ entries_of statusFilter lists
  <-> exists l st,
        l ∈ lists /\ list_status l = Some st /\ st ∈ statusFilter
        /\ media ∈ entries l.
Proof.
  unfold entries_of. rewrite list_elem_of_In, in_flat_map. split.
  - intros (l & [Hl Hstatus]%filter_In & Hin).
    destruct (list_status l) as [st|] eqn:Hst; [|done]. cbn [from_option] in Hstatus.
    apply existsb_exists in Hstatus as (st' & Hst' & <-%String.eqb_eq).
    exists l, st. by rewrite !list_elem_of_In.
  - intros (l & st & Hl & Hst & Hsel & Hin). exists l.
    rewrite filter_In, <- !list_elem_of_In. repeat split; try done.
    rewrite Hst. cbn [from_option]. apply existsb_exists. exists st.
    rewrite <- list_elem_of_In. split; [done | apply String.eqb_refl].
Qed.

(** X17: the list request of [getCatalog] carries the user and the sort order,
    not the status: the statuses of the catalog are applied to the answer. A
    meta is in the catalog exactly when it is the meta of a media in a list
    with one of those statuses. *)
Theorem catalog_holds_the_lists_asked_for
    (e : env) (catalogType : string) (w : list asked)
    (userId : Z) (statusFilter : list string) (sort : json) (lists : list mediaList) :
  viewer_reply e = Resolved (Some userId) ->
  catalog_case catalogType = Some (statusFilter, sort) ->
  lists_reply e (list_variables userId sort) = Resolved (Some lists) ->
  exists metas,
    getCatalog iso_date getLogo e catalogType w
    = (Resolved metas, (w ++ [AskViewer; AskLists (list_variables userId sort)])%list)
    /\ forall meta,
         meta ∈ metas
         <-> exists l st m,
               l ∈ lists /\ list_status l = Some st /\ st ∈ statusFilter
               /\ Some m ∈ entries l
               /\ mapMediaToMeta iso_date getLogo (Some m) = Some meta.
Proof.
  intros Hviewer Hcase Hlists. rewrite getCatalog_unfold, Hviewer, Hcase, Hlists.
  eexists. split; [reflexivity|]. intros meta. rewrite list_elem_of_omap. split.
  - intros ([m|] & Hin & Hmeta); [|done].
    apply elem_of_entries_of in Hin as (l & st & ? & ? & ? & ?). eauto 10.
  - intros (l & st & m & ? & ? & ? & ? & Hmeta). exists (Some m). split; [|done].
    apply elem_of_entries_of. eauto 10.
Qed.

(** X18: for a catalog type without a case in the [switch], [getCatalog] asks
    for the viewer and nothing else and answers the empty list (or fails with
    the viewer request). [SEQUELS] and [ALLPOPULAR], which the manifest
    advertises, are such types. *)
Theorem unhandled_catalog_is_empty (e : env) (catalogType : string) (w : list asked) :
  catalogType ∉ handled ->
  getCatalog iso_date getLogo e catalogType w
  = (match viewer_reply e with
     | Resolved _ => Resolved []
     | Rejected err => Rejected err
     end, (w ++ [AskViewer])%list).
Proof.
  intros Hout%catalog_case_handled. rewrite getCatalog_unfold, Hout.
  by destruct (viewer_reply e) as [[userId|]|err].
Qed.

(** X19: [getCatalog] is rejected only when the viewer request is, and then
    with its error; a failed list request gives the empty catalog. *)
Theorem getCatalog_fails_with_the_viewer_only
    (e : env) (catalogType : string) (w : list asked) :
  match viewer_reply e with
  | Rejected err =>
      (getCatalog iso_date getLogo e catalogType w).1 = Rejected err
  | Resolved user =>
      exists metas,
        (getCatalog iso_date getLogo e catalogType w).1 = Resolved metas
        /\ (forall userId sort statusFilter err,
              user = Some userId ->
              catalog_case catalogType = Some (statusFilter, sort) ->
              lists_reply e (list_variables userId sort) = Rejected err ->
              metas = [])
  end.
Proof.
  rewrite getCatalog_unfold.
  destruct (viewer_reply e) as [[userId|]|err]; [| |done].
  - destruct (catalog_case catalogType) as [[statusFilter sort]|];
      (eexists; split; [reflexivity|]);
      intros ? ? ? ? [= <-] [=] Hlists; subst. by rewrite Hlists.
  - eexists. split; [reflexivity|]. by intros.
Qed.

End WithHost.

Lemma getReleaseInfo_shows_the_start_year_witness :
  let media :=
    Some {| Media.id := Some 21; Media.format := Some "TV";
            Media.status := Some "FINISHED";
            Media.title := None; Media.genres := None; Media.coverImage := None;
            Media.bannerImage := None; Media.description := None;
            Media.startDate := Some {| year := Some 2005; month := Some 10; day := None |};
            Media.endDate := Some {| year := Some 2006; month := Some 3; day := None |};
            Media.averageScore := None; Media.duration := None;
            Media.countryOfOrigin := None; Media.siteUrl := None |} in
  getReleaseInfo media = "2005 - 2006"
  /\ exists before after, getReleaseInfo media = before ++ string_of_Z 2005 ++ after.
Proof.
  intros media. split; [reflexivity|].
  refine (proj1 (proj2 (getReleaseInfo_shows_the_start_year media) _
                   {| year := Some 2005; month := Some 10; day := None |} 2005
                   eq_refl eq_refl eq_refl _)).
  discriminate.
Defined.

Lemma getReleasedDate_asks_the_host_for_full_dates_only_witness :
  let media :=
    Some {| Media.id := Some 21; Media.format := Some "TV"; Media.status := None;
            Media.title := None; Media.genres := None; Media.coverImage := None;
            Media.bannerImage := None; Media.description := None;
            Media.startDate := Some {| year := Some 2005; month := Some 4; day := None |};
            Media.endDate := None; Media.averageScore := None; Media.duration := None;
            Media.countryOfOrigin := None; Media.siteUrl := None |} in
  getReleasedDate no_date media = Some "2005-04"
  /\ (forall m, Some 4 = Some m -> 1 <= m <= 12 ->
       String.length (padStart2 (string_of_Z m)) = 2%nat).
Proof.
  intros media.
  apply (proj2 (getReleasedDate_asks_the_host_for_full_dates_only no_date media)
           {| year := Some 2005; month := Some 4; day := None |} 2005);
    [reflexivity | reflexivity | discriminate | by right].
Defined.

Lemma catalog_holds_the_lists_asked_for_witness :
  exists metas,
    getCatalog no_date no_logo two_lists "PAUSED" []
    = (Resolved metas,
       [AskViewer; AskLists (list_variables 7 (JArr [JStr "UPDATED_TIME_DESC"]))])
    /\ forall meta,
         meta ∈ metas
         <-> exists l st m,
               l ∈ [{| list_status := Some "CURRENT"; entries := [Some (bare 21 "TV")] |};
                    {| list_status := Some "PAUSED";
                       entries := [Some (bare 30 "MOVIE"); None] |}]
               /\ list_status l = Some st /\ st ∈ ["PAUSED"]
               /\ Some m ∈ entries l
               /\ mapMediaToMeta no_date no_logo (Some m) = Some meta.
Proof.
  apply (catalog_holds_the_lists_asked_for no_date no_logo two_lists "PAUSED" [] 7
           ["PAUSED"] (JArr [JStr "UPDATED_TIME_DESC"])); reflexivity.
Defined.

Lemma unhandled_catalog_is_empty_witness :
  "SEQUELS" ∈ CatalogHandler.CATALOGS
  /\ "ALLPOPULAR" ∈ CatalogHandler.CATALOGS
  /\ getCatalog no_date no_logo two_lists "SEQUELS" [] = (Resolved [], [AskViewer])
  /\ getCatalog no_date no_logo two_lists "ALLPOPULAR" [] = (Resolved [], [AskViewer]).
Proof.
  split; [by do 5 right; left|]. split; [by do 6 right; left|]. split.
  - apply (unhandled_catalog_is_empty no_date no_logo two_lists "SEQUELS" []).
    unfold handled. rewrite !elem_of_cons, elem_of_nil.
    intros [H|[H|[H|[H|[H|[H|[H|H]]]]]]]; discriminate || exact H.
  - apply (unhandled_catalog_is_empty no_date no_logo two_lists "ALLPOPULAR" []).
    unfold handled. rewrite !elem_of_cons, elem_of_nil.
    intros [H|[H|[H|[H|[H|[H|[H|H]]]]]]]; discriminate || exact H.
Defined.

(** X20: with a token the catalog handler never rejects: it answers with the
    metas [getCatalog] answers for the catalog id, in the world that call
    leaves, and with the empty list when [getCatalog] is rejected. Its answer
    is the empty list, with nothing but the viewer asked for, when the viewer
    request fails or [getCatalog] has no case for the catalog id. Without a
    token it rejects and asks for nothing. *)
Theorem catalog_request_is_always_answered
    (iso_date : Z -> Z -> Z -> option string)
    (getLogo : Z -> option string -> option string)
    (e : env) (a : Addon.args) (w : list asked) :
  if str_truthy (Addon.token (Addon.cfg a)) then
    CatalogHandler.handler iso_date getLogo e a w
    = match getCatalog iso_date getLogo e (Addon.id a) w with
      | (Resolved metas, w') => (Resolved {| CatalogHandler.metas := metas |}, w')
      | (Rejected _, w') => (Resolved {| CatalogHandler.metas := [] |}, w')
      end
    /\ ((exists err, viewer_reply e = Rejected err) \/ Addon.id a ∉ handled ->
        CatalogHandler.handler iso_date getLogo e a w
        = (Resolved {| CatalogHandler.metas := [] |}, (w ++ [AskViewer])%list))
  else
    CatalogHandler.handler iso_date getLogo e a w
    = (Rejected (Error "Anilist token not configured."), w).
Proof.
  unfold CatalogHandler.handler, CatalogHandler.catalogHandler.
  destruct (Addon.token (Addon.cfg a)) as [tok|]; cbn [str_truthy]; [|done].
  destruct (String.eqb_spec tok ""); cbn [negb]; [done|].
  unfold mbind, async_bind, bind, try_catch, mret, async_ret, ret.
  split.
  - by destruct (getCatalog iso_date getLogo e (Addon.id a) w) as [[metas|err] w'].
  - rewrite getCatalog_unfold. intros [[err Hviewer] | Hout].
    + by rewrite Hviewer.
    + apply catalog_case_handled in Hout. rewrite Hout.
      by destruct (viewer_reply e) as [[userId|]|err].
Qed.

Lemma catalog_request_is_always_answered_witness :
  CatalogHandler.handler no_date no_logo two_lists (CatalogHandler.request "CURRENT") []
  = match getCatalog no_date no_logo two_lists "CURRENT" [] with
    | (Resolved metas, w') => (Resolved {| CatalogHandler.metas := metas |}, w')
    | (Rejected _, w') => (Resolved {| CatalogHandler.metas := [] |}, w')
    end
  /\ CatalogHandler.handler no_date no_logo two_lists (CatalogHandler.request "SEQUELS") []
     = (Resolved {| CatalogHandler.metas := [] |}, [AskViewer]).
Proof.
  split.
  - apply (catalog_request_is_always_answered no_date no_logo two_lists
             (CatalogHandler.request "CURRENT") []).
  - apply (catalog_request_is_always_answered no_date no_logo two_lists
             (CatalogHandler.request "SEQUELS") []).
    right. unfold handled. cbn [Addon.id CatalogHandler.request].
    rewrite !elem_of_cons, elem_of_nil.
    intros [H|[H|[H|[H|[H|[H|[H|H]]]]]]]; discriminate || exact H.
Defined.

End CatalogFacts.

(** ** The subtitles handler: what reaches the services *)

Section SubtitlesFacts.
Import Addon.
Context {W : Type}.
Implicit Types (svc : services W) (a : args) (w : W).
#[local] Arguments String.eqb : simpl never.
#[local] Arguments split : simpl never.
#[local] Arguments parseInt : simpl never.
#[local] Arguments startsWith : simpl never.

(** The handler on a request with a token. *)
Lemma subtitlesHandler_with_token svc a w tok :
  token (cfg a) = Some tok -> tok <> "" ->
  subtitlesHandler svc a w
  = (Resolved {| subtitles := [] |},
     match resolve svc a w with
     | (Resolved (anilistId, animeName, episode), w1) =>
         if (onum_truthy anilistId || str_truthy animeName) && num_gt episode (Int 0)
         then (handleWatchedEpisode svc animeName anilistId episode
                 (preAddedOnly (cfg a)) tok w1).2
         else w1
     | (Rejected _, w1) => w1
     end).
Proof.
  intros Htok Hne. unfold subtitlesHandler. rewrite Htok.
  destruct (String.eqb_spec tok ""); [done|].
  unfold mbind, async_bind, bind, try_catch, mret, async_ret, ret.
  destruct (resolve svc a w) as [[[[anilistId animeName] episode]|err] w1]; [|done].
  destruct ((onum_truthy anilistId || str_truthy animeName) && num_gt episode (Int 0));
    [|done].
  by destruct (handleWatchedEpisode svc _ _ _ _ _ _) as [[[]|err] w2].
Qed.

(** X21: a request whose id begins with none of [kitsu:], [tt] and [anilist:]
    is acknowledged with the world as it was: no service is called, whatever
    the services are. *)
Theorem unrecognised_id_reaches_no_service svc a w tok :
  token (cfg a) = Some tok -> tok <> "" ->
  startsWith (id a) "kitsu:" = false ->
  startsWith (id a) "tt" = false ->
  startsWith (id a) "anilist:" = false ->
  subtitlesHandler svc a w = (Resolved {| subtitles := [] |}, w).
Proof.
  intros Htok Hne Hkitsu Himdb Hanilist.
  rewrite (subtitlesHandler_with_token svc a w tok Htok Hne).
  unfold resolve. by rewrite Hkitsu, Himdb, Hanilist.
Qed.

(** X22: the handler calls [handleWatchedEpisode] only with an id or a name
    that is truthy and with an episode above 0 (a number: not NaN): services
    that differ only in what [handleWatchedEpisode] does on other arguments
    are served alike. *)
Theorem update_needs_a_target_and_an_episode svc svc' a w :
  (forall i s w0, getAnilistId svc i s w0 = getAnilistId svc' i s w0) ->
  (forall i t w0, getNameFromCinemetaId svc i t w0 = getNameFromCinemetaId svc' i t w0) ->
  (forall animeName anilistId episode pre tok w0,
      (onum_truthy anilistId || str_truthy animeName) && num_gt episode (Int 0) = true ->
      handleWatchedEpisode svc animeName anilistId episode pre tok w0
      = handleWatchedEpisode svc' animeName anilistId episode pre tok w0) ->
  subtitlesHandler svc a w = subtitlesHandler svc' a w.
Proof.
  intros Hid Hname Hupdate.
  assert (Hresolve : resolve svc a w = resolve svc' a w).
  { unfold resolve.
    unfold mbind, async_bind, bind, mret, async_ret, ret.
    destruct (startsWith (id a) "kitsu:"); [by rewrite Hid|].
    destruct (startsWith (id a) "tt"); [|done].
    rewrite Hid.
    destruct (getAnilistId svc' _ _ _) as [[anilistId|err] w1]; [|done].
    destruct (negb (onum_truthy anilistId) && enableSearch (cfg a) && _);
      [by rewrite Hname|].
    destruct (negb (onum_truthy anilistId) && _); [by rewrite Hname | done]. }
  destruct (token (cfg a)) as [tok|] eqn:Htok;
    [|by unfold subtitlesHandler; rewrite Htok].
  destruct (String.eqb_spec tok "") as [->|Hne];
    [by unfold subtitlesHandler; rewrite Htok|].
  rewrite !(subtitlesHandler_with_token _ a w tok Htok Hne), Hresolve.
  destruct (resolve svc' a w) as [[[[anilistId animeName] episode]|err] w1]; [|done].
  destruct ((onum_truthy anilistId || str_truthy animeName) && num_gt episode (Int 0))
    eqn:Hvalid; [|done].
  by rewrite Hupdate.
Qed.

(** X23: unless the request is for a movie, or for a series with
    [enableSearch] set, the title service is not consulted: services that
    differ only in [getNameFromCinemetaId] are served alike. *)
Theorem series_title_search_is_opt_in svc svc' a w :
  (forall i s w0, getAnilistId svc i s w0 = getAnilistId svc' i s w0) ->
  (forall animeName anilistId episode pre tok w0,
      handleWatchedEpisode svc animeName anilistId episode pre tok w0
      = handleWatchedEpisode svc' animeName anilistId episode pre tok w0) ->
  type a <> "movie" ->
  enableSearch (cfg a) = false \/ type a <> "series" ->
  subtitlesHandler svc a w = subtitlesHandler svc' a w.
Proof.
  intros Hid Hupdate Hmovie Hsearch.
  assert (Hresolve : resolve svc a w = resolve svc' a w).
  { unfold resolve.
    unfold mbind, async_bind, bind, mret, async_ret, ret.
    destruct (startsWith (id a) "kitsu:"); [by rewrite Hid|].
    destruct (startsWith (id a) "tt"); [|done].
    rewrite Hid.
    destruct (getAnilistId svc' _ _ _) as [[anilistId|err] w1]; [|done].
    assert (Hoff : enableSearch (cfg a) && String.eqb (type a) "series" = false).
    { destruct Hsearch as [-> | Hseries]; [done|].
      destruct (String.eqb_spec (type a) "series"); [done|]. apply andb_false_r. }
    rewrite <- andb_assoc, Hoff, andb_false_r.
    destruct (String.eqb_spec (type a) "movie"); [done|]. by rewrite andb_false_r. }
  destruct (token (cfg a)) as [tok|] eqn:Htok;
    [|by unfold subtitlesHandler; rewrite Htok].
  destruct (String.eqb_spec tok "") as [->|Hne];
    [by unfold subtitlesHandler; rewrite Htok|].
  rewrite !(subtitlesHandler_with_token _ a w tok Htok Hne), Hresolve.
  destruct (resolve svc' a w) as [[[[anilistId animeName] episode]|err] w1]; [|done].
  by rewrite Hupdate.
Qed.

(** X24: for a movie with an IMDb id that has no mapping, the handler asks the
    title service whether or not [enableSearch] is set, and goes on with the
    title it answers and with episode 1. *)
Theorem movie_title_is_searched_without_opt_in svc a w anilistId w1 :
  type a = "movie" ->
  startsWith (id a) "kitsu:" = false ->
  startsWith (id a) "tt" = true ->
  getAnilistId svc (default "" (Js.split ":" (id a) !! 0%nat)) "imdb" w
    = (Resolved anilistId, w1) ->
  onum_truthy anilistId = false ->
  resolve svc a w
  = match getNameFromCinemetaId svc (default "" (Js.split ":" (id a) !! 0%nat))
            "movie" w1 with
    | (Resolved animeName, w2) => (Resolved (anilistId, animeName, Int 1), w2)
    | (Rejected err, w2) => (Rejected err, w2)
    end.
Proof.
  intros Htype Hkitsu Himdb Hmapped Hnone. unfold resolve.
  rewrite Hkitsu, Himdb.
  unfold mbind, async_bind, bind, mret, async_ret, ret.
  rewrite Hmapped, Hnone, Htype. unfold episode_of.
  change (String.eqb "movie" "series") with false.
  change (String.eqb "movie" "movie") with true.
  rewrite andb_false_r. cbn [negb andb].
  by destruct (getNameFromCinemetaId svc _ _ _) as [[animeName|err] w2].
Qed.

End SubtitlesFacts.

Lemma unrecognised_id_reaches_no_service_witness :
  Addon.subtitlesHandler Addon.failing_services
    {| Addon.id := "tmdb:129:1"; Addon.type := "series";
       Addon.cfg := {| Addon.token := Some "eyJ0eXAi"; Addon.enableSearch := true;
                       Addon.preAddedOnly := false |} |} tt
  = (Resolved {| Addon.subtitles := [] |}, tt).
Proof.
  apply (unrecognised_id_reaches_no_service Addon.failing_services
           {| Addon.id := "tmdb:129:1"; Addon.type := "series";
              Addon.cfg := {| Addon.token := Some "eyJ0eXAi"; Addon.enableSearch := true;
                              Addon.preAddedOnly := false |} |} tt "eyJ0eXAi");
    reflexivity || discriminate.
Defined.

Lemma update_needs_a_target_and_an_episode_witness :
  Addon.subtitlesHandler Subtitles.strict (Process.watch_event "anilist:21:0") tt
  = Addon.subtitlesHandler Subtitles.lenient (Process.watch_event "anilist:21:0") tt.
Proof.
  apply (update_needs_a_target_and_an_episode Subtitles.strict Subtitles.lenient
           (Process.watch_event "anilist:21:0") tt).
  - reflexivity.
  - reflexivity.
  - intros animeName anilistId episode pre tok w0 Hvalid.
    simpl. rewrite Hvalid. reflexivity.
Defined.

Lemma series_title_search_is_opt_in_witness :
  Addon.subtitlesHandler Subtitles.untitled (Process.watch_event "tt0988824:1:3") tt
  = Addon.subtitlesHandler Subtitles.lenient (Process.watch_event "tt0988824:1:3") tt.
Proof.
  apply (series_title_search_is_opt_in Subtitles.untitled Subtitles.lenient
           (Process.watch_event "tt0988824:1:3") tt).
  - reflexivity.
  - reflexivity.
  - discriminate.
  - left. reflexivity.
Defined.

Lemma movie_title_is_searched_without_opt_in_witness :
  Addon.resolve Addon.idle_services
    {| Addon.id := "tt0245429"; Addon.type := "movie";
       Addon.cfg := {| Addon.token := Some "eyJ0eXAi"; Addon.enableSearch := false;
                       Addon.preAddedOnly := false |} |} tt
  = match Addon.getNameFromCinemetaId Addon.idle_services "tt0245429" "movie" tt with
    | (Resolved animeName, w2) => (Resolved (None, animeName, Int 1), w2)
    | (Rejected err, w2) => (Rejected err, w2)
    end.
Proof.
  apply (movie_title_is_searched_without_opt_in Addon.idle_services
           {| Addon.id := "tt0245429"; Addon.type := "movie";
              Addon.cfg := {| Addon.token := Some "eyJ0eXAi"; Addon.enableSearch := false;
                              Addon.preAddedOnly := false |} |} tt None tt);
    reflexivity.
Defined.

(** ** The query cache and the id cache, once more *)

Section QueryCacheMore.
Import QueryCache CacheKey.



(** Inside the same ten minutes [cache.clear()] ends it: the next call for
    the key fetches again. *)
Example cleared_entry_is_fetched_again :
  let viewer := "query { Viewer { id } }" in
  let out := run [Call 0 viewer (JObj []); Fulfil 40 0 JNull; Invalidate;
                  Call 50 viewer (JObj [])] init in
  out.1 = [Some 0%nat; None; None; Some 2%nat]
  /\ invocations (getCacheKey viewer (JObj [])) out.2 = 2%nat.
Proof. by vm_compute. Qed.



End QueryCacheMore.

Section IdMappingMore.
Import IdMapping.
#[local] Arguments String.eqb : simpl never.
#[local] Arguments parseInt : simpl never.
#[local] Arguments string_of_Z : simpl never.

(** X27: for a scheme other than kitsu, on a miss of the cache and of the
    table, [getAnilistId] returns the id the ARM service reports, unchanged by
    the trip through [String] and [parseInt], when the id is below 10^21 (and
    a number: a double). From 10^21 on [String] prints the exponent form, of
    which [parseInt] reads the first digit. *)
Theorem arm_id_is_returned_as_reported
    (now : Z) (env : remote) (id source : string) (w : world) (n : Z) :
  Lru.has (anilistIdCache w) now (source ++ ":" ++ id) = false ->
  db_tier w id source = None ->
  source <> "kitsu" ->
  arm_reply env = AxiosOk (Some n) ->
  n <> 0 ->
  round53 n = n ->
  Z.abs n < 10 ^ 21 ->
  (getAnilistId now env id source w).1 = Resolved (Some (Int n))
  /\ DbWrite n id source ∈ effects_of w (getAnilistId now env id source w).2.
Proof.
  intros Hmiss Hdb Hsource Harm Hn Hdouble Hsmall.
  rewrite getAnilistId_remote by done. cbn [fst snd].
  assert (Htier : remote_tier env source = Some (Int n)).
  { unfold remote_tier, asks_arm, asks_kitsu, arm_tier.
    destruct (String.eqb_spec source "kitsu"); [done|]. cbn [andb negb].
    rewrite Harm. destruct (Z.eqb_spec n 0); [done|].
    by rewrite number_text_small, parseInt_string_of_Z, Hdouble. }
  split; [by rewrite Htier|].
  unfold after_remote, effects_of. rewrite Htier.
  destruct (Z.eqb_spec n 0); [done|]. cbn [log].
  rewrite <- app_assoc, drop_app_length.
  apply elem_of_app. right. right. left.
Qed.

Lemma arm_id_is_returned_as_reported_witness :
  let env := {| kitsu_reply := AxiosError (Error "timeout of 5000ms exceeded");
                arm_reply := AxiosOk (Some 199) |} in
  (getAnilistId 0 env "tt0245429" "imdb" fresh_world).1 = Resolved (Some (Int 199))
  /\ DbWrite 199 "tt0245429" "imdb"
       ∈ effects_of fresh_world (getAnilistId 0 env "tt0245429" "imdb" fresh_world).2.
Proof.
  intros env.
  apply (arm_id_is_returned_as_reported 0 env "tt0245429" "imdb" fresh_world 199);
    reflexivity || discriminate.
Defined.

(** An id of 10^21 is printed as [1e+21] and read as 1; at 2 * 10^19 the id
    is returned as it is, and the table refuses it as a rowid. *)
Example huge_arm_ids :
  let reports n := {| kitsu_reply := AxiosError (Error "timeout of 5000ms exceeded");
                      arm_reply := AxiosOk (Some n) |} in
  let '(r1, w1) := getAnilistId 0 (reports (10 ^ 21)) "tt0245429" "imdb" fresh_world in
  let '(r2, w2) := getAnilistId 0 (reports (2 * 10 ^ 19)) "tt0245429" "imdb" fresh_world in
  r1 = Resolved (Some (Int 1))
  /\ ids w1 = {[ 1 := Sqlite.set_col Sqlite.imdb (Some (Sqlite.VText "tt0245429"))
                        Sqlite.empty_row ]}
  /\ r2 = Resolved (Some (Int (2 * 10 ^ 19)))
  /\ ids w2 = ∅.
Proof. vm_compute. repeat split. Qed.

Lemma getAnilistId_repeat_witness :
  exists w2,
    getAnilistId 0 kitsu_says_42 "7442" "kitsu"
      (getAnilistId 0 kitsu_says_42 "7442" "kitsu" fresh_world).2
    = (Resolved (Some (Int 42)), w2)
    /\ log w2 = log (getAnilistId 0 kitsu_says_42 "7442" "kitsu" fresh_world).2
    /\ ids w2 = ids (getAnilistId 0 kitsu_says_42 "7442" "kitsu" fresh_world).2.
Proof.
  apply (getAnilistId_repeat 0 kitsu_says_42 kitsu_says_42 "7442" "kitsu" fresh_world);
    [simpl; lia | reflexivity | reflexivity].
Defined.

End IdMappingMore.

Section CacheKeyMore.
Import CacheKey.
#[local] Arguments String.eqb : simpl never.

(** The member a property list picks from an object depends on the value
    of a field only through its text. *)
Lemma own_property_middle ser key before after k x1 x2 :
  ser x1 = ser x2 ->
  own_property ser key (before ++ (k, x1) :: after)
  = own_property ser key (before ++ (k, x2) :: after).
Proof.
  intros Hser. induction before as [|[k' x'] before IH]; cbn [app own_property].
  - by rewrite Hser.
  - by rewrite IH.
Qed.

(** An object none of whose keys is in the property list prints as [{}]. *)
Lemma serialize_filtered_out K inner :
  (forall name, name ∈ K -> name ∉ inner.*1) ->
  serialize (Some K) (JObj inner) = Some "{}".
Proof.
  intros Hout. cbn [serialize].
  assert (Hnone : omap (fun k => own_property (serialize (Some K)) k inner) K = []).
  { revert Hout. generalize (serialize (Some K)). intros ser.
    induction K as [|k K IH]; intros Hout; [done|]. csimpl.
    rewrite own_property_absent by (apply Hout; left).
    apply IH. intros name Hin. apply Hout. by right. }
  by rewrite Hnone.
Qed.

(** X29: the property list [getCacheKey] hands to [JSON.stringify] filters
    nested objects too, by the names of the top-level fields. Two parameter
    objects that differ only inside a nested object whose field names are not
    top-level field names get the same cache key. *)
Theorem nested_fields_do_not_reach_the_key
    (query : string) (before after inner1 inner2 : list (string * json)) (k : string) :
  (forall name,
      name ∈ (before.*1 ++ k :: after.*1)%list ->
      (name ∉ inner1.*1) /\ (name ∉ inner2.*1)) ->
  getCacheKey query (JObj (before ++ (k, JObj inner1) :: after))
  = getCacheKey query (JObj (before ++ (k, JObj inner2) :: after)).
Proof.
  intros Hout. unfold getCacheKey. cbn [truthy object_keys].
  rewrite !fmap_app, !fmap_cons. cbn [fst].
  set (K := sort (before.*1 ++ k :: after.*1)).
  assert (HK : forall name, name ∈ K -> name ∈ (before.*1 ++ k :: after.*1)%list).
  { intros name. subst K. unfold sort. by rewrite merge_sort_Permutation. }
  assert (Hinner : serialize (Some K) (JObj inner1) = serialize (Some K) (JObj inner2)).
  { rewrite !serialize_filtered_out; [done | |]; intros name Hin%HK; by apply Hout. }
  cbn [serialize].
  assert (Hmembers : forall ks : list string,
            omap (fun key => own_property (serialize (Some K)) key
                               (before ++ (k, JObj inner1) :: after)) ks
            = omap (fun key => own_property (serialize (Some K)) key
                                 (before ++ (k, JObj inner2) :: after)) ks).
  { induction ks as [|key ks IH]; csimpl; [done|].
    by rewrite (own_property_middle _ key before after k _ _ Hinner), IH. }
  by rewrite Hmembers.
Qed.

Lemma nested_fields_do_not_reach_the_key_witness :
  getCacheKey "query ($page: Int, $filter: Filter) { Page { media { id } } }"
    (JObj [("page", JNum 1); ("filter", JObj [("genre", JStr "Action")])])
  = getCacheKey "query ($page: Int, $filter: Filter) { Page { media { id } } }"
      (JObj [("page", JNum 1); ("filter", JObj [("genre", JStr "Drama")])]).
Proof.
  apply (nested_fields_do_not_reach_the_key
           "query ($page: Int, $filter: Filter) { Page { media { id } } }"
           [("page", JNum 1)] [] [("genre", JStr "Action")] [("genre", JStr "Drama")]
           "filter").
  intros name Hin. cbn in Hin. rewrite !elem_of_cons, elem_of_nil in Hin.
  cbn. rewrite !elem_of_cons, !elem_of_nil.
  destruct Hin as [->|[->|[]]]; split; intros [H|[]]; discriminate H.
Defined.

End CacheKeyMore.

Section InvalidationFacts.
Import QueryCache CacheKey.

(** X30: [cache.clear()] does not cover a fetch in flight. When the fetch
    succeeds after the cache was cleared, its [then] callback puts the data in
    the cache all the same, and a call for the key is handed a promise
    resolved with that data, with no new fetch. *)
Theorem invalidation_misses_a_fetch_in_flight
    (st : state) (p : nat) (query : string) (variables : json) (data : json) (now : Z) :
  let key := getCacheKey query variables in
  inflight st !! p = Some key ->
  0 <= Lru.ttl (cache st) ->
  let st1 := on_fulfilled now p data (clear st) in
  exists r st2,
    getCachedResult now query variables st1 = (Some r, st2)
    /\ promises st2 !! r = Some (Fulfilled data)
    /\ fetches st2 = fetches st.
Proof.
  intros key Hinflight Httl st1. subst st1. unfold on_fulfilled, clear.
  cbn [inflight promises cache fetches]. rewrite Hinflight.
  set (r := fresh (dom (<[p := Fulfilled data]> (promises st)))).
  unfold getCachedResult. fold key. cbn [cache promises inflight fetches].
  destruct (has_get_set (Lru.clear (cache st)) now key r Httl) as [Hhas Hget].
  rewrite Hhas.
  destruct (Lru.get (Lru.set (Lru.clear (cache st)) now key r) now key) as [v c] eqn:Hgot.
  cbn [fst] in Hget. subst v.
  eexists _, _. split; [reflexivity|]. cbn [promises fetches].
  split; [apply lookup_insert_eq | done].
Qed.

Lemma invalidation_misses_a_fetch_in_flight_witness :
  let query := "query { Viewer { id } }" in
  let st := (getCachedResult 0 query (JObj []) init).2 in
  let st1 := on_fulfilled 40 0 (JObj [("Viewer", JObj [("id", JNum 7)])]) (clear st) in
  exists r st2,
    getCachedResult 40 query (JObj []) st1 = (Some r, st2)
    /\ promises st2 !! r = Some (Fulfilled (JObj [("Viewer", JObj [("id", JNum 7)])]))
    /\ fetches st2 = fetches st.
Proof.
  intros query st.
  apply (invalidation_misses_a_fetch_in_flight st 0%nat query (JObj [])
           (JObj [("Viewer", JObj [("id", JNum 7)])]) 40).
  - reflexivity.
  - simpl. lia.
Defined.

End InvalidationFacts.
